(** * Verification of [common.py] (jimmyadeline/stock)

    Shallow embedding of the signal-detection and portfolio-construction
    code of [common.py], and the properties its specification states.

    Conventions of the embedding:
    - Python [int] is [Z]; list and array positions are [Z], with Python's
      negative-index wrap-around and [IndexError] written out.
    - [float] / [numpy.float64] values are read twice. The definitions of
      the first part compute in exact arithmetic, on rationals [Q] compared
      with [==] ([Qeq]): no rounding, overflow, infinity or NaN. Module
      [Binary64] reads the arithmetic of [get_picked_points],
      [get_buy_signal] and [filter_garbage_series] on IEEE binary64 doubles,
      as numpy computes it. A statement that depends on how a difference, a
      product or a quotient is rounded is made on doubles, or says that it
      is one of exact arithmetic.
    - A raised exception is a value of [exn]; code that may raise lives in
      the [result] monad.
    - A [dict] is a [gmap]; the HTTP service is a function handed to the code
      that reads it. *)

From Stdlib Require Import ZArith QArith Qminmax Lqa Lia Bool Ascii String.
From Stdlib Require Import List Permutation Sorted.
From Stdlib Require Floats Uint63.
From stdpp Require Import gmap strings list fin_maps.
From Equations Require Import Equations.
From Equations.Prop Require Import Logic.

Import PrimFloat.

Local Open Scope Z_scope.

(** ** Exceptions and the result monad *)

Inductive exn : Type :=
| IndexError
| ValueError
| ZeroDivisionError
| RequestException
| Exception (msg : string).

(** The class name Python reports for an exception. *)
Definition exn_name (e : exn) : string :=
  match e with
  | IndexError => "IndexError"
  | ValueError => "ValueError"
  | ZeroDivisionError => "ZeroDivisionError"
  | RequestException => "RequestException"
  | Exception _ => "Exception"
  end.

Inductive result (A : Type) : Type :=
| Ok (a : A)
| Raise (e : exn).
Arguments Ok {A} a.
Arguments Raise {A} e.

Definition bind {A B} (m : result A) (k : A -> result B) : result B :=
  match m with
  | Ok a => k a
  | Raise e => Raise e
  end.

Notation "x <- m ;; k" := (bind m (fun x => k))
  (at level 100, m at next level, right associativity).

Fixpoint mapM {A B} (f : A -> result B) (l : list A) : result (list B) :=
  match l with
  | [] => Ok []
  | x :: l' => y <- f x ;; ys <- mapM f l' ;; Ok (y :: ys)
  end.

(** A comprehension with a condition: [[x for x in l if p x]]. *)
Fixpoint filterM {A} (p : A -> result bool) (l : list A) : result (list A) :=
  match l with
  | [] => Ok []
  | x :: l' =>
      b <- p x ;; ys <- filterM p l' ;; Ok (if b then x :: ys else ys)
  end.

(** ** Python sequences *)

Definition len {A} (l : list A) : Z := Z.of_nat (length l).

(** [l[i]]: a negative [i] counts from the end; out of range raises. *)
Definition getitem {A} (l : list A) (i : Z) : result A :=
  let j := if i <? 0 then i + len l else i in
  if j <? 0 then Raise IndexError
  else match nth_error l (Z.to_nat j) with
       | Some x => Ok x
       | None => Raise IndexError
       end.

(** Slice bounds are clamped to [0 .. len l], never raising. *)
Definition clamp {A} (l : list A) (i : Z) : Z :=
  if i <? 0 then Z.max (i + len l) 0 else Z.min i (len l).

(** [l[lo:hi]] *)
Definition slice {A} (l : list A) (lo hi : Z) : list A :=
  let a := clamp l lo in
  let b := clamp l hi in
  firstn (Z.to_nat (b - a)) (skipn (Z.to_nat a) l).

(** [l[lo:]] *)
Definition slice_from {A} (l : list A) (lo : Z) : list A :=
  slice l lo (len l).

(** [l[:hi]] *)
Definition slice_to {A} (l : list A) (hi : Z) : list A :=
  slice l 0 hi.

(** [range(lo, hi)] *)
Definition range (lo hi : Z) : list Z :=
  map (fun k => lo + Z.of_nat k) (seq 0 (Z.to_nat (hi - lo))).

(** ** Sorting

    [list.sort] and [sorted] are stable and compare with [<] only. With
    [reverse=True] CPython reverses the list, sorts it ascending, and
    reverses the result, which keeps equal elements in their original
    order. The ascending sort is modelled as a stable insertion sort. *)

Section Sorting.
Context {A : Type} (lt : A -> A -> bool).

Fixpoint insert_sorted (x : A) (l : list A) : list A :=
  match l with
  | [] => [x]
  | y :: l' => if lt y x then y :: insert_sorted x l' else x :: y :: l'
  end.

Fixpoint sort_asc (l : list A) : list A :=
  match l with
  | [] => []
  | x :: l' => insert_sorted x (sort_asc l')
  end.

Definition sort_reverse (l : list A) : list A :=
  rev (sort_asc (rev l)).

(** [a] may stand before [b] in ascending order: [b < a] is false. *)
Definition asc (a b : A) : Prop := lt b a = false.

(** [a] may stand before [b] in descending order: [a < b] is false. *)
Definition desc (a b : A) : Prop := lt a b = false.
End Sorting.

(** [sorted(l, key=key, reverse=True)], with the keys computed once. *)
Definition sorted_key_reverse {A K} (ltk : K -> K -> bool)
    (key : A -> result K) (l : list A) : result (list A) :=
  keys <- mapM key l ;;
  Ok (map snd (sort_reverse (fun a b => ltk (fst a) (fst b)) (combine keys l))).

(** ** Floating-point values, as exact rationals *)

Definition Qlt_bool (a b : Q) : bool := negb (Qle_bool b a).

Definition Qsum (l : list Q) : Q := fold_left Qplus l 0%Q.

(** [np.max]: raises [ValueError] on an empty array. *)
Definition np_max (l : list Q) : result Q :=
  match l with
  | [] => Raise ValueError
  | x :: l' => Ok (fold_left Qmax l' x)
  end.

(** [np.average] of a non-empty list. *)
Definition np_average (l : list Q) : Q :=
  (Qsum l / inject_Z (len l))%Q.

(** [np.finfo(float).min], the most negative finite double. *)
Definition float_min : Q :=
  inject_Z (- (2 ^ 1024 - 2 ^ 971)).

(** Division by a Python [int] or [float]: a zero divisor raises. (A numpy
    scalar as divisor gives [inf] or [nan] instead; the divisions of
    [get_trading_list] are shown below to meet no zero divisor.) *)
Definition py_div (a b : Q) : result Q :=
  if Qeq_bool b 0 then Raise ZeroDivisionError else Ok (a / b)%Q.

(** ** Constants of the module *)

Definition DATE_RANGE : Z := 5.
Definition MAX_STOCK_PICK : Z := 3.
Definition GARBAGE_FILTER_THRESHOLD : Q := 7 # 10.
Definition VOLUME_FILTER_THRESHOLD : Z := 10000.

(** ** [get_picked_points] (DipThresholdEstimator) *)

Record calibration : Type := {
  pick_t : list Z;
  max_avg_gain : Q;
  threshold : Q
}.

(** Line 39: the days [i + 1] that follow a day [i >= DATE_RANGE - 1] whose
    price did not rise. *)
Definition down_t (series : list Q) : result (list Z) :=
  days <- filterM
            (fun i =>
               a <- getitem series i ;;
               b <- getitem series (i + 1) ;;
               Ok (Qle_bool b a))
            (range (DATE_RANGE - 1) (len series - 1)) ;;
  Ok (map (fun i => i + 1) days).

(** What line 39 keeps: a day from [DATE_RANGE] on, inside the series,
    whose price is not above the price of the day before. *)
Definition dip_event (series : list Q) (t : Z) : Prop :=
  DATE_RANGE <= t < len series /\
  exists a b, getitem series (t - 1) = Ok a /\ getitem series t = Ok b /\
              (b <= a)%Q.

(** The depth of one event: the fractional drop from the maximum of the
    [DATE_RANGE] preceding prices. *)
Definition depth_at (series : list Q) (i : Z) : result Q :=
  m <- np_max (slice series (i - DATE_RANGE) i) ;;
  x <- getitem series i ;;
  m' <- np_max (slice series (i - DATE_RANGE) i) ;;
  Ok ((m - x) / m')%Q.

(** Line 40. *)
Definition down_percent (series : list Q) (dt : list Z) : result (list Q) :=
  mapM (depth_at series) dt.

(** Line 41: positions of [down_percent], deepest first. *)
Definition pick_order (dp : list Q) : result (list Z) :=
  sorted_key_reverse Qlt_bool (fun i => getitem dp i) (range 0 (len dp)).

(** The next-day relative change after day [t]. *)
Definition gain_at (series : list Q) (t : Z) : result Q :=
  a <- getitem series (t + 1) ;;
  b <- getitem series t ;;
  c <- getitem series t ;;
  Ok ((a - b) / c)%Q.

(** Lines 46-47: the gains of the [n_point] deepest events, leaving out an
    event on the last day. *)
Definition gains_top (series : list Q) (dt pick_ti : list Z) (n_point : Z)
    : result (list Q) :=
  potential_t <- mapM (getitem dt) (slice_to pick_ti n_point) ;;
  mapM (gain_at series)
       (List.filter (fun t => t + 1 <? len series) potential_t).

(** The variables the scan of lines 45-56 updates. *)
Record scan_state : Type := {
  st_tol : Z;
  st_max_avg_gain : Q;
  st_n_pick : Z
}.

(** Lines 48-54: the update for one [n_point] whose gains are not empty. *)
Definition scan_update (st : scan_state) (n_point : Z) (gains : list Q)
    : scan_state :=
  let avg_gain := np_average gains in
  if Qlt_bool (st_max_avg_gain st) avg_gain
  then {| st_tol := st_tol st;
          st_max_avg_gain := avg_gain;
          st_n_pick := n_point |}
  else {| st_tol := st_tol st - 1;
          st_max_avg_gain := st_max_avg_gain st;
          st_n_pick := st_n_pick st |}.

(** Lines 45-56: the loop over the values of [n_point]; [break] ends it. *)
Fixpoint scan (series : list Q) (dt pick_ti : list Z) (n_points : list Z)
    (st : scan_state) : result scan_state :=
  match n_points with
  | [] => Ok st
  | n_point :: rest =>
      gains <- gains_top series dt pick_ti n_point ;;
      if 0 <? len gains then
        let st' := scan_update st n_point gains in
        if st_tol st' =? 0 then Ok st'
        else scan series dt pick_ti rest st'
      else scan series dt pick_ti rest st
  end.

Definition scan_init : scan_state :=
  {| st_tol := 50; st_max_avg_gain := float_min; st_n_pick := 0 |}.

(** The values of [n_point] the loop of line 45 ranges over. *)
Definition scan_range (pick_ti : list Z) : list Z :=
  range 1 (len pick_ti).

Definition get_picked_points (series : list Q) : result calibration :=
  dt <- down_t series ;;
  dp <- down_percent series dt ;;
  pick_ti <- pick_order dp ;;
  st <- scan series dt pick_ti (scan_range pick_ti) scan_init ;;
  threshold_i <- getitem pick_ti (st_n_pick st - 1) ;;
  thr <- getitem dp threshold_i ;;
  picked <- mapM (getitem dt) (slice_to pick_ti (st_n_pick st)) ;;
  Ok {| pick_t := picked;
        max_avg_gain := st_max_avg_gain st;
        threshold := thr |}.

(** ** [get_buy_signal] (BuySignalEvaluator) *)

(** Line 67: the depth of [price] below the maximum of the last
    [DATE_RANGE] prices. *)
Definition current_depth (series : list Q) (price : Q) : result Q :=
  m <- np_max (slice_from series (- DATE_RANGE)) ;;
  m' <- np_max (slice_from series (- DATE_RANGE)) ;;
  Ok ((m - price) / m')%Q.

Definition get_buy_signal (series : list Q) (price : Q)
    : result (Q * bool) :=
  last <- getitem series (-1) ;;
  if Qle_bool last price then Ok (0%Q, false)
  else
    c <- get_picked_points series ;;
    d <- current_depth series price ;;
    Ok (max_avg_gain c, Qlt_bool (threshold c) d).

(** ** [get_trading_list] (PortfolioBuilder) *)

(** [<] on the tuples [(avg_return, ticker)]: the first components that
    differ decide. Strings compare by code point. *)
Definition tuple_lt (a b : Q * string) : bool :=
  if Qeq_bool (fst a) (fst b) then String.ltb (snd a) (snd b)
  else Qlt_bool (fst a) (fst b).

(** Lines 158-160: the [while] loop that counts the accepted symbols. *)
Equations? count_picks (buy_symbols : list (Q * string)) (n_symbols : Z)
    : result Z
    by wf (Z.to_nat (Z.min MAX_STOCK_PICK (len buy_symbols) - n_symbols)) lt :=
  count_picks buy_symbols n_symbols
    with inspect (n_symbols <? Z.min MAX_STOCK_PICK (len buy_symbols)) := {
    | exist _ false _ := Ok n_symbols
    | exist _ true Hlt with getitem buy_symbols n_symbols := {
        | Raise e := Raise e
        | Ok entry with Qle_bool (1 # 100) (fst entry) := {
            | true := count_picks buy_symbols (n_symbols + 1)
            | false := Ok n_symbols } } }.
Proof. apply Z.ltb_lt in Hlt. lia. Qed.

(** Lines 161-163. *)
Fixpoint sum_returns (buy_symbols : list (Q * string)) (idx : list Z)
    (ac : Q) : result Q :=
  match idx with
  | [] => Ok ac
  | i :: rest =>
      entry <- getitem buy_symbols i ;;
      sum_returns buy_symbols rest (ac + fst entry)%Q
  end.

(** Lines 165-168. *)
Fixpoint build_trading_list (buy_symbols : list (Q * string))
    (n_symbols : Z) (ac : Q) (idx : list Z) (trading_list : list (string * Q))
    : result (list (string * Q)) :=
  match idx with
  | [] => Ok trading_list
  | i :: rest =>
      even_part <- py_div (75 # 100) (inject_Z n_symbols) ;;
      entry <- getitem buy_symbols i ;;
      return_part <- py_div ((25 # 100) * fst entry) ac ;;
      entry' <- getitem buy_symbols i ;;
      build_trading_list buy_symbols n_symbols ac rest
        (trading_list ++ [(snd entry', (even_part + return_part)%Q)])
  end.

(** The share of capital lines 166-167 give to a symbol of return [r],
    among [n] accepted symbols whose returns sum to [ac]. *)
Definition proportion (n : Z) (ac r : Q) : Q :=
  ((75 # 100) / inject_Z n + (25 # 100) * r / ac)%Q.

(** The part of [get_trading_list] after the sort, on the sorted list. *)
Definition trading_list_of (sorted_symbols : list (Q * string))
    : result (list (string * Q)) :=
  n_symbols <- count_picks sorted_symbols 0 ;;
  ac <- sum_returns sorted_symbols (range 0 n_symbols) 0%Q ;;
  build_trading_list sorted_symbols n_symbols ac (range 0 n_symbols) [].

(** [get_trading_list] receives a reference to the caller's list and sorts
    that list in place. The first component is the content of the caller's
    list when the call ends, the second what the call returns. *)
Definition get_trading_list (buy_symbols : list (Q * string))
    : list (Q * string) * result (list (string * Q)) :=
  let buy_symbols' := sort_reverse tuple_lt buy_symbols in
  (buy_symbols', trading_list_of buy_symbols').

(** ** [filter_garbage_series] (UniverseFilter, garbage rule) *)

(** Line 108: the test a series passes to be kept. *)
Definition retains_high (series : list Q) : result bool :=
  m <- np_max series ;;
  last <- getitem series (-1) ;;
  Ok (Qle_bool (m * GARBAGE_FILTER_THRESHOLD) last).

(** Lines 107-109, over the items of the dictionary. Tickers are handled
    one by one and independently, so the order of the items only decides
    which exception is seen first. *)
Fixpoint garbage_loop (items : list (string * list Q))
    (res : gmap string (list Q)) : result (gmap string (list Q)) :=
  match items with
  | [] => Ok res
  | (ticker, series) :: rest =>
      keep <- retains_high series ;;
      garbage_loop rest (if keep then <[ticker := series]> res else res)
  end.

Definition filter_garbage_series (all_series : gmap string (list Q))
    : result (gmap string (list Q)) :=
  garbage_loop (map_to_list all_series) ∅.

(** ** [web_scraping] and [filter_low_volume_series] (volume rule) *)

(** What [requests.get] returns: [r.ok] and [str(r.content)]. *)
Record response : Type := {
  ok : bool;
  content : string
}.

(** [c.find(prefix)], counted from position [pos] of the whole string. *)
Fixpoint find_from (c prefix : string) (pos : Z) : Z :=
  if String.prefix prefix c then pos
  else match c with
       | EmptyString => -1
       | String _ c' => find_from c' prefix (pos + 1)
       end.

Definition find (c prefix : string) : Z := find_from c prefix 0.

(** Lines 178-182. *)
Fixpoint find_first (c : string) (prefixes : list string) (pos : Z) : Z :=
  match prefixes with
  | [] => pos
  | prefix :: rest =>
      let pos := find c prefix in
      if 0 <=? pos then pos else find_first c rest pos
  end.

Definition char_lt (a b : ascii) : bool :=
  (N_of_ascii a <? N_of_ascii b)%N.

Definition char_le (a b : ascii) : bool :=
  (N_of_ascii a <=? N_of_ascii b)%N.

(** A successful read [c[pos]] leaves [pos] below [len c]: the measure of
    the loops that advance [pos] after reading. *)
Ltac index_advances H :=
  unfold getitem, len in *; cbv zeta in H;
  repeat match type of H with
         | context [Z.ltb ?a ?b] => destruct (Z.ltb_spec a b)
         | context [nth_error ?l ?n] => destruct (nth_error l n) eqn:?Hnth
         end;
  try discriminate; try lia;
  match goal with
  | Hn : nth_error ?l ?n = Some _ |- _ =>
      assert (n < length l)%nat by (apply nth_error_Some; congruence); lia
  end.

(** Line 185: move [pos] to the first digit. *)
Equations? skip_to_digit (c : list ascii) (pos : Z) : result Z
    by wf (Z.to_nat (len c - pos)) lt :=
  skip_to_digit c pos with inspect (getitem c pos) := {
    | exist _ (Raise e) _ := Raise e
    | exist _ (Ok ch) Hget with char_lt "9" ch || char_lt ch "0" := {
        | true := skip_to_digit c (pos + 1)
        | false := Ok pos } }.
Proof. index_advances Hget. Qed.

(** Lines 187-189: collect the digits and dots from [pos] on. *)
Equations? read_number (c : list ascii) (pos : Z) (s : string)
    : result string
    by wf (Z.to_nat (len c - pos)) lt :=
  read_number c pos s with inspect (getitem c pos) := {
    | exist _ (Raise e) _ := Raise e
    | exist _ (Ok ch) Hget
        with (char_le ch "9" && char_le "0" ch) || Ascii.eqb ch "." := {
        | true := read_number c (pos + 1) (s +:+ String ch EmptyString)
        | false := Ok s } }.
Proof. index_advances Hget. Qed.

(** The test of line 185: [ch] is not a digit. *)
Definition before_number (ch : ascii) : bool :=
  char_lt "9" ch || char_lt ch "0".

(** The test of line 187: [ch] is a digit or a dot. *)
Definition in_number (ch : ascii) : bool :=
  (char_le ch "9" && char_le "0" ch) || Ascii.eqb ch ".".

(** [prefix] occurs in [c]. *)
Definition occurs (prefix c : string) : Prop :=
  exists before after, c = before +:+ prefix +:+ after.

Section Web.
(** [requests.get]: the answer to the attempt numbered [0] or [1] for a
    URL; the request itself may raise. *)
Variable requests_get : string -> nat -> result response.

Definition web_scraping (url : string) (prefixes : list string)
    : result string :=
  r <- requests_get url 0%nat ;;
  r <- (if negb (ok r) then requests_get url 1%nat else Ok r) ;;
  let c := content r in
  let pos := find_first c prefixes (-1) in
  if 0 <=? pos then
    pos <- skip_to_digit (list_ascii_of_string c) pos ;;
    read_number (list_ascii_of_string c) pos EmptyString
  else Raise (Exception "symbol not found ").
End Web.

(** The page lines 173-177 end up with: the first answer when it is [ok],
    else the second, whatever its status. *)
Definition page_used (requests_get : string -> nat -> result response)
    (url : string) (r : response) : Prop :=
  (requests_get url 0%nat = Ok r /\ ok r = true) \/
  (exists r0, requests_get url 0%nat = Ok r0 /\ ok r0 = false /\
              requests_get url 1%nat = Ok r).

Definition is_digit (ch : ascii) : bool :=
  char_le "0" ch && char_le ch "9".

Definition digit_value (ch : ascii) : Z :=
  Z.of_N (N_of_ascii ch) - 48.

(** The default of [sys.int_max_str_digits]: CPython, from 3.11 on and in
    the security releases of 3.7 to 3.10, refuses to convert a string of
    more digits, leading zeros counted. *)
Definition INT_MAX_STR_DIGITS : Z := 4300.

(** [int(s)] for a string of digits and dots, which is all [web_scraping]
    returns: a dot, no digit at all, or more than [INT_MAX_STR_DIGITS]
    digits raise [ValueError]. *)
Definition py_int (s : string) : result Z :=
  let cs := list_ascii_of_string s in
  if forallb is_digit cs && negb (0 =? len cs)
     && (len cs <=? INT_MAX_STR_DIGITS) then
    Ok (fold_left (fun acc ch => 10 * acc + digit_value ch) cs 0)
  else Raise ValueError.

Section Volume.
Variable requests_get : string -> nat -> result response.

(** Lines 121-127: the volume of one ticker, and whether it was fetched. *)
Definition volume_of (volumes : gmap string Z) (ticker : string)
    : result (Z * bool) :=
  match volumes !! ticker with
  | Some volume => Ok (volume, false)
  | None =>
      let url := "https://finance.yahoo.com/quote/" +:+ ticker in
      let prefixes := ["regularMarketVolume"] in
      s <- web_scraping requests_get url prefixes ;;
      volume <- py_int s ;;
      Ok (volume, true)
  end.

(** Lines 120-129. *)
Fixpoint volume_loop (volumes : gmap string Z)
    (items : list (string * list Q))
    (res : gmap string (list Q)) (overwrite : bool)
    : result (gmap string (list Q) * bool) :=
  match items with
  | [] => Ok (res, overwrite)
  | (ticker, series) :: rest =>
      v <- volume_of volumes ticker ;;
      volume_loop volumes rest
        (if VOLUME_FILTER_THRESHOLD <=? fst v
         then <[ticker := series]> res else res)
        (overwrite || snd v)
  end.

(** [volumes] is the content of the volume cache file. The result is the
    filtered dictionary and what is written back to the cache file, if
    anything. *)
Definition filter_low_volume_series (volumes : gmap string Z)
    (all_series : gmap string (list Q))
    : result (gmap string (list Q) * option (gmap string Z)) :=
  out <- volume_loop volumes (map_to_list all_series) ∅ false ;;
  Ok (fst out, if snd out then Some volumes else None).
End Volume.

(** ** [get_buy_symbols] *)

Definition LOOK_BACK_DAY : Z := 250.

(** Line 150, for one series: the window
    [series[cutoff - LOOK_BACK_DAY:cutoff]], then the price
    [series[cutoff]], go to [get_buy_signal]. *)
Definition signal_at (series : list Q) (cutoff : Z) : result (Q * bool) :=
  let window := slice series (cutoff - LOOK_BACK_DAY) cutoff in
  price <- getitem series cutoff ;;
  get_buy_signal window price.

(** Lines 148-152, over the items of the dictionary: a buy signal appends
    [(avg_return, ticker)]. *)
Fixpoint buy_loop (cutoff : Z) (items : list (string * list Q))
    (buy_symbols : list (Q * string)) : result (list (Q * string)) :=
  match items with
  | [] => Ok buy_symbols
  | (ticker, series) :: rest =>
      signal <- signal_at series cutoff ;;
      buy_loop cutoff rest
        (if snd signal then buy_symbols ++ [(fst signal, ticker)]
         else buy_symbols)
  end.

Definition get_buy_symbols (all_series : gmap string (list Q)) (cutoff : Z)
    : result (list (Q * string)) :=
  buy_loop cutoff (map_to_list all_series) [].

(** The entry one item of the dictionary adds to the list of line 152. *)
Definition buy_entry (cutoff : Z) (item : string * list Q)
    : list (Q * string) :=
  match signal_at (snd item) cutoff with
  | Ok (avg_return, true) => [(avg_return, fst item)]
  | _ => []
  end.

(** ** [get_header] *)

Fixpoint str_copies (s : string) (n : nat) : string :=
  match n with
  | O => EmptyString
  | S n' => s +:+ str_copies s n'
  end.

(** [s * n] for a string: no copy when [n] is not positive. *)
Definition str_mul (s : string) (n : Z) : string :=
  str_copies s (Z.to_nat n).

Definition str_len (s : string) : Z := Z.of_nat (String.length s).

(** [title] is a [str], one character per code point. *)
Definition get_header (title : string) : string :=
  let header_left := "== [ " +:+ title +:+ " ] " in
  header_left +:+ str_mul "=" (80 - str_len header_left).

(** ** [get_all_series] *)

Definition REFERENCE_SYMBOL : string := "AAPL".

Section Loading.
(** [get_all_symbols] reads the files of the [data] directory and
    [get_series] the cache or the price service: each is taken as what it
    returns or raises, [get_series] giving one answer per ticker and
    period during a run. *)
Variable get_all_symbols : result (list string).
Variable get_series : string -> string -> result (list Q).

Definition get_series_length (time : string) : result Z :=
  series <- get_series REFERENCE_SYMBOL time ;;
  Ok (len series).

(** Lines 97-101. *)
Fixpoint load_loop (time : string) (series_length : Z)
    (tickers : list string) (all_series : gmap string (list Q))
    : result (gmap string (list Q)) :=
  match tickers with
  | [] => Ok all_series
  | ticker :: rest =>
      series <- get_series ticker time ;;
      load_loop time series_length rest
        (if negb (len series =? series_length) then all_series
         else <[ticker := series]> all_series)
  end.

Definition get_all_series (time : string)
    : result (gmap string (list Q)) :=
  tickers <- get_all_symbols ;;
  series_length <- get_series_length time ;;
  load_loop time series_length tickers ∅.
End Loading.

(** * The arithmetic of the module on binary64 doubles

    The prices are [numpy.float64] values: IEEE 754 binary64, which Rocq's
    primitive [float] is, with its rounding to nearest-even, infinities,
    signed zeros and NaN. A numpy division by zero raises nothing: it gives
    an infinity or NaN. The definitions of this module read the lines of
    [get_picked_points], [get_buy_signal] and [filter_garbage_series] on
    doubles, operation for operation in the order the code evaluates them;
    everything that is not arithmetic (positions, slices, the stable sort,
    the loop) is shared with the definitions above. *)

Module Binary64.


(** The constant of line 18: the double nearest to 0.7. *)
Definition GARBAGE_FILTER_THRESHOLD : float :=
  (0x1.6666666666666p-1)%float.

(** [np.finfo(float).min], the most negative finite double. *)
Definition float_min : float := (- 0x1.fffffffffffffp+1023)%float.

(** One step of [np.max]: numpy keeps the value it holds when that is
    [>=] the next one or is NaN, so that a NaN, once met, stays. *)
Definition np_max_step (held next : float) : float :=
  if (next <=? held)%float || PrimFloat.is_nan held then held else next.

(** [np.max]: raises [ValueError] on an empty array. *)
Definition np_max (l : list float) : result float :=
  match l with
  | [] => Raise ValueError
  | x :: l' => Ok (fold_left np_max_step l' x)
  end.

(** Line 39, with [series[i] >= series[i + 1]] on doubles. *)
Definition down_t (series : list float) : result (list Z) :=
  days <- filterM
            (fun i =>
               a <- getitem series i ;;
               b <- getitem series (i + 1) ;;
               Ok (b <=? a)%float)
            (range (DATE_RANGE - 1) (len series - 1)) ;;
  Ok (map (fun i => i + 1) days).

(** Line 40, for one event: a rounded difference, then a rounded
    quotient. *)
Definition depth_at (series : list float) (i : Z) : result float :=
  m <- np_max (slice series (i - DATE_RANGE) i) ;;
  x <- getitem series i ;;
  m' <- np_max (slice series (i - DATE_RANGE) i) ;;
  Ok ((m - x) / m')%float.

(** Line 40. *)
Definition down_percent (series : list float) (dt : list Z)
    : result (list float) :=
  mapM (depth_at series) dt.

(** Line 41. The keys are compared with [<] on doubles; the stable sort is
    the one of the definitions above, which is what [sorted] computes when
    no key is NaN. *)
Definition pick_order (dp : list float) : result (list Z) :=
  sorted_key_reverse PrimFloat.ltb (fun i => getitem dp i) (range 0 (len dp)).

(** Line 47, for one event. *)
Definition gain_at (series : list float) (t : Z) : result float :=
  a <- getitem series (t + 1) ;;
  b <- getitem series t ;;
  c <- getitem series t ;;
  Ok ((a - b) / c)%float.

(** Lines 46-47. *)
Definition gains_top (series : list float) (dt pick_ti : list Z)
    (n_point : Z) : result (list float) :=
  potential_t <- mapM (getitem dt) (slice_to pick_ti n_point) ;;
  mapM (gain_at series)
       (List.filter (fun t => t + 1 <? len series) potential_t).

Record calibration : Type := {
  pick_t : list Z;
  max_avg_gain : float;
  threshold : float
}.

Record scan_state : Type := {
  st_tol : Z;
  st_max_avg_gain : float;
  st_n_pick : Z
}.

Definition scan_init : scan_state :=
  {| st_tol := 50; st_max_avg_gain := float_min; st_n_pick := 0 |}.

Section Calibration.
(** [np.average] of a list of doubles that is not empty. The order in which
    numpy adds the values, and so the rounding of their sum, is numpy's own
    (it adds long arrays pairwise) and no part of [common.py]: the function
    is taken as what it returns. *)
Variable np_average : list float -> float.

(** Lines 48-54. *)
Definition scan_update (st : scan_state) (n_point : Z) (gains : list float)
    : scan_state :=
  let avg_gain := np_average gains in
  if (st_max_avg_gain st <? avg_gain)%float
  then {| st_tol := st_tol st;
          st_max_avg_gain := avg_gain;
          st_n_pick := n_point |}
  else {| st_tol := st_tol st - 1;
          st_max_avg_gain := st_max_avg_gain st;
          st_n_pick := st_n_pick st |}.

(** Lines 45-56. *)
Fixpoint scan (series : list float) (dt pick_ti : list Z)
    (n_points : list Z) (st : scan_state) : result scan_state :=
  match n_points with
  | [] => Ok st
  | n_point :: rest =>
      gains <- gains_top series dt pick_ti n_point ;;
      if 0 <? len gains then
        let st' := scan_update st n_point gains in
        if st_tol st' =? 0 then Ok st'
        else scan series dt pick_ti rest st'
      else scan series dt pick_ti rest st
  end.

Definition get_picked_points (series : list float) : result calibration :=
  dt <- down_t series ;;
  dp <- down_percent series dt ;;
  pick_ti <- pick_order dp ;;
  st <- scan series dt pick_ti (scan_range pick_ti) scan_init ;;
  threshold_i <- getitem pick_ti (st_n_pick st - 1) ;;
  thr <- getitem dp threshold_i ;;
  picked <- mapM (getitem dt) (slice_to pick_ti (st_n_pick st)) ;;
  Ok {| pick_t := picked;
        max_avg_gain := st_max_avg_gain st;
        threshold := thr |}.

(** Line 67. *)
Definition current_depth (series : list float) (price : float)
    : result float :=
  m <- np_max (slice_from series (- DATE_RANGE)) ;;
  m' <- np_max (slice_from series (- DATE_RANGE)) ;;
  Ok ((m - price) / m')%float.

(** Lines 63-68. [price >= series[-1]] is false when either is NaN. The
    [0] of line 65 is the [int] 0, which equals the double 0. *)
Definition get_buy_signal (series : list float) (price : float)
    : result (float * bool) :=
  last <- getitem series (-1) ;;
  if (last <=? price)%float then Ok (0%float, false)
  else
    c <- get_picked_points series ;;
    d <- current_depth series price ;;
    Ok (max_avg_gain c, (threshold c <? d)%float).
End Calibration.

(** Line 108: a rounded product with the double 0.7, then [<=]. *)
Definition retains_high (series : list float) : result bool :=
  m <- np_max series ;;
  last <- getitem series (-1) ;;
  Ok (m * GARBAGE_FILTER_THRESHOLD <=? last)%float.

(** Lines 107-109, over the items of the dictionary. *)
Fixpoint garbage_loop (items : list (string * list float))
    (res : gmap string (list float)) : result (gmap string (list float)) :=
  match items with
  | [] => Ok res
  | (ticker, series) :: rest =>
      keep <- retains_high series ;;
      garbage_loop rest (if keep then <[ticker := series]> res else res)
  end.

Definition filter_garbage_series (all_series : gmap string (list float))
    : result (gmap string (list float)) :=
  garbage_loop (map_to_list all_series) ∅.

(** A mean for the examples: the values added in order from 0, the sum
    divided by their number. *)
Definition mean_in_order (l : list float) : float :=
  (fold_left PrimFloat.add l 0
   / PrimFloat.of_uint63 (Uint63.of_Z (len l)))%float.

(** No value of the series is NaN. *)
Definition no_nan (series : list float) : Prop :=
  Forall (fun p => PrimFloat.is_nan p = false) series.

(** A price: a positive finite double. *)
Definition is_price (p : float) : bool :=
  (0 <? p)%float && (p <? infinity)%float.

(** The order of the doubles that are not NaN, read off their sign,
    exponent and mantissa: [<] on doubles is the lexicographic order of
    these keys, the two zeros sharing one key. *)
Definition order_key (x : SpecFloat.spec_float) : Z * Z * Z :=
  match x with
  | SpecFloat.S754_zero _ => (0, 0, 0)
  | SpecFloat.S754_infinity s => (if s then -2 else 2, 0, 0)
  | SpecFloat.S754_nan => (0, 0, 0)
  | SpecFloat.S754_finite s m e =>
      if s then (-1, - e, Zneg m) else (1, e, Zpos m)
  end.

Definition key_lt (p q : Z * Z * Z) : Prop :=
  let '(a1, b1, c1) := p in
  let '(a2, b2, c2) := q in
  a1 < a2 \/ (a1 = a2 /\ (b1 < b2 \/ (b1 = b2 /\ c1 < c2))).

Definition float_key (x : float) : Z * Z * Z :=
  order_key (FloatOps.Prim2SF x).
End Binary64.

(** A service that answers every request with a page that is not [ok] and
    does not hold the volume. *)
Definition service_down (url : string) (attempt : nat) : result response :=
  Ok {| ok := false; content := "b'Service Unavailable'" |}.

(** A service whose page for every ticker holds the volume 25000. *)
Definition service_quote (url : string) (attempt : nat) : result response :=
  Ok {| ok := true;
        content := "b'{regularMarketVolume:{raw:25000,fmt:25,000}}'" |}.

(** Series for three tickers, [NEW] with a shorter one, and no series for
    any other ticker. *)
Definition sample_series (ticker time : string) : result (list Q) :=
  if String.eqb ticker "AAPL" then Ok (map inject_Z [1; 2; 3])
  else if String.eqb ticker "MSFT" then Ok (map inject_Z [4; 5; 6])
  else if String.eqb ticker "NEW" then Ok (map inject_Z [7])
  else Raise RequestException.

(** Prices given as whole numbers, for the examples. *)
Definition qs (l : list Z) : list Q := map inject_Z l.

(** * Properties *)

(** ** The result monad and Python sequences *)

Lemma bind_Ok {A B} (m : result A) (k : A -> result B) (b : B) :
  bind m k = Ok b -> exists a, m = Ok a /\ k a = Ok b.
Proof. destruct m as [a | e]; simpl; [eauto | discriminate]. Qed.

Lemma bind_Raise {A B} (m : result A) (k : A -> result B) (e : exn) :
  m = Raise e -> bind m k = Raise e.
Proof. intros ->. reflexivity. Qed.

Lemma len_nonneg {A} (l : list A) : 0 <= len l.
Proof. unfold len. lia. Qed.

Lemma len_cons {A} (x : A) (l : list A) : len (x :: l) = len l + 1.
Proof. unfold len. simpl length. lia. Qed.

Lemma getitem_nonneg {A} (l : list A) (i : Z) :
  0 <= i ->
  getitem l i = match nth_error l (Z.to_nat i) with
                | Some x => Ok x
                | None => Raise IndexError
                end.
Proof.
  intros Hi. unfold getitem.
  destruct (Z.ltb_spec i 0); [lia |].
  destruct (Z.ltb_spec i 0); [lia | reflexivity].
Qed.

Lemma getitem_in_range {A} (l : list A) (i : Z) :
  0 <= i < len l ->
  exists x, getitem l i = Ok x /\ nth_error l (Z.to_nat i) = Some x.
Proof.
  intros [Hi Hlen]. rewrite getitem_nonneg by assumption.
  destruct (nth_error l (Z.to_nat i)) as [x |] eqn:Hnth; [eauto |].
  apply nth_error_None in Hnth. unfold len in Hlen. lia.
Qed.

Lemma getitem_Ok_nonneg {A} (l : list A) (i : Z) (x : A) :
  0 <= i -> getitem l i = Ok x ->
  nth_error l (Z.to_nat i) = Some x /\ i < len l.
Proof.
  intros Hi. rewrite getitem_nonneg by assumption.
  destruct (nth_error l (Z.to_nat i)) as [y |] eqn:Hnth; [| discriminate].
  intros [= ->]. split; [reflexivity |].
  assert (Z.to_nat i < length l)%nat by (apply nth_error_Some; congruence).
  unfold len. lia.
Qed.

Lemma getitem_nil {A} (i : Z) : getitem (@nil A) i = Raise IndexError.
Proof.
  unfold getitem. destruct (_ <? 0); [reflexivity |].
  destruct (Z.to_nat _); reflexivity.
Qed.

(** [l[-1]] is the last element of a list that has one. *)
Lemma getitem_last {A} (l : list A) :
  l <> [] ->
  exists x, getitem l (-1) = Ok x /\
            nth_error l (length l - 1) = Some x /\ In x l.
Proof.
  intros Hne.
  assert (Hlen : (0 < length l)%nat) by (destruct l; [congruence | simpl; lia]).
  unfold getitem, len. change (-1 <? 0) with true. cbv beta iota zeta.
  destruct (Z.ltb_spec (-1 + Z.of_nat (length l)) 0); [lia |].
  replace (Z.to_nat (-1 + Z.of_nat (length l))) with (length l - 1)%nat by lia.
  destruct (nth_error l (length l - 1)) as [x |] eqn:Hnth.
  - exists x. split; [reflexivity |]. split; [reflexivity |].
    eapply nth_error_In; eassumption.
  - apply nth_error_None in Hnth. lia.
Qed.

Lemma mapM_Ok_length {A B} (f : A -> result B) (l : list A) (l' : list B) :
  mapM f l = Ok l' -> length l' = length l.
Proof.
  revert l'. induction l as [| x l IH]; simpl; intros l' H.
  - injection H as <-. reflexivity.
  - apply bind_Ok in H as (y & _ & H).
    apply bind_Ok in H as (ys & Hys & H).
    injection H as <-. simpl. f_equal. auto.
Qed.

Lemma mapM_Ok_In {A B} (f : A -> result B) (l : list A) (l' : list B) (y : B) :
  mapM f l = Ok l' -> In y l' -> exists x, In x l /\ f x = Ok y.
Proof.
  revert l'. induction l as [| x l IH]; simpl; intros l' H Hin.
  - injection H as <-. destruct Hin.
  - apply bind_Ok in H as (y0 & Hy0 & H).
    apply bind_Ok in H as (ys & Hys & H).
    injection H as <-. destruct Hin as [<- | Hin].
    + eauto.
    + destruct (IH _ Hys Hin) as (x' & ? & ?). eauto.
Qed.

Lemma mapM_total {A B} (f : A -> result B) (l : list A) :
  (forall x, In x l -> exists y, f x = Ok y) ->
  exists l', mapM f l = Ok l'.
Proof.
  induction l as [| x l IH]; simpl; intros H.
  - eauto.
  - destruct (H x) as (y & ->); [auto |].
    destruct IH as (ys & ->); [auto |]. simpl. eauto.
Qed.

Lemma filterM_Ok_In {A} (p : A -> result bool) (l l' : list A) (x : A) :
  filterM p l = Ok l' -> In x l' -> In x l /\ p x = Ok true.
Proof.
  revert l'. induction l as [| a l IH]; simpl; intros l' H Hin.
  - injection H as <-. destruct Hin.
  - apply bind_Ok in H as (b & Hb & H).
    apply bind_Ok in H as (ys & Hys & H).
    injection H as <-. destruct b.
    + destruct Hin as [<- | Hin]; [auto |].
      destruct (IH _ Hys Hin). auto.
    + destruct (IH _ Hys Hin). auto.
Qed.

Lemma filterM_total {A} (p : A -> result bool) (l : list A) :
  (forall x, In x l -> exists b, p x = Ok b) ->
  exists l', filterM p l = Ok l'.
Proof.
  induction l as [| x l IH]; simpl; intros H.
  - eauto.
  - destruct (H x) as (b & ->); [auto |].
    destruct IH as (ys & ->); [auto |]. simpl. eauto.
Qed.

(** A comprehension whose condition holds nowhere is empty. *)
Lemma filterM_none {A} (p : A -> result bool) (l : list A) :
  (forall x, In x l -> p x = Ok false) -> filterM p l = Ok [].
Proof.
  induction l as [| x l IH]; simpl; intros H; [reflexivity |].
  rewrite (H x) by auto. simpl. rewrite IH by auto. reflexivity.
Qed.

Lemma In_range (lo hi i : Z) : In i (range lo hi) <-> lo <= i < hi.
Proof.
  unfold range. rewrite in_map_iff. split.
  - intros (k & <- & Hk). apply in_seq in Hk. lia.
  - intros H. exists (Z.to_nat (i - lo)). split; [lia |].
    apply in_seq. lia.
Qed.

Lemma range_empty (lo hi : Z) : hi <= lo -> range lo hi = [].
Proof.
  intros H. unfold range. replace (Z.to_nat (hi - lo)) with 0%nat by lia.
  reflexivity.
Qed.

Lemma In_slice {A} (l : list A) (lo hi : Z) (x : A) :
  In x (slice l lo hi) -> In x l.
Proof.
  unfold slice. intros H.
  apply In_nth_error in H as (k & Hk).
  rewrite nth_error_firstn in Hk.
  destruct (Nat.ltb k _); [| discriminate].
  rewrite nth_error_skipn in Hk.
  eapply nth_error_In; eassumption.
Qed.

(** Inside the list a slice reads the positions from [lo] on. *)
Lemma slice_nth_error {A} (l : list A) (lo hi : Z) (k : nat) :
  0 <= lo -> lo <= hi <= len l -> (k < Z.to_nat (hi - lo))%nat ->
  nth_error (slice l lo hi) k = nth_error l (Z.to_nat lo + k).
Proof.
  intros Hlo Hhi Hk. unfold slice, clamp.
  destruct (Z.ltb_spec lo 0); [lia |].
  destruct (Z.ltb_spec hi 0); [lia |].
  rewrite !Z.min_l by lia.
  rewrite nth_error_firstn.
  destruct (Nat.ltb_spec k (Z.to_nat (hi - lo))); [| lia].
  apply nth_error_skipn.
Qed.

Lemma Qlt_bool_iff (a b : Q) : Qlt_bool a b = true <-> (a < b)%Q.
Proof.
  unfold Qlt_bool. rewrite negb_true_iff. split.
  - intros H. apply Qnot_le_lt. intros Hle.
    apply Qle_bool_iff in Hle. congruence.
  - intros H. destruct (Qle_bool b a) eqn:E; [| reflexivity].
    apply Qle_bool_iff in E. exfalso. eapply Qlt_not_le; eassumption.
Qed.

Lemma Qlt_bool_false (a b : Q) : Qlt_bool a b = false <-> (b <= a)%Q.
Proof.
  unfold Qlt_bool. rewrite negb_false_iff. apply Qle_bool_iff.
Qed.

Lemma fold_Qmax_ge (l : list Q) (a : Q) :
  (a <= fold_left Qmax l a)%Q /\
  forall x, In x l -> (x <= fold_left Qmax l a)%Q.
Proof.
  revert a. induction l as [| y l IH]; simpl; intros a.
  - split; [apply Qle_refl | intros x []].
  - destruct (IH (Qmax a y)) as [Ha Hl]. split.
    + eapply Qle_trans; [apply Q.le_max_l | exact Ha].
    + intros x [<- | Hx]; [| auto].
      eapply Qle_trans; [apply Q.le_max_r | exact Ha].
Qed.

(** [np.max] of a non-empty array returns a bound of its elements. *)
Lemma np_max_ge (l : list Q) (x : Q) :
  In x l -> exists m, np_max l = Ok m /\ (x <= m)%Q.
Proof.
  destruct l as [| a l]; [intros [] |]. simpl np_max.
  destruct (fold_Qmax_ge l a) as [Ha Hl].
  intros [<- | Hx]; eauto.
Qed.

(** ** Sorting *)

Section SortingFacts.
Context {A : Type} (lt : A -> A -> bool).

Hypothesis lt_asym : forall a b, lt a b = true -> lt b a = false.

Lemma insert_sorted_perm (x : A) (l : list A) :
  Permutation (x :: l) (insert_sorted lt x l).
Proof.
  induction l as [| y l IH]; simpl; [reflexivity |].
  destruct (lt y x); [| reflexivity].
  rewrite perm_swap. apply perm_skip. exact IH.
Qed.

Lemma sort_asc_perm (l : list A) : Permutation l (sort_asc lt l).
Proof.
  induction l as [| x l IH]; simpl; [reflexivity |].
  rewrite <- insert_sorted_perm. apply perm_skip. exact IH.
Qed.

Lemma sort_reverse_perm (l : list A) : Permutation l (sort_reverse lt l).
Proof.
  unfold sort_reverse.
  rewrite <- Permutation_rev, <- sort_asc_perm. apply Permutation_rev.
Qed.

Lemma insert_sorted_asc (x : A) (l : list A) :
  Sorted (asc lt) l -> Sorted (asc lt) (insert_sorted lt x l).
Proof.
  induction 1 as [| y l Hs IH Hhd]; simpl.
  - repeat constructor.
  - destruct (lt y x) eqn:E.
    + constructor; [exact IH |].
      destruct l as [| z l]; simpl.
      * constructor. unfold asc. auto.
      * destruct (lt z x); constructor.
        -- inversion Hhd; assumption.
        -- unfold asc. auto.
    + constructor; [constructor; assumption |].
      constructor. exact E.
Qed.

Lemma sort_asc_sorted (l : list A) : Sorted (asc lt) (sort_asc lt l).
Proof.
  induction l as [| x l IH]; simpl; [constructor |].
  apply insert_sorted_asc. exact IH.
Qed.

Lemma Sorted_snoc (R : A -> A -> Prop) (l : list A) (x : A) :
  Sorted R l -> (forall y, In y (firstn 1 (rev l)) -> R y x) ->
  Sorted R (l ++ [x]).
Proof.
  induction 1 as [| y l Hs IH Hhd]; simpl; intros Hlast.
  - repeat constructor.
  - constructor.
    + apply IH. intros z Hz. apply Hlast.
      destruct l as [| y' l]; [destruct Hz |].
      simpl in Hz |- *.
      destruct (rev l ++ [y']) eqn:E.
      * destruct (rev l); discriminate.
      * simpl in Hz |- *. exact Hz.
    + destruct l as [| y' l]; simpl.
      * constructor. apply Hlast. simpl. auto.
      * constructor. inversion Hhd; assumption.
Qed.

Lemma Sorted_rev (R : A -> A -> Prop) (l : list A) :
  Sorted R l -> Sorted (fun a b => R b a) (rev l).
Proof.
  induction 1 as [| x l Hs IH Hhd]; simpl; [constructor |].
  apply Sorted_snoc; [exact IH |].
  intros y Hy. rewrite rev_involutive in Hy.
  destruct l as [| z l]; [destruct Hy |].
  simpl in Hy. destruct Hy as [<- | []].
  inversion Hhd; assumption.
Qed.

(** Sorting with [reverse=True] leaves no element before a greater one
    next to it. *)
Lemma sort_reverse_sorted (l : list A) : Sorted (desc lt) (sort_reverse lt l).
Proof.
  unfold sort_reverse.
  apply (Sorted_rev (asc lt)). apply sort_asc_sorted.
Qed.
End SortingFacts.

(** ** Doubles *)

Import SpecFloat FloatAxioms FloatOps.

Lemma SFcompare_refl (x : spec_float) :
  x <> S754_nan -> SFcompare x x = Some Eq.
Proof.
  destruct x as [s | s | | s m e]; simpl; try congruence; intros _.
  - destruct s; reflexivity.
  - rewrite Z.compare_refl, Pos.compare_cont_refl. destruct s; reflexivity.
Qed.

Lemma is_nan_spec (x : PrimFloat.float) :
  PrimFloat.is_nan x = true <-> Prim2SF x = S754_nan.
Proof.
  unfold PrimFloat.is_nan. rewrite eqb_spec. unfold SFeqb.
  destruct (Prim2SF x) as [s | s | | s m e] eqn:E.
  - simpl. split; discriminate.
  - simpl. destruct s; split; discriminate.
  - simpl. split; reflexivity.
  - rewrite SFcompare_refl by discriminate. simpl. split; discriminate.
Qed.

Lemma SFcompare_antisym (x y : spec_float) (c : comparison) :
  SFcompare x y = Some c -> SFcompare y x = Some (CompOpp c).
Proof.
  destruct x as [s1 | s1 | | s1 m1 e1], y as [s2 | s2 | | s2 m2 e2]; simpl;
    try discriminate;
    try (intros H; injection H as <-; try destruct s1; try destruct s2;
         reflexivity).
  intros H. injection H as <-. f_equal.
  assert (Hm : Pos.compare_cont Eq m2 m1
               = CompOpp (Pos.compare_cont Eq m1 m2)).
  { rewrite Pos.compare_cont_antisym. reflexivity. }
  rewrite (Z.compare_antisym e1 e2), Hm.
  destruct s1, s2; simpl; try reflexivity;
    destruct (e1 ?= e2); simpl; try reflexivity;
    destruct (Pos.compare_cont Eq m1 m2); reflexivity.
Qed.

Lemma SFcompare_None (x y : spec_float) :
  SFcompare x y = None -> x = S754_nan \/ y = S754_nan.
Proof.
  destruct x as [s1 | s1 | | s1 m1 e1], y as [s2 | s2 | | s2 m2 e2]; simpl;
    auto; discriminate.
Qed.

Lemma leb_false_ltb (x y : PrimFloat.float) :
  PrimFloat.is_nan x = false -> PrimFloat.is_nan y = false ->
  (x <=? y)%float = false -> (y <? x)%float = true.
Proof.
  intros Hx Hy. rewrite leb_spec, ltb_spec. unfold SFleb, SFltb.
  destruct (SFcompare (Prim2SF x) (Prim2SF y)) as [c |] eqn:E.
  - rewrite (SFcompare_antisym _ _ _ E). destruct c; simpl; congruence.
  - apply SFcompare_None in E. destruct E as [E | E]; apply is_nan_spec in E;
      congruence.
Qed.

Lemma ltb_leb_false (x y : PrimFloat.float) :
  (y <? x)%float = true -> (x <=? y)%float = false.
Proof.
  rewrite leb_spec, ltb_spec. unfold SFleb, SFltb.
  destruct (SFcompare (Prim2SF y) (Prim2SF x)) as [c |] eqn:E; [| discriminate].
  rewrite (SFcompare_antisym _ _ _ E). destruct c; simpl; congruence.
Qed.

(** rounding never gives NaN on a mantissa that is not negative *)
Lemma shr_1_nonneg (mrs : shr_record) :
  0 <= shr_m mrs -> 0 <= shr_m (shr_1 mrs).
Proof.
  destruct mrs as [m r s]. simpl. destruct m as [| p | p]; simpl; try lia.
  - destruct p; simpl; lia.
Qed.

Lemma iter_pos_invariant {A} (P : A -> Prop) (f : A -> A) :
  (forall x, P x -> P (f x)) ->
  forall (n : positive) (x : A), P x -> P (iter_pos f n x).
Proof.
  intros Hf. induction n as [n IH | n IH |]; intros x Hx; simpl; auto.
Qed.

Lemma shr_nonneg (mrs : shr_record) (e n : Z) :
  0 <= shr_m mrs -> 0 <= shr_m (fst (shr mrs e n)).
Proof.
  intros H. unfold shr. destruct n; simpl; try exact H.
  apply (iter_pos_invariant (fun mrs => 0 <= shr_m mrs)); [| exact H].
  apply shr_1_nonneg.
Qed.

Lemma shr_record_of_loc_m (m : Z) (l : location) :
  shr_m (shr_record_of_loc m l) = m.
Proof. destruct l as [| []]; reflexivity. Qed.

Lemma binary_round_aux_not_nan (prec emax : Z) (sx : bool) (mx ex : Z)
    (lx : location) :
  0 <= mx -> binary_round_aux prec emax sx mx ex lx <> S754_nan.
Proof.
  intros Hmx. unfold binary_round_aux, shr_fexp.
  destruct (shr (shr_record_of_loc mx lx) ex _) as [mrs' e'] eqn:E1.
  assert (H1 : 0 <= shr_m mrs').
  { change mrs' with (fst (mrs', e')). rewrite <- E1. apply shr_nonneg.
    rewrite shr_record_of_loc_m. exact Hmx. }
  set (m1 := round_nearest_even (shr_m mrs') (loc_of_shr_record mrs')).
  assert (H2 : 0 <= m1).
  { unfold m1, round_nearest_even.
    destruct (loc_of_shr_record mrs') as [| []]; try lia.
    destruct (Z.even (shr_m mrs')); lia. }
  destruct (shr (shr_record_of_loc m1 loc_Exact) e' _) as [mrs'' e''] eqn:E2.
  assert (H3 : 0 <= shr_m mrs'').
  { change mrs'' with (fst (mrs'', e'')). rewrite <- E2. apply shr_nonneg.
    rewrite shr_record_of_loc_m. exact H2. }
  destruct (shr_m mrs'') as [| p | p]; try discriminate; try lia.
  destruct (e'' <=? emax - prec); discriminate.
Qed.

Lemma mul_not_nan (x c : PrimFloat.float) (s : bool) (m : positive) (e : Z) :
  Prim2SF c = S754_finite s m e ->
  PrimFloat.is_nan x = false -> PrimFloat.is_nan (x * c)%float = false.
Proof.
  intros Hc Hx. apply not_true_is_false. intros H.
  apply is_nan_spec in H. rewrite mul_spec, Hc in H.
  assert (Hx' : Prim2SF x <> S754_nan).
  { intros E. apply is_nan_spec in E. congruence. }
  unfold SF64mul, SFmul in H.
  destruct (Prim2SF x) as [sx | sx | | sx mx ex]; try discriminate;
    try congruence.
  revert H. apply binary_round_aux_not_nan. lia.
Qed.

(** *** The order of doubles *)

Lemma SFcompare_key (x y : spec_float) :
  x <> S754_nan -> y <> S754_nan ->
  (SFcompare x y = Some Lt <-> Binary64.key_lt (Binary64.order_key x) (Binary64.order_key y)) /\
  (SFcompare x y = Some Eq <-> Binary64.order_key x = Binary64.order_key y) /\
  (SFcompare x y = Some Gt <-> Binary64.key_lt (Binary64.order_key y) (Binary64.order_key x)).
Proof.
  intros Hx Hy.
  destruct x as [s1 | s1 | | s1 m1 e1], y as [s2 | s2 | | s2 m2 e2];
    try congruence; clear Hx Hy;
    try (destruct s1); try (destruct s2); simpl;
    try (repeat split; intros H; try discriminate H; try reflexivity;
         try lia; try (injection H; lia); fail).
  - (* both negative *)
    change (Pos.compare_cont Eq m1 m2) with (Pos.compare m1 m2).
    destruct (Z.compare_spec e1 e2) as [-> | He | He];
      [destruct (Pos.compare_spec m1 m2) as [-> | Hm | Hm] |..]; simpl;
      repeat split; intros H; try discriminate H; try reflexivity;
      try lia; try (injection H; lia).
  - change (Pos.compare_cont Eq m1 m2) with (Pos.compare m1 m2).
    destruct (Z.compare_spec e1 e2) as [-> | He | He];
      [destruct (Pos.compare_spec m1 m2) as [-> | Hm | Hm] |..]; simpl;
      repeat split; intros H; try discriminate H; try reflexivity;
      try lia; try (injection H; lia).
Qed.

Lemma not_nan_spec (x : float) :
  is_nan x = false <-> Prim2SF x <> S754_nan.
Proof.
  rewrite <- is_nan_spec. destruct (is_nan x); split; congruence.
Qed.

Lemma ltb_not_nan (x y : float) :
  (x <? y)%float = true -> is_nan x = false /\ is_nan y = false.
Proof.
  rewrite ltb_spec, !not_nan_spec. unfold SFltb.
  destruct (Prim2SF x), (Prim2SF y); simpl; try discriminate;
    intros _; split; discriminate.
Qed.

Lemma ltb_key (x y : float) :
  is_nan x = false -> is_nan y = false ->
  ((x <? y)%float = true <-> Binary64.key_lt (Binary64.float_key x) (Binary64.float_key y)).
Proof.
  rewrite !not_nan_spec. intros Hx Hy.
  destruct (SFcompare_key _ _ Hx Hy) as (Hlt & _ & _).
  rewrite ltb_spec, <- Hlt. unfold SFltb.
  destruct (SFcompare (Prim2SF x) (Prim2SF y)) as [[] |]; split; congruence.
Qed.

Lemma key_lt_trans (p q r : Z * Z * Z) :
  Binary64.key_lt p q -> Binary64.key_lt q r -> Binary64.key_lt p r.
Proof. destruct p as [[? ?] ?], q as [[? ?] ?], r as [[? ?] ?]; simpl; lia. Qed.

Lemma key_lt_irrefl (p : Z * Z * Z) : ~ Binary64.key_lt p p.
Proof. destruct p as [[? ?] ?]; simpl; lia. Qed.

Lemma key_not_lt_trans (p q r : Z * Z * Z) :
  ~ Binary64.key_lt p q -> ~ Binary64.key_lt q r -> ~ Binary64.key_lt p r.
Proof. destruct p as [[? ?] ?], q as [[? ?] ?], r as [[? ?] ?]; simpl; lia. Qed.

Lemma key_lt_not_lt (p q r : Z * Z * Z) :
  ~ Binary64.key_lt p q -> Binary64.key_lt p r -> ~ Binary64.key_lt r q.
Proof. destruct p as [[? ?] ?], q as [[? ?] ?], r as [[? ?] ?]; simpl; lia. Qed.

Lemma ltb_false_key (x y : float) :
  is_nan x = false -> is_nan y = false ->
  ((x <? y)%float = false <-> ~ Binary64.key_lt (Binary64.float_key x) (Binary64.float_key y)).
Proof.
  intros Hx Hy. rewrite <- (ltb_key x y Hx Hy).
  destruct (x <? y)%float; split; congruence.
Qed.

Lemma ltb_nan_r (x y : float) : is_nan y = true -> (x <? y)%float = false.
Proof.
  intros H. destruct (x <? y)%float eqn:E; [| reflexivity].
  apply ltb_not_nan in E. destruct E. congruence.
Qed.

Lemma ltb_irrefl (x : float) : (x <? x)%float = false.
Proof.
  destruct (x <? x)%float eqn:E; [| reflexivity].
  destruct (ltb_not_nan _ _ E) as [Hx _].
  apply (ltb_key x x Hx Hx) in E. destruct (key_lt_irrefl _ E).
Qed.

Lemma ltb_asym (x y : float) :
  (x <? y)%float = true -> (y <? x)%float = false.
Proof.
  intros E. destruct (ltb_not_nan _ _ E) as [Hx Hy].
  apply (ltb_false_key y x Hy Hx). apply (ltb_key x y Hx Hy) in E.
  intros H. apply (key_lt_irrefl _ (key_lt_trans _ _ _ E H)).
Qed.

Lemma ltb_trans (x y z : float) :
  (x <? y)%float = true -> (y <? z)%float = true -> (x <? z)%float = true.
Proof.
  intros E1 E2. destruct (ltb_not_nan _ _ E1) as [Hx Hy].
  destruct (ltb_not_nan _ _ E2) as [_ Hz].
  apply (ltb_key x z Hx Hz). apply (ltb_key x y Hx Hy) in E1.
  apply (ltb_key y z Hy Hz) in E2. eapply key_lt_trans; eassumption.
Qed.

(** [y <= x] and [z <= y] give [z <= x], when none is NaN. *)
Lemma ltb_false_trans (x y z : float) :
  is_nan x = false -> is_nan y = false -> is_nan z = false ->
  (x <? y)%float = false -> (y <? z)%float = false -> (x <? z)%float = false.
Proof.
  intros Hx Hy Hz E1 E2. apply (ltb_false_key x z Hx Hz).
  apply (ltb_false_key x y Hx Hy) in E1. apply (ltb_false_key y z Hy Hz) in E2.
  eapply key_not_lt_trans; eassumption.
Qed.

(** A value that does not beat the maximum does not beat a greater one. *)
Lemma ltb_false_raise (m m' a : float) :
  (m <? a)%float = false -> (m <? m')%float = true ->
  (m' <? a)%float = false.
Proof.
  intros E1 E2. destruct (ltb_not_nan _ _ E2) as [Hm Hm'].
  destruct (is_nan a) eqn:Ha; [apply ltb_nan_r; exact Ha |].
  apply (ltb_false_key m' a Hm' Ha). apply (ltb_false_key m a Hm Ha) in E1.
  apply (ltb_key m m' Hm Hm') in E2. eapply key_lt_not_lt; eassumption.
Qed.

(** [np.max] returns one of the values it is given. *)
Lemma np_max_step_cases (held next : float) :
  Binary64.np_max_step held next = held \/
  Binary64.np_max_step held next = next.
Proof.
  unfold Binary64.np_max_step.
  destruct ((next <=? held)%float || is_nan held); auto.
Qed.

Lemma fold_np_max_step_In (l : list float) (a : float) :
  fold_left Binary64.np_max_step l a = a \/
  In (fold_left Binary64.np_max_step l a) l.
Proof.
  revert a. induction l as [| y l IH]; simpl; intros a; [auto |].
  destruct (IH (Binary64.np_max_step a y)) as [H | H]; [| auto].
  rewrite H. destruct (np_max_step_cases a y) as [-> | ->]; auto.
Qed.

Lemma np_max_In_binary64 (l : list float) (m : float) :
  Binary64.np_max l = Ok m -> In m l.
Proof.
  destruct l as [| a l]; [discriminate |]. simpl. intros [= <-].
  destruct (fold_np_max_step_In l a) as [-> | H]; auto.
Qed.

Lemma np_max_total_binary64 (l : list float) :
  l <> [] -> exists m, Binary64.np_max l = Ok m.
Proof. destruct l; [congruence | simpl; eauto]. Qed.

(** The last value of a series is in its trailing window. *)
Lemma trailing_window_nonempty {A} (series : list A) :
  series <> [] -> slice_from series (- DATE_RANGE) <> [].
Proof.
  intros Hne.
  destruct (getitem_last series Hne) as (x & _ & Hnth & _).
  assert (Hlen : (0 < length series)%nat).
  { destruct series; [congruence | simpl; lia]. }
  assert (Hin : In x (slice_from series (- DATE_RANGE))).
  { unfold slice_from, slice, clamp, DATE_RANGE.
    change (- (5) <? 0) with true. cbv beta iota.
    destruct (Z.ltb_spec (len series) 0) as [Hneg | _].
    { pose proof (len_nonneg series). lia. }
    rewrite Z.min_id.
    match goal with
    | |- context [Z.max ?u 0] => set (a := Z.max u 0)
    end.
    assert (Ha : 0 <= a < len series) by (unfold a, len; lia).
    apply nth_error_In with (n := (length series - 1 - Z.to_nat a)%nat).
    rewrite nth_error_firstn.
    destruct (Nat.ltb_spec (length series - 1 - Z.to_nat a)
                (Z.to_nat (len series - a))) as [_ | Hge].
    - rewrite nth_error_skipn.
      replace (Z.to_nat a + (length series - 1 - Z.to_nat a))%nat
        with (length series - 1)%nat by (unfold len in Ha; lia).
      exact Hnth.
    - unfold len in *. lia. }
  intros E. rewrite E in Hin. destruct Hin.
Qed.

(** ** The dip events of a series *)

(** Line 39 never raises, and keeps dip events only. *)
Lemma down_t_spec (series : list Q) :
  exists dt, down_t series = Ok dt /\ Forall (dip_event series) dt.
Proof.
  unfold down_t.
  set (p := fun i : Z => a <- getitem series i ;;
                         b <- getitem series (i + 1) ;; Ok (Qle_bool b a)).
  destruct (filterM_total p (range (DATE_RANGE - 1) (len series - 1)))
    as (days & Hdays).
  { intros i Hi. apply In_range in Hi. unfold DATE_RANGE in Hi. unfold p.
    destruct (getitem_in_range series i) as (a & -> & _); [lia |].
    destruct (getitem_in_range series (i + 1)) as (b & -> & _); [lia |].
    simpl. eauto. }
  rewrite Hdays. simpl. eexists. split; [reflexivity |].
  apply List.Forall_forall. intros t Ht.
  apply in_map_iff in Ht as (i & <- & Hi).
  destruct (filterM_Ok_In _ _ _ _ Hdays Hi) as [Hr Hp].
  apply In_range in Hr. unfold DATE_RANGE in *. unfold p in Hp.
  apply bind_Ok in Hp as (a & Ha & Hp).
  apply bind_Ok in Hp as (b & Hb & Hp).
  injection Hp as Hp. apply Qle_bool_iff in Hp.
  unfold dip_event, DATE_RANGE. split; [lia |]. exists a, b.
  replace (i + 1 - 1) with i by lia. auto.
Qed.

(** The depth of a dip event is computed without raising, from a window
    maximum that is at least the price of the day before. *)
Lemma depth_at_event (series : list Q) (t : Z) :
  dip_event series t ->
  exists m b,
    np_max (slice series (t - DATE_RANGE) t) = Ok m /\
    getitem series t = Ok b /\ In b series /\ (b <= m)%Q /\
    depth_at series t = Ok ((m - b) / m)%Q.
Proof.
  intros (Ht & a & b & Ha & Hb & Hba). unfold DATE_RANGE in Ht.
  apply getitem_Ok_nonneg in Ha as [Ha _]; [| lia].
  assert (Hin : In a (slice series (t - DATE_RANGE) t)).
  { apply nth_error_In with (n := 4%nat). unfold DATE_RANGE.
    rewrite slice_nth_error by lia.
    replace (Z.to_nat (t - 5) + 4)%nat with (Z.to_nat (t - 1)) by lia.
    exact Ha. }
  destruct (np_max_ge _ _ Hin) as (m & Hm & Ham).
  exists m, b. split; [assumption |]. split; [assumption |].
  split.
  { apply getitem_Ok_nonneg in Hb as [Hb _]; [| lia].
    eapply nth_error_In; eassumption. }
  split; [lra |].
  unfold depth_at. rewrite Hm, Hb. reflexivity.
Qed.

(** The depth of a dip event of a series of positive prices. *)
Lemma depth_at_bounds (series : list Q) (t : Z) :
  Forall (fun p => 0 < p)%Q series -> dip_event series t ->
  exists d, depth_at series t = Ok d /\ (0 <= d)%Q /\ (d < 1)%Q.
Proof.
  intros Hpos Hev.
  destruct (depth_at_event series t Hev) as (m & b & _ & _ & Hin & Hbm & Hd).
  rewrite List.Forall_forall in Hpos.
  assert (Hb0 : (0 < b)%Q) by auto.
  assert (Hm0 : (0 < m)%Q) by lra.
  eexists. split; [exact Hd |]. split.
  - apply Qle_shift_div_l; [assumption | lra].
  - apply Qlt_shift_div_r; [assumption | lra].
Qed.

(** C7, as the code has it. In exact arithmetic, for every series of
    positive prices, line 39 returns the dip events and line 40 returns a
    depth for each of them, and every depth lies in the interval [0, 1). *)
Theorem dip_depth_in_unit_interval (series : list Q) :
  Forall (fun p => 0 < p)%Q series ->
  exists dt dp,
    down_t series = Ok dt /\ down_percent series dt = Ok dp /\
    length dp = length dt /\
    Forall (fun d => 0 <= d /\ d < 1)%Q dp.
Proof.
  intros Hpos.
  destruct (down_t_spec series) as (dt & Hdt & Hev).
  rewrite List.Forall_forall in Hev.
  destruct (mapM_total (depth_at series) dt) as (dp & Hdp).
  { intros t Ht. destruct (depth_at_bounds series t Hpos (Hev t Ht))
      as (d & Hd & _). eauto. }
  exists dt, dp. split; [assumption |]. split; [assumption |].
  split; [eapply mapM_Ok_length; eassumption |].
  apply List.Forall_forall. intros d Hd.
  destruct (mapM_Ok_In _ _ _ _ Hdp Hd) as (t & Ht & Hdt').
  destruct (depth_at_bounds series t Hpos (Hev t Ht)) as (d' & Hd' & Hb).
  rewrite Hdt' in Hd'. injection Hd' as <-. exact Hb.
Qed.

Lemma dip_depth_in_unit_interval_witness :
  exists dt dp,
    down_t (qs [100; 95; 90; 99; 85; 110; 104; 104]) = Ok dt /\
    down_percent (qs [100; 95; 90; 99; 85; 110; 104; 104]) dt = Ok dp /\
    length dp = length dt /\
    Forall (fun d => 0 <= d /\ d < 1)%Q dp.
Proof.
  apply (dip_depth_in_unit_interval (qs [100; 95; 90; 99; 85; 110; 104; 104])).
  repeat constructor.
Defined.

(** C7, as the claim states it, fails on doubles. Line 40 rounds the
    difference and then the quotient. On the positive prices 1e17 (five
    times) and then 1.0, day 5 is a dip event; the difference 1e17 - 1.0
    rounds to 1e17, and the depth is the double 1.0, which is outside
    [0, 1). *)
Lemma depth_rounds_to_one_counterexample :
  let series := [1e17; 1e17; 1e17; 1e17; 1e17; 1]%float in
  Forall (fun p => (0 <? p)%float = true) series /\
  Binary64.down_t series = Ok [5] /\
  (1e17 - 1 = 1e17)%float /\
  Binary64.down_percent series [5] = Ok [1%float] /\
  (1 <? 1)%float = false.
Proof.
  cbv zeta. split; [repeat constructor |].
  repeat split; vm_compute; reflexivity.
Qed.

(** ** Fewer than two dip events *)

Lemma Sorted_Qlt_adjacent (l : list Q) (i : nat) (a b : Q) :
  Sorted Qlt l -> nth_error l i = Some a -> nth_error l (S i) = Some b ->
  (a < b)%Q.
Proof.
  intros Hs. revert i. induction Hs as [| x l Hs IH Hhd]; intros i Ha Hb.
  - destruct i; discriminate.
  - destruct i as [| i].
    + simpl in Ha, Hb. injection Ha as <-.
      destruct l as [| y l]; [discriminate |]. simpl in Hb.
      injection Hb as <-. inversion Hhd; assumption.
    + simpl in Ha. change (nth_error l (S i) = Some b) in Hb. eauto.
Qed.

(** A strictly increasing series has no dip event. *)
Lemma increasing_no_event (series : list Q) :
  Sorted Qlt series -> down_t series = Ok [].
Proof.
  intros Hs. unfold down_t. rewrite filterM_none; [reflexivity |].
  intros i Hi. apply In_range in Hi. unfold DATE_RANGE in Hi.
  destruct (getitem_in_range series i) as (a & -> & Ha); [lia |].
  destruct (getitem_in_range series (i + 1)) as (b & -> & Hb); [lia |].
  simpl. f_equal.
  replace (Z.to_nat (i + 1)) with (S (Z.to_nat i)) in Hb by lia.
  pose proof (Sorted_Qlt_adjacent _ _ _ _ Hs Ha Hb) as Hlt.
  destruct (Qle_bool b a) eqn:E; [| reflexivity].
  apply Qle_bool_iff in E. lra.
Qed.

Lemma no_event_IndexError (series : list Q) :
  down_t series = Ok [] -> get_picked_points series = Raise IndexError.
Proof. intros H. unfold get_picked_points. rewrite H. reflexivity. Qed.

(** With one dip event the loop of line 45 has no candidate: the pick set
    is empty, the average is the initial [float_min], and the threshold is
    the depth of the event. *)
Lemma one_event_returns (series : list Q) (t : Z) :
  down_t series = Ok [t] ->
  exists d,
    depth_at series t = Ok d /\
    get_picked_points series =
      Ok {| pick_t := []; max_avg_gain := float_min; threshold := d |}.
Proof.
  intros H.
  destruct (down_t_spec series) as (dt & Hdt & Hev).
  rewrite H in Hdt. injection Hdt as <-.
  apply Forall_inv in Hev.
  destruct (depth_at_event series t Hev) as (m & b & _ & _ & _ & _ & Hd).
  eexists. split; [exact Hd |].
  unfold get_picked_points, down_percent. rewrite H. simpl.
  rewrite Hd. reflexivity.
Qed.

(** C4, as the code has it. A series with fewer than two dip events makes
    [get_picked_points] raise [IndexError] when it has no dip event, which
    is the case of every strictly increasing series, and return without
    raising when it has one. *)
Theorem few_events_outcome (series : list Q) :
  (forall dt, down_t series = Ok dt -> (length dt < 2)%nat ->
     (dt = [] /\ get_picked_points series = Raise IndexError) \/
     (exists t c, dt = [t] /\ get_picked_points series = Ok c))
  /\ (Sorted Qlt series ->
      down_t series = Ok [] /\ get_picked_points series = Raise IndexError).
Proof.
  split.
  - intros dt Hdt Hlen. destruct dt as [| t [| t' dt]].
    + left. split; [reflexivity |]. apply no_event_IndexError. assumption.
    + right. destruct (one_event_returns series t Hdt) as (d & Hd & Hg).
      eauto.
    + simpl in Hlen. lia.
  - intros Hs. pose proof (increasing_no_event series Hs) as Hdt.
    split; [assumption |]. apply no_event_IndexError. assumption.
Qed.

Lemma few_events_outcome_witness :
  (down_t (qs [1; 2; 3; 4; 5; 6; 7]) = Ok [] /\
   get_picked_points (qs [1; 2; 3; 4; 5; 6; 7]) = Raise IndexError) /\
  exists c, get_picked_points (qs [1; 2; 3; 4; 5; 6; 5; 7]) = Ok c.
Proof.
  split.
  - apply (proj2 (few_events_outcome (qs [1; 2; 3; 4; 5; 6; 7]))).
    repeat constructor.
  - destruct (proj1 (few_events_outcome (qs [1; 2; 3; 4; 5; 6; 5; 7]))
                [6] eq_refl)
      as [[Hnil _] | (t & c & _ & Hg)].
    + simpl. lia.
    + discriminate Hnil.
    + exists c. exact Hg.
Defined.

(** C4, as the claim states it, fails: a strictly increasing series has no
    dip event and [get_picked_points] raises the built-in [IndexError], not
    an error named [DegenerateCalibrationError]; a series with one dip event
    raises nothing; and a constant series, which is monotonically
    non-decreasing, has dip events. *)
Lemma degenerate_error_counterexample :
  (down_t (qs [1; 2; 3; 4; 5; 6; 7]) = Ok [] /\
   get_picked_points (qs [1; 2; 3; 4; 5; 6; 7]) = Raise IndexError /\
   exn_name IndexError <> "DegenerateCalibrationError") /\
  (down_t (qs [1; 2; 3; 4; 5; 6; 5; 7]) = Ok [6] /\
   exists c, get_picked_points (qs [1; 2; 3; 4; 5; 6; 5; 7]) = Ok c /\
             pick_t c = [] /\ max_avg_gain c = float_min /\
             (threshold c == 1 # 6)%Q) /\
  down_t (qs [5; 5; 5; 5; 5; 5; 5]) = Ok [5; 6].
Proof.
  split; [| split].
  - split; [reflexivity |]. split; [reflexivity | discriminate].
  - split; [reflexivity |]. eexists. split; [vm_compute; reflexivity |].
    repeat split.
  - reflexivity.
Qed.

(** ** The scan over the ranked events *)

(** The loop of line 45 takes [n_point] from 1 to one less than the number
    of ranked events. *)
Lemma In_scan_range (pick_ti : list Z) (k : Z) :
  In k (scan_range pick_ti) <-> 1 <= k < len pick_ti.
Proof. unfold scan_range. apply In_range. Qed.

(** The full set of ranked events is never a candidate. *)
Lemma scan_range_not_all (pick_ti : list Z) :
  ~ In (len pick_ti) (scan_range pick_ti).
Proof. rewrite In_scan_range. lia. Qed.

(** C1 fails on the code. The series below has two dip events, on days 5
    and 8, ranked [8] then [5]. The loop of line 45 runs for [n_point = 1]
    only and ends with the counter still at 50; the result is the average
    1/80 of the deepest event alone, although the two events together
    average 9/160. *)
Theorem scan_stops_before_all_events :
  let series := qs [100; 100; 100; 100; 100; 90; 99; 100; 80; 81] in
  exists dp pick_ti st c gains2,
    down_t series = Ok [5; 8] /\
    down_percent series [5; 8] = Ok dp /\
    pick_order dp = Ok pick_ti /\ pick_ti = [1; 0] /\
    scan_range pick_ti = [1] /\
    scan series [5; 8] pick_ti (scan_range pick_ti) scan_init = Ok st /\
    st_tol st = 50 /\ st_n_pick st = 1 /\
    get_picked_points series = Ok c /\
    pick_t c = [8] /\ (max_avg_gain c == 1 # 80)%Q /\
    (threshold c == 2 # 10)%Q /\
    gains_top series [5; 8] pick_ti 2 = Ok gains2 /\
    (np_average gains2 == 9 # 160)%Q /\
    (max_avg_gain c < np_average gains2)%Q.
Proof.
  intros series. subst series.
  do 5 eexists.
  split; [vm_compute; reflexivity |].
  split; [vm_compute; reflexivity |].
  split; [vm_compute; reflexivity |].
  split; [reflexivity |].
  split; [reflexivity |].
  split; [vm_compute; reflexivity |].
  split; [reflexivity |].
  split; [reflexivity |].
  split; [vm_compute; reflexivity |].
  split; [reflexivity |].
  split; [reflexivity |].
  split; [reflexivity |].
  split; [vm_compute; reflexivity |].
  split; reflexivity.
Qed.

(** C3 fails on the code. The series below has two dip events, on days 5
    (depth 1/10) and 6 (depth 2/10), ranked [6] then [5]. Day 6 is the last
    day, so the only candidate of the loop, [n_point = 1], has no gain, and
    [n_pick] stays 0. The result has no picked event, the initial
    [float_min] for average, and for threshold the depth of the event
    ranked last. *)
Theorem no_candidate_result :
  let series := qs [10; 10; 10; 10; 10; 9; 8] in
  exists dp pick_ti st c,
    down_t series = Ok [5; 6] /\
    down_percent series [5; 6] = Ok dp /\
    Forall2 Qeq dp [1 # 10; 2 # 10]%Q /\
    pick_order dp = Ok pick_ti /\ pick_ti = [1; 0] /\
    scan_range pick_ti = [1] /\
    gains_top series [5; 6] pick_ti 1 = Ok [] /\
    scan series [5; 6] pick_ti (scan_range pick_ti) scan_init = Ok st /\
    st_n_pick st = 0 /\
    get_picked_points series = Ok c /\
    pick_t c = [] /\ max_avg_gain c = float_min /\
    (threshold c == 1 # 10)%Q.
Proof.
  intros series. subst series.
  do 4 eexists.
  split; [vm_compute; reflexivity |].
  split; [vm_compute; reflexivity |].
  split; [repeat constructor |].
  split; [vm_compute; reflexivity |].
  split; [reflexivity |].
  split; [reflexivity |].
  split; [vm_compute; reflexivity |].
  split; [vm_compute; reflexivity |].
  split; [reflexivity |].
  split; [vm_compute; reflexivity |].
  split; [reflexivity |].
  split; reflexivity.
Qed.

(** ** The result of the scan, when an event is picked *)

Lemma scan_update_spec (st : scan_state) (n_point : Z) (gains : list Q) :
  let st' := scan_update st n_point gains in
  (np_average gains <= st_max_avg_gain st')%Q /\
  (st_max_avg_gain st <= st_max_avg_gain st')%Q /\
  ((st_n_pick st' = st_n_pick st /\
    st_max_avg_gain st' = st_max_avg_gain st) \/
   (st_n_pick st' = n_point /\ st_max_avg_gain st' = np_average gains /\
    (st_max_avg_gain st < np_average gains)%Q)).
Proof.
  unfold scan_update.
  destruct (Qlt_bool (st_max_avg_gain st) (np_average gains)) eqn:E; simpl.
  - apply Qlt_bool_iff in E. split; [lra |]. split; [lra |]. right. auto.
  - apply Qlt_bool_false in E. split; [lra |]. split; [lra |]. left. auto.
Qed.

(** The loop of lines 45-56 evaluates a first part [visited] of its
    candidates: all of them, unless the counter reached zero. The average
    it ends with bounds the average of every candidate of [visited] that has
    a gain, and, unless no candidate beat the initial average, is the
    average of the candidate it ends with. *)
Lemma scan_spec (series : list Q) (dt pick_ti : list Z) (n_points : list Z)
    (st st' : scan_state) :
  scan series dt pick_ti n_points st = Ok st' ->
  exists visited rest,
    n_points = visited ++ rest /\
    (rest = [] \/ st_tol st' = 0) /\
    (forall k gains,
       In k visited -> gains_top series dt pick_ti k = Ok gains ->
       0 < len gains -> (np_average gains <= st_max_avg_gain st')%Q) /\
    (st_max_avg_gain st <= st_max_avg_gain st')%Q /\
    ((st_n_pick st' = st_n_pick st /\
      st_max_avg_gain st' = st_max_avg_gain st) \/
     (In (st_n_pick st') visited /\
      exists gains,
        gains_top series dt pick_ti (st_n_pick st') = Ok gains /\
        0 < len gains /\ st_max_avg_gain st' = np_average gains /\
        (st_max_avg_gain st < np_average gains)%Q)).
Proof.
  revert st. induction n_points as [| k ks IH]; simpl; intros st H.
  - injection H as <-. exists [], []. split; [reflexivity |].
    split; [left; reflexivity |].
    split; [intros k gains [] |]. split; [lra | left; auto].
  - apply bind_Ok in H as (gains & Hg & H).
    destruct (Z.ltb_spec 0 (len gains)) as [Hpos | Hempty].
    + destruct (scan_update_spec st k gains) as (Hb & Hmono & Hcase).
      set (st1 := scan_update st k gains) in *.
      assert (Hcase' :
        forall st2,
          (st_max_avg_gain st1 <= st_max_avg_gain st2)%Q ->
          (st_n_pick st2 = st_n_pick st1 /\
           st_max_avg_gain st2 = st_max_avg_gain st1) ->
          (st_n_pick st2 = st_n_pick st /\
           st_max_avg_gain st2 = st_max_avg_gain st) \/
          (st_n_pick st2 = k /\
           exists gains0,
             gains_top series dt pick_ti (st_n_pick st2) = Ok gains0 /\
             0 < len gains0 /\ st_max_avg_gain st2 = np_average gains0 /\
             (st_max_avg_gain st < np_average gains0)%Q)).
      { intros st2 _ [Hn Hm]. destruct Hcase as [[Hn1 Hm1] | (Hn1 & Hm1 & Hlt)].
        - left. split; congruence.
        - right. split; [congruence |]. exists gains.
          rewrite Hn, Hn1, Hm, Hm1. auto. }
      destruct (st_tol st1 =? 0) eqn:Etol.
      * injection H as <-. exists [k], ks. split; [reflexivity |].
        apply Z.eqb_eq in Etol. split; [right; exact Etol |].
        split.
        { intros k' gains' [<- | []] Hg' _.
          rewrite Hg in Hg'. injection Hg' as <-. exact Hb. }
        split; [exact Hmono |].
        destruct (Hcase' st1) as [Hl | (Hk & Hr)]; [lra | auto | auto |].
        right. split; [rewrite Hk; left; reflexivity | exact Hr].
      * destruct (IH st1 H)
          as (visited & rest & -> & Hrest & Hbound & Hmono' & Hcase2).
        exists (k :: visited), rest. split; [reflexivity |].
        split; [exact Hrest |].
        split.
        { intros k' gains' [<- | Hin] Hg' Hpos'.
          - rewrite Hg in Hg'. injection Hg' as <-. lra.
          - eapply Hbound; eassumption. }
        split; [lra |].
        destruct Hcase2 as [Hsame | (Hin & gains0 & Hg0 & Hp0 & Hm0 & Hlt0)].
        -- destruct (Hcase' st' Hmono' Hsame) as [Hl | (Hk & Hr)]; [auto |].
           right. split; [rewrite Hk; left; reflexivity | exact Hr].
        -- right. split; [right; assumption |].
           exists gains0. repeat split; try assumption. lra.
    + destruct (IH st H)
        as (visited & rest & -> & Hrest & Hbound & Hmono' & Hcase2).
      exists (k :: visited), rest. split; [reflexivity |].
      split; [exact Hrest |].
      split.
      { intros k' gains' [<- | Hin] Hg' Hpos'.
        - rewrite Hg in Hg'. injection Hg' as <-. lia.
        - eapply Hbound; eassumption. }
      split; [assumption |].
      destruct Hcase2 as [Hsame | (Hin & Hr)]; [left; assumption |].
      right. split; [right; assumption | exact Hr].
Qed.

Lemma mapM_combine {A B} (f : A -> result B) (l : list A) (l' : list B)
    (x : A) (y : B) :
  mapM f l = Ok l' -> In (y, x) (combine l' l) -> f x = Ok y.
Proof.
  revert l'. induction l as [| a l IH]; simpl; intros l' H Hin.
  - injection H as <-. destruct Hin.
  - apply bind_Ok in H as (b & Hb & H).
    apply bind_Ok in H as (bs & Hbs & H). injection H as <-.
    destruct Hin as [[= <- <-] | Hin]; [assumption | eauto].
Qed.

Lemma mapM_combine_snd {A B} (f : A -> result B) (l : list A) (l' : list B) :
  mapM f l = Ok l' -> map snd (combine l' l) = l.
Proof.
  revert l'. induction l as [| a l IH]; simpl; intros l' H.
  - injection H as <-. reflexivity.
  - apply bind_Ok in H as (b & Hb & H).
    apply bind_Ok in H as (bs & Hbs & H). injection H as <-.
    simpl. f_equal. auto.
Qed.

Lemma StronglySorted_nth_error {A} (R : A -> A -> Prop) (l : list A)
    (p q : nat) (a b : A) :
  StronglySorted R l -> (p < q)%nat ->
  nth_error l p = Some a -> nth_error l q = Some b -> R a b.
Proof.
  intros Hs. revert p q. induction Hs as [| x l Hs IH Hall]; intros p q Hpq Ha Hb.
  - destruct p; discriminate.
  - destruct q as [| q]; [lia |]. simpl in Hb. destruct p as [| p].
    + simpl in Ha. injection Ha as <-.
      rewrite List.Forall_forall in Hall. apply Hall.
      eapply nth_error_In; eassumption.
    + simpl in Ha. apply (IH p q); [lia | assumption | assumption].
Qed.

(** Line 41 ranks the positions of [down_percent] by depth, deepest
    first. *)
Lemma pick_order_spec (dp : list Q) (pick_ti : list Z) :
  pick_order dp = Ok pick_ti ->
  exists keyed : list (Q * Z),
    pick_ti = map snd keyed /\
    Permutation (range 0 (len dp)) pick_ti /\
    (forall d i, In (d, i) keyed -> getitem dp i = Ok d) /\
    StronglySorted (fun a b => fst b <= fst a)%Q keyed.
Proof.
  unfold pick_order, sorted_key_reverse. intros H.
  apply bind_Ok in H as (keys & Hkeys & H). injection H as <-.
  set (ltk := fun a b : Q * Z => Qlt_bool (fst a) (fst b)).
  exists (sort_reverse ltk (combine keys (range 0 (len dp)))).
  split; [reflexivity |].
  pose proof (sort_reverse_perm ltk (combine keys (range 0 (len dp)))) as Hperm.
  split.
  { rewrite <- (mapM_combine_snd _ _ _ Hkeys) at 1.
    apply Permutation_map. exact Hperm. }
  split.
  { intros d i Hin. eapply mapM_combine; [exact Hkeys |].
    eapply Permutation_in; [symmetry; exact Hperm | exact Hin]. }
  assert (Hasym : forall a b, ltk a b = true -> ltk b a = false).
  { intros a b Hab. unfold ltk in *. apply Qlt_bool_iff in Hab.
    apply Qlt_bool_false. lra. }
  assert (Htrans : Transitive (desc ltk)).
  { intros a b c'. unfold desc, ltk. rewrite !Qlt_bool_false. intros; lra. }
  pose proof (Sorted_StronglySorted Htrans
                (sort_reverse_sorted ltk Hasym
                   (combine keys (range 0 (len dp))))) as Hs.
  clear -Hs. induction Hs as [| a l Hs IH Hall]; constructor; [assumption |].
  eapply List.Forall_impl; [| exact Hall].
  intros b. unfold desc, ltk. apply Qlt_bool_false.
Qed.

(** The depth at rank [k] is the least depth of the [k] first ranks. *)
Lemma rank_depth_least (dp : list Q) (pick_ti : list Z) (k : nat) (i : Z)
    (thr : Q) :
  pick_order dp = Ok pick_ti ->
  nth_error pick_ti k = Some i -> getitem dp i = Ok thr ->
  forall j, In j (firstn (S k) pick_ti) ->
            exists d, getitem dp j = Ok d /\ (thr <= d)%Q.
Proof.
  intros Hpo Hi Hthr j Hj.
  destruct (pick_order_spec dp pick_ti Hpo) as (keyed & -> & _ & Hkey & Hs).
  apply In_nth_error in Hj as (p & Hp).
  rewrite nth_error_firstn in Hp.
  destruct (Nat.ltb_spec p (S k)) as [Hpk | _]; [| discriminate].
  rewrite nth_error_map in Hi, Hp.
  destruct (nth_error keyed k) as [[di i'] |] eqn:Ek; [| discriminate].
  destruct (nth_error keyed p) as [[dj j'] |] eqn:Ep; [| discriminate].
  simpl in Hi, Hp. injection Hi as ->. injection Hp as ->.
  assert (Hdi : getitem dp i = Ok di).
  { apply Hkey. eapply nth_error_In; eassumption. }
  assert (Hdj : getitem dp j = Ok dj).
  { apply Hkey. eapply nth_error_In; eassumption. }
  assert (di = thr) by congruence. subst di.
  exists dj. split; [assumption |].
  destruct (Nat.eq_dec p k) as [-> | Hne].
  - rewrite Ek in Ep. injection Ep as <- _. apply Qle_refl.
  - apply (StronglySorted_nth_error _ _ p k (dj, j) (thr, i) Hs);
      [lia | assumption | assumption].
Qed.

Lemma slice_to_firstn {A} (l : list A) (k : Z) :
  0 <= k <= len l -> slice_to l k = firstn (Z.to_nat k) l.
Proof.
  intros Hk. unfold slice_to, slice, clamp. simpl (0 <? 0).
  destruct (Z.ltb_spec k 0); [lia |].
  rewrite !Z.min_l by lia. rewrite Z.sub_0_r. reflexivity.
Qed.

(** ** [get_buy_signal] *)

(** The trailing window of a series that has a price has a maximum. *)
Lemma trailing_max_exists (series : list Q) :
  series <> [] ->
  exists m, np_max (slice_from series (- DATE_RANGE)) = Ok m.
Proof.
  intros Hne.
  destruct (getitem_last series Hne) as (x & _ & Hnth & _).
  assert (Hlen : (0 < length series)%nat).
  { destruct series; [congruence | simpl; lia]. }
  assert (Hin : In x (slice_from series (- DATE_RANGE))).
  { unfold slice_from, slice, clamp, DATE_RANGE.
    change (- (5) <? 0) with true. cbv beta iota.
    destruct (Z.ltb_spec (len series) 0) as [Hneg | _].
    { pose proof (len_nonneg series). lia. }
    rewrite Z.min_id.
    match goal with
    | |- context [Z.max ?u 0] => set (a := Z.max u 0)
    end.
    assert (Ha : 0 <= a < len series) by (unfold a, len; lia).
    apply nth_error_In with (n := (length series - 1 - Z.to_nat a)%nat).
    rewrite nth_error_firstn.
    destruct (Nat.ltb_spec (length series - 1 - Z.to_nat a)
                (Z.to_nat (len series - a))) as [_ | Hge].
    - rewrite nth_error_skipn.
      replace (Z.to_nat a + (length series - 1 - Z.to_nat a))%nat
        with (length series - 1)%nat by (unfold len in Ha; lia).
      exact Hnth.
    - unfold len in *. lia. }
  destruct (np_max_ge _ _ Hin) as (m & Hm & _). eauto.
Qed.

(** The test of line 64 raises on a series without a price. *)
Lemma get_buy_signal_empty (price : Q) :
  get_buy_signal [] price = Raise IndexError.
Proof. reflexivity. Qed.

Section BuySignalCases.
Variable np_average : list float -> float.

(** C2. For a series with at least one price, on doubles: when
    [price >= series[-1]] the result is [(0, False)], whatever
    [get_picked_points] would do on the series; otherwise the result is the
    average of [get_picked_points] on the series, paired with the test
    [down_percent > threshold], where [down_percent] is the rounded
    difference of the maximum of the last [DATE_RANGE] prices and [price],
    divided by that maximum and rounded again (an exception of
    [get_picked_points] is passed on). *)
Theorem get_buy_signal_cases (series : list float) (price : float) :
  series <> [] ->
  exists last m,
    getitem series (-1) = Ok last /\
    Binary64.np_max (slice_from series (- DATE_RANGE)) = Ok m /\
    ((last <=? price)%float = true ->
     Binary64.get_buy_signal np_average series price = Ok (0%float, false)) /\
    ((last <=? price)%float = false ->
     match Binary64.get_picked_points np_average series with
     | Ok c =>
         Binary64.get_buy_signal np_average series price
         = Ok (Binary64.max_avg_gain c,
               (Binary64.threshold c <? (m - price) / m)%float)
     | Raise e => Binary64.get_buy_signal np_average series price = Raise e
     end).
Proof.
  intros Hne.
  destruct (getitem_last series Hne) as (last & Hlast & _).
  destruct (np_max_total_binary64 _ (trailing_window_nonempty series Hne))
    as (m & Hm).
  exists last, m. split; [assumption |]. split; [assumption |].
  unfold Binary64.get_buy_signal. rewrite Hlast. cbn [bind]. split.
  - intros Hle. rewrite Hle. reflexivity.
  - intros Hnle. rewrite Hnle.
    destruct (Binary64.get_picked_points np_average series) as [c | e];
      cbn [bind]; [| reflexivity].
    unfold Binary64.current_depth. rewrite Hm. reflexivity.
Qed.
End BuySignalCases.

Lemma get_buy_signal_cases_witness :
  Binary64.get_buy_signal Binary64.mean_in_order
    [100; 102; 101; 105; 103]%float 105 = Ok (0%float, false) /\
  Binary64.get_picked_points Binary64.mean_in_order
    [100; 102; 101; 105; 103]%float = Raise IndexError /\
  Binary64.get_buy_signal Binary64.mean_in_order
    [100; 100; 100; 100; 100; 90; 99; 100; 80; 81]%float 70
  = Ok (0x1.999999999999ap-7, true)%float.
Proof.
  split; [| split].
  - destruct (get_buy_signal_cases Binary64.mean_in_order
                [100; 102; 101; 105; 103]%float 105)
      as (last & m & Hlast & _ & Hge & _); [discriminate |].
    apply Hge. injection Hlast as <-. reflexivity.
  - reflexivity.
  - destruct (get_buy_signal_cases Binary64.mean_in_order
                [100; 100; 100; 100; 100; 90; 99; 100; 80; 81]%float 70)
      as (last & m & Hlast & Hm & _ & Hlt); [discriminate |].
    injection Hlast as <-. injection Hm as <-.
    specialize (Hlt eq_refl). vm_compute in Hlt. exact Hlt.
Defined.

(** The decision of line 68 at a boundary. With the prices 1, 1, 1, 1, 1,
    0.58, 0.9, 1, 2, 4, 7, 7 and the price 4.06, the threshold is the
    rounded depth of the event of day 5, 0.42000000000000004, and the depth
    of the price rounds to the same double: no buy, although the exact
    quotient 2.94 / 7 lies above the exact depth 0.42. *)
Lemma get_buy_signal_rounded_boundary :
  let series :=
    [1; 1; 1; 1; 1; 0x1.28f5c28f5c28fp-1; 0x1.ccccccccccccdp-1; 1; 2; 4; 7;
     7]%float in
  let price := (0x1.03d70a3d70a3dp+2)%float in
  exists c,
    Binary64.get_picked_points Binary64.mean_in_order series = Ok c /\
    Binary64.threshold c = (0x1.ae147ae147ae2p-2)%float /\
    Binary64.current_depth series price = Ok (Binary64.threshold c) /\
    Binary64.get_buy_signal Binary64.mean_in_order series price
    = Ok (Binary64.max_avg_gain c, false).
Proof.
  cbv zeta. eexists. split; [vm_compute; reflexivity |].
  cbn [Binary64.threshold Binary64.max_avg_gain].
  split; [reflexivity |]. split; vm_compute; reflexivity.
Qed.

(** ** The order of the tuples [(avg_return, ticker)] *)

Lemma string_ltb_asym (a b : string) :
  String.ltb a b = true -> String.ltb b a = false.
Proof.
  unfold String.ltb. rewrite (String.compare_antisym b a).
  destruct (String.compare a b); simpl; congruence.
Qed.

Lemma string_compare_le_trans (a b c : string) :
  String.compare a b <> Gt -> String.compare b c <> Gt ->
  String.compare a c <> Gt.
Proof.
  revert b c. induction a as [| x a IH]; intros [| y b] [| z c]; simpl;
    try congruence.
  unfold Ascii.compare.
  destruct (N.compare_spec (N_of_ascii x) (N_of_ascii y)) as [Hxy | Hxy | Hxy];
    destruct (N.compare_spec (N_of_ascii y) (N_of_ascii z)) as [Hyz | Hyz | Hyz];
    try congruence; intros H1 H2.
  - rewrite Hxy, Hyz, N.compare_refl. eauto.
  - rewrite Hxy. apply N.compare_lt_iff in Hyz. rewrite Hyz. congruence.
  - rewrite <- Hyz. apply N.compare_lt_iff in Hxy. rewrite Hxy. congruence.
  - assert (Hxz : (N_of_ascii x < N_of_ascii z)%N) by lia.
    apply N.compare_lt_iff in Hxz. rewrite Hxz. congruence.
Qed.

Lemma string_ltb_false_iff (a b : string) :
  String.ltb a b = false <-> String.compare b a <> Gt.
Proof.
  unfold String.ltb. rewrite (String.compare_antisym b a).
  destruct (String.compare a b); simpl; split; congruence.
Qed.

Lemma tuple_lt_asym (a b : Q * string) :
  tuple_lt a b = true -> tuple_lt b a = false.
Proof.
  destruct a as [ra sa], b as [rb sb]. unfold tuple_lt. simpl.
  destruct (Qeq_bool ra rb) eqn:E.
  - apply Qeq_bool_iff in E.
    assert (E' : Qeq_bool rb ra = true) by (apply Qeq_bool_iff; lra).
    rewrite E'. apply string_ltb_asym.
  - intros H. apply Qlt_bool_iff in H.
    destruct (Qeq_bool rb ra) eqn:E'.
    + apply Qeq_bool_iff in E'. lra.
    + apply Qlt_bool_false. lra.
Qed.

Lemma tuple_desc_trans : Transitive (desc tuple_lt).
Proof.
  intros [ra sa] [rb sb] [rc sc]. unfold desc, tuple_lt. simpl.
  destruct (Qeq_bool ra rb) eqn:Eab; destruct (Qeq_bool rb rc) eqn:Ebc;
    destruct (Qeq_bool ra rc) eqn:Eac;
    repeat match goal with
           | H : Qeq_bool _ _ = true |- _ => apply Qeq_bool_iff in H
           | H : Qeq_bool _ _ = false |- _ => apply Qeq_bool_neq in H
           end;
    rewrite ?Qlt_bool_false, ?string_ltb_false_iff; intros H1 H2;
    try lra.
  eapply string_compare_le_trans; eassumption.
Qed.

(** C10. [get_trading_list] leaves the caller's list sorted in place: when
    the call ends the list holds the elements it held before, reordered by
    the stable descending sort of the tuples [(avg_return, ticker)], so that
    no element stands before a greater one. *)
Theorem get_trading_list_sorts_argument (buy_symbols : list (Q * string)) :
  let after := fst (get_trading_list buy_symbols) in
  after = sort_reverse tuple_lt buy_symbols /\
  Permutation buy_symbols after /\
  StronglySorted (desc tuple_lt) after.
Proof.
  simpl. split; [reflexivity |]. split.
  - apply sort_reverse_perm.
  - apply Sorted_StronglySorted; [exact tuple_desc_trans |].
    apply sort_reverse_sorted. exact tuple_lt_asym.
Qed.

(** A list that is not in descending order is changed by the call. *)
Example get_trading_list_reorders :
  fst (get_trading_list [(2 # 100, "A"); (5 # 100, "B"); (5 # 100, "C")]%Q)
  = [(5 # 100, "C"); (5 # 100, "B"); (2 # 100, "A")]%Q.
Proof. reflexivity. Qed.

(** ** [get_trading_list] *)

(** The [while] loop of lines 159-160 ends, without raising, at the first
    position that is [MAX_STOCK_PICK], the end of the list, or a symbol
    below the floor of 0.01. *)
Lemma count_picks_spec (buy_symbols : list (Q * string)) (n : Z) :
  0 <= n ->
  exists m,
    count_picks buy_symbols n = Ok m /\
    n <= m /\ m <= Z.max n (Z.min MAX_STOCK_PICK (len buy_symbols)) /\
    (forall i, n <= i < m ->
       exists e, getitem buy_symbols i = Ok e /\ (1 # 100 <= fst e)%Q) /\
    (m < Z.min MAX_STOCK_PICK (len buy_symbols) ->
       exists e, getitem buy_symbols m = Ok e /\ ~ (1 # 100 <= fst e)%Q).
Proof.
  funelim (count_picks buy_symbols n); intros Hn.
  - pose proof (proj1 (Z.ltb_ge _ _) e) as Hge. exists n_symbols.
    split; [reflexivity |]. split; [lia |]. split; [lia |].
    split; intros; lia.
  - pose proof (proj1 (Z.ltb_lt _ _) Hlt) as Hlt'.
    destruct (getitem_in_range buy_symbols n_symbols) as (x & Hx & _);
      [lia | congruence].
  - pose proof (proj1 (Z.ltb_lt _ _) Hlt) as Hlt'.
    apply Qle_bool_iff in Heq.
    destruct H as (m & Hm & Hle & Hmax & Hall & Hstop); [lia |].
    exists m. split; [assumption |]. split; [lia |]. split; [lia |].
    split; [| exact Hstop].
    intros i Hi. destruct (Z.eq_dec i n_symbols) as [-> | Hne].
    + eauto.
    + apply Hall. lia.
  - pose proof (proj1 (Z.ltb_lt _ _) Hlt) as Hlt'. exists n_symbols.
    split; [reflexivity |]. split; [lia |]. split; [lia |].
    split; [intros; lia |].
    intros _. exists entry. split; [assumption |].
    intros Hle. apply Qle_bool_iff in Hle. congruence.
Qed.

Lemma mapM_ext {A B} (f g : A -> result B) (l : list A) :
  (forall x, f x = g x) -> mapM f l = mapM g l.
Proof.
  intros H. induction l as [| x l IH]; simpl; [reflexivity |].
  rewrite H, IH. reflexivity.
Qed.

Lemma mapM_map {A B C} (f : B -> result C) (g : A -> B) (l : list A) :
  mapM f (map g l) = mapM (fun x => f (g x)) l.
Proof.
  induction l as [| x l IH]; simpl; [reflexivity |].
  rewrite IH. reflexivity.
Qed.

Lemma getitem_cons_succ {A} (x : A) (l : list A) (i : Z) :
  0 <= i -> getitem (x :: l) (i + 1) = getitem l i.
Proof.
  intros Hi. rewrite !getitem_nonneg by lia.
  replace (Z.to_nat (i + 1)) with (S (Z.to_nat i)) by lia. reflexivity.
Qed.

Lemma mapM_getitem_seq {A} (l : list A) (c : nat) :
  (c <= length l)%nat ->
  mapM (fun k => getitem l (0 + Z.of_nat k)) (seq 0 c) = Ok (firstn c l).
Proof.
  revert c. induction l as [| x l IH]; intros [| c] Hc; simpl in Hc;
    try reflexivity; [lia |].
  rewrite <- cons_seq, <- seq_shift. cbn [mapM].
  rewrite mapM_map.
  rewrite (mapM_ext _ (fun k => getitem l (0 + Z.of_nat k))).
  - rewrite IH by lia. reflexivity.
  - intros k. replace (0 + Z.of_nat (S k)) with (0 + Z.of_nat k + 1) by lia.
    apply getitem_cons_succ. lia.
Qed.

(** Reading the positions [0 .. n-1] of a list gives its first [n]
    elements. *)
Lemma mapM_getitem_prefix {A} (l : list A) (n : Z) :
  0 <= n <= len l ->
  mapM (getitem l) (range 0 n) = Ok (firstn (Z.to_nat n) l).
Proof.
  intros Hn. unfold range. rewrite mapM_map. rewrite Z.sub_0_r.
  apply mapM_getitem_seq. unfold len in Hn. lia.
Qed.

Lemma sum_returns_spec (buy_symbols : list (Q * string)) (idx : list Z)
    (es : list (Q * string)) (ac : Q) :
  mapM (getitem buy_symbols) idx = Ok es ->
  sum_returns buy_symbols idx ac = Ok (fold_left Qplus (map fst es) ac).
Proof.
  revert es ac. induction idx as [| i idx IH]; simpl; intros es ac H.
  - injection H as <-. reflexivity.
  - apply bind_Ok in H as (e & He & H).
    apply bind_Ok in H as (es' & Hes & H). injection H as <-.
    rewrite He. simpl. apply IH. assumption.
Qed.

Lemma build_trading_list_spec (buy_symbols : list (Q * string)) (n : Z)
    (ac : Q) (idx : list Z) (es : list (Q * string))
    (acc : list (string * Q)) :
  mapM (getitem buy_symbols) idx = Ok es ->
  ~ (inject_Z n == 0)%Q -> ~ (ac == 0)%Q ->
  build_trading_list buy_symbols n ac idx acc =
    Ok (acc ++ map (fun e => (snd e, proportion n ac (fst e))) es).
Proof.
  intros H Hn Hac. revert es acc H.
  induction idx as [| i idx IH]; simpl; intros es acc H.
  - injection H as <-. rewrite app_nil_r. reflexivity.
  - apply bind_Ok in H as (e & He & H).
    apply bind_Ok in H as (es' & Hes & H). injection H as <-.
    unfold py_div.
    destruct (Qeq_bool (inject_Z n) 0) eqn:En.
    { apply Qeq_bool_iff in En. contradiction. }
    destruct (Qeq_bool ac 0) eqn:Eac.
    { apply Qeq_bool_iff in Eac. contradiction. }
    simpl. rewrite He. simpl. rewrite (IH es' _ Hes).
    rewrite <- app_assoc. reflexivity.
Qed.

Lemma fold_Qplus_acc (l : list Q) (a : Q) :
  (fold_left Qplus l a == a + Qsum l)%Q.
Proof.
  unfold Qsum. revert a. induction l as [| x l IH]; simpl; intros a.
  - ring.
  - rewrite (IH (a + x)%Q), (IH (0 + x)%Q). ring.
Qed.

Lemma Qsum_cons (x : Q) (l : list Q) : (Qsum (x :: l) == x + Qsum l)%Q.
Proof.
  unfold Qsum at 1. simpl. rewrite fold_Qplus_acc. ring.
Qed.

Lemma Qsum_nonneg (l : list Q) :
  Forall (fun x => 0 <= x)%Q l -> (0 <= Qsum l)%Q.
Proof.
  induction 1 as [| x l Hx Hl IH]; [apply Qle_refl |].
  rewrite Qsum_cons. lra.
Qed.

Lemma Qsum_ge_each (l : list Q) (x : Q) :
  Forall (fun x => 0 <= x)%Q l -> In x l -> (x <= Qsum l)%Q.
Proof.
  induction 1 as [| y l Hy Hl IH]; intros Hin; [destruct Hin |].
  rewrite Qsum_cons. pose proof (Qsum_nonneg l Hl).
  destruct Hin as [<- | Hin]; [lra |]. specialize (IH Hin). lra.
Qed.

Lemma Qsum_pos (l : list Q) :
  l <> [] -> Forall (fun x => 0 < x)%Q l -> (0 < Qsum l)%Q.
Proof.
  intros Hne H. destruct H as [| x l Hx Hl]; [congruence |].
  rewrite Qsum_cons.
  assert (0 <= Qsum l)%Q.
  { apply Qsum_nonneg. eapply List.Forall_impl; [| exact Hl].
    simpl. intros; lra. }
  lra.
Qed.

(** The proportions of lines 166-167 over returns [rs], summed. *)
Lemma Qsum_proportions (a b ac : Q) (rs : list Q) :
  (Qsum (map (fun r => a + b * r / ac) rs)
   == inject_Z (len rs) * a + b * Qsum rs / ac)%Q.
Proof.
  induction rs as [| r rs IH].
  - unfold Qsum, len, Qdiv. simpl. ring.
  - simpl map. rewrite !Qsum_cons, IH, len_cons, inject_Z_plus.
    unfold Qdiv. ring.
Qed.

Lemma prefix_Forall {A} (P : A -> Prop) (l : list A) (m : Z) :
  (forall i, 0 <= i < m -> exists e, getitem l i = Ok e /\ P e) ->
  Forall P (firstn (Z.to_nat m) l).
Proof.
  intros H. apply List.Forall_forall. intros e He.
  apply In_nth_error in He as (k & Hk).
  rewrite nth_error_firstn in Hk.
  destruct (Nat.ltb_spec k (Z.to_nat m)); [| discriminate].
  destruct (H (Z.of_nat k)) as (e' & He' & HP); [lia |].
  apply getitem_Ok_nonneg in He' as [He' _]; [| lia].
  rewrite Nat2Z.id in He'. congruence.
Qed.

(** What [get_trading_list] computes from the sorted list: the accepted
    symbols are the first [n] of the list, each paired with its proportion,
    and nothing raises. *)
Lemma trading_list_of_spec (sorted_symbols : list (Q * string)) :
  exists n,
    count_picks sorted_symbols 0 = Ok (Z.of_nat n) /\
    Z.of_nat n <= MAX_STOCK_PICK /\ (n <= length sorted_symbols)%nat /\
    Forall (fun e => 1 # 100 <= fst e)%Q (firstn n sorted_symbols) /\
    (Z.of_nat n < Z.min MAX_STOCK_PICK (len sorted_symbols) ->
     exists e, nth_error sorted_symbols n = Some e /\
               ~ (1 # 100 <= fst e)%Q) /\
    trading_list_of sorted_symbols =
      Ok (map (fun e =>
                 (snd e,
                  proportion (Z.of_nat n)
                    (Qsum (map fst (firstn n sorted_symbols))) (fst e)))
              (firstn n sorted_symbols)).
Proof.
  destruct (count_picks_spec sorted_symbols 0) as (m & Hm & H0 & Hmax & Hall & Hstop);
    [lia |].
  pose proof (len_nonneg sorted_symbols) as Hlen.
  unfold MAX_STOCK_PICK in *.
  exists (Z.to_nat m). rewrite Z2Nat.id by lia.
  split; [assumption |]. split; [lia |].
  split; [unfold len in *; lia |].
  assert (Hacc : Forall (fun e => 1 # 100 <= fst e)%Q
                   (firstn (Z.to_nat m) sorted_symbols))
    by (apply prefix_Forall; assumption).
  split; [assumption |].
  split.
  { intros Hlt. destruct (Hstop Hlt) as (e & He & Hne).
    apply getitem_Ok_nonneg in He as [He _]; [| lia]. eauto. }
  unfold trading_list_of. rewrite Hm. simpl.
  assert (Hes : mapM (getitem sorted_symbols) (range 0 m)
                = Ok (firstn (Z.to_nat m) sorted_symbols))
    by (apply mapM_getitem_prefix; lia).
  rewrite (sum_returns_spec _ _ _ _ Hes). simpl.
  destruct (Z.eq_dec m 0) as [-> | Hm0].
  { reflexivity. }
  fold (Qsum (map fst (firstn (Z.to_nat m) sorted_symbols))).
  rewrite (build_trading_list_spec _ _ _ _ _ [] Hes); [reflexivity | |].
  - intros Heq. unfold Qeq in Heq. simpl in Heq. lia.
  - destruct (firstn (Z.to_nat m) sorted_symbols) as [| e es] eqn:E.
    { apply (f_equal (@length _)) in E. rewrite length_firstn in E.
      simpl in E. unfold len in *. lia. }
    inversion Hacc as [| ? ? He Hes']; subst.
    simpl map. rewrite Qsum_cons.
    assert (0 <= Qsum (map fst es))%Q.
    { apply Qsum_nonneg. clear -Hes'.
      induction Hes'; simpl; constructor; [lra | assumption]. }
    lra.
Qed.

Lemma tuple_desc_returns (a b : Q * string) :
  desc tuple_lt a b -> (fst b <= fst a)%Q.
Proof.
  unfold desc, tuple_lt. destruct (Qeq_bool (fst a) (fst b)) eqn:E.
  - apply Qeq_bool_iff in E. intros _. lra.
  - apply Qlt_bool_false.
Qed.

Lemma sorted_returns_descend (buy_symbols : list (Q * string)) :
  StronglySorted (fun a b => fst b <= fst a)%Q
    (sort_reverse tuple_lt buy_symbols).
Proof.
  pose proof (Sorted_StronglySorted tuple_desc_trans
                (sort_reverse_sorted tuple_lt tuple_lt_asym buy_symbols)) as H.
  induction H as [| a l Hs IH Hall]; constructor; [assumption |].
  eapply List.Forall_impl; [| exact Hall].
  intros b. apply tuple_desc_returns.
Qed.

(** C6. [get_trading_list] never raises. The tickers it returns are those
    of the first [n] symbols of the sorted list, where returns never
    increase along the sorted list, and [n] is the greatest length of a
    prefix that holds at most [MAX_STOCK_PICK] symbols, all of return at
    least 0.01. With [n = 0] the result is empty, although [n] and the sum
    of the accepted returns are zero, divisors on which the divisions of
    line 166 raise. *)
Theorem accepted_symbols_maximal_prefix (buy_symbols : list (Q * string)) :
  let sorted_symbols := fst (get_trading_list buy_symbols) in
  exists (n : nat) (trading_list : list (string * Q)),
    snd (get_trading_list buy_symbols) = Ok trading_list /\
    map fst trading_list = map snd (firstn n sorted_symbols) /\
    StronglySorted (fun a b => fst b <= fst a)%Q sorted_symbols /\
    Z.of_nat n <= MAX_STOCK_PICK /\ (n <= length sorted_symbols)%nat /\
    Forall (fun e => 1 # 100 <= fst e)%Q (firstn n sorted_symbols) /\
    (forall k : nat,
       Z.of_nat k <= MAX_STOCK_PICK -> (k <= length sorted_symbols)%nat ->
       Forall (fun e => 1 # 100 <= fst e)%Q (firstn k sorted_symbols) ->
       (k <= n)%nat) /\
    (n = 0%nat ->
     trading_list = [] /\
     py_div (75 # 100) (inject_Z (Z.of_nat n)) = Raise ZeroDivisionError /\
     forall x,
       py_div x (Qsum (map fst (firstn n sorted_symbols)))
       = Raise ZeroDivisionError).
Proof.
  simpl. set (sorted_symbols := sort_reverse tuple_lt buy_symbols).
  destruct (trading_list_of_spec sorted_symbols)
    as (n & Hn & Hmax & Hlen & Hacc & Hstop & Htl).
  exists n. eexists. split; [exact Htl |].
  split; [rewrite !map_map; reflexivity |].
  split; [apply sorted_returns_descend |].
  split; [assumption |]. split; [assumption |]. split; [assumption |].
  split.
  - intros k Hk Hklen Hall.
    destruct (Nat.le_gt_cases k n) as [Hle | Hgt]; [assumption |].
    destruct Hstop as (e & He & Hne); [unfold len; lia |].
    exfalso. apply Hne.
    rewrite List.Forall_forall in Hall. apply Hall.
    apply nth_error_In with (n := n). rewrite nth_error_firstn.
    destruct (Nat.ltb_spec n k); [assumption | lia].
  - intros ->. repeat split; reflexivity.
Qed.

Lemma accepted_symbols_maximal_prefix_witness :
  exists (n : nat) (trading_list : list (string * Q)),
    snd (get_trading_list
           [(2 # 100, "A"); (5 # 100, "B"); (1 # 1000, "D"); (3 # 100, "E")]%Q)
    = Ok trading_list /\
    map fst trading_list = ["B"; "E"; "A"] /\ (3 <= n)%nat.
Proof.
  destruct (accepted_symbols_maximal_prefix
              [(2 # 100, "A"); (5 # 100, "B"); (1 # 1000, "D"); (3 # 100, "E")]%Q)
    as (n & tl & Htl & Hmap & _ & Hn & _ & _ & Hmaxi & _).
  exists n, tl. split; [exact Htl |].
  assert (H3 : (3 <= n)%nat).
  { apply Hmaxi.
    - unfold MAX_STOCK_PICK. lia.
    - simpl. lia.
    - simpl. repeat constructor; simpl; discriminate. }
  split; [| exact H3].
  unfold MAX_STOCK_PICK in Hn.
  assert (n = 3%nat) as -> by lia.
  exact Hmap.
Defined.

(** C5. When [get_trading_list] returns a list that is not empty, the list
    pairs each accepted symbol, of return at least 0.01, with
    [0.75 / n + 0.25 * return / total]; every proportion is above 0 and at
    most 1; the proportions sum to 1; and the proportion of a single
    accepted symbol is 1. *)
Theorem proportions_in_unit_interval_sum_to_one
    (buy_symbols : list (Q * string)) (trading_list : list (string * Q)) :
  snd (get_trading_list buy_symbols) = Ok trading_list ->
  trading_list <> [] ->
  let accepted :=
    firstn (length trading_list) (fst (get_trading_list buy_symbols)) in
  let total := Qsum (map fst accepted) in
  Forall (fun e => 1 # 100 <= fst e)%Q accepted /\
  trading_list =
    map (fun e => (snd e, proportion (len trading_list) total (fst e)))
        accepted /\
  Forall (fun p => 0 < snd p /\ snd p <= 1)%Q trading_list /\
  (Qsum (map snd trading_list) == 1)%Q /\
  (length trading_list = 1%nat ->
   Forall (fun p => snd p == 1)%Q trading_list).
Proof.
  simpl. set (sorted_symbols := sort_reverse tuple_lt buy_symbols).
  destruct (trading_list_of_spec sorted_symbols)
    as (n & _ & _ & Hlen & Hacc & _ & Htl).
  rewrite Htl. intros [= <-] Hne.
  remember (firstn n sorted_symbols) as accepted eqn:Eacc.
  assert (Hn : length accepted = n).
  { subst accepted. rewrite length_firstn. lia. }
  rewrite length_map, Hn, <- Eacc.
  unfold len. rewrite length_map, Hn.
  set (total := Qsum (map fst accepted)).
  assert (Hn0 : (0 < n)%nat).
  { destruct accepted; [contradiction Hne; reflexivity | simpl in Hn; lia]. }
  assert (HnQ : (1 <= inject_Z (Z.of_nat n))%Q).
  { unfold Qle. simpl. lia. }
  assert (Hnonneg : Forall (fun x => 0 <= x)%Q (map fst accepted)).
  { clear -Hacc. induction Hacc; simpl; constructor; [lra | assumption]. }
  assert (Htot : (0 < total)%Q).
  { apply Qsum_pos.
    - destruct accepted; [simpl in Hn; lia | discriminate].
    - clear -Hacc. induction Hacc; simpl; constructor; [lra | assumption]. }
  assert (Hsum :
    (Qsum (map snd
             (map (fun e => (snd e, proportion (Z.of_nat n) total (fst e)))
                  accepted)) == 1)%Q).
  { rewrite map_map. simpl.
    rewrite <- (map_map fst (fun r => proportion (Z.of_nat n) total r)).
    unfold proportion. rewrite Qsum_proportions.
    unfold len. rewrite length_map, Hn. fold total.
    field. split; lra. }
  split; [assumption |]. split; [reflexivity |]. split; [| split].
  - apply List.Forall_forall. intros p Hp.
    apply in_map_iff in Hp as (e & <- & He). simpl.
    rewrite List.Forall_forall in Hacc. specialize (Hacc e He).
    assert (Hle : (fst e <= total)%Q).
    { apply Qsum_ge_each; [assumption |]. apply in_map. assumption. }
    unfold proportion.
    assert (H1 : (0 < (75 # 100) / inject_Z (Z.of_nat n))%Q).
    { apply Qlt_shift_div_l; lra. }
    assert (H2 : ((75 # 100) / inject_Z (Z.of_nat n) <= 75 # 100)%Q).
    { apply Qle_shift_div_r; lra. }
    assert (H3 : (0 < (25 # 100) * fst e / total)%Q).
    { apply Qlt_shift_div_l; lra. }
    assert (H4 : ((25 # 100) * fst e / total <= 25 # 100)%Q).
    { apply Qle_shift_div_r; lra. }
    lra.
  - exact Hsum.
  - intros Hone. subst n.
    destruct accepted as [| e [| e' es]]; simpl in Hone; try lia.
    constructor; [| constructor].
    simpl in Hsum |- *. unfold Qsum in Hsum. simpl in Hsum.
    rewrite <- Hsum. ring.
Qed.

Lemma proportions_in_unit_interval_sum_to_one_witness :
  Forall (fun p => 0 < snd p /\ snd p <= 1)%Q
    [("C", 135000000000 # 390000000000);
     ("B", 135000000000 # 390000000000);
     ("E", 120000000000 # 390000000000)]%Q /\
  Forall (fun p => snd p == 1)%Q [("A", 2000000 # 2000000)]%Q.
Proof.
  split.
  - refine (proj1 (proj2 (proj2
      (proportions_in_unit_interval_sum_to_one
         [(2 # 100, "A"); (5 # 100, "B"); (5 # 100, "C");
          (1 # 1000, "D"); (3 # 100, "E")]%Q _ eq_refl _)))).
    discriminate.
  - refine (proj2 (proj2 (proj2 (proj2
      (proportions_in_unit_interval_sum_to_one
         [(2 # 100, "A")]%Q _ eq_refl _)))) eq_refl).
    discriminate.
Defined.

(** ** [filter_garbage_series] *)

Lemma fold_Qmax_In (l : list Q) (a : Q) :
  fold_left Qmax l a = a \/ In (fold_left Qmax l a) l.
Proof.
  revert a. induction l as [| y l IH]; simpl; intros a; [auto |].
  destruct (IH (Qmax a y)) as [H | H]; [| auto].
  rewrite H. unfold Qmax, GenericMinMax.gmax.
  destruct (Qcompare a y); auto.
Qed.

(** [np.max] returns an element that bounds the others. *)
Lemma np_max_spec (l : list Q) (m : Q) :
  np_max l = Ok m -> In m l /\ forall x, In x l -> (x <= m)%Q.
Proof.
  destruct l as [| a l]; [discriminate |]. simpl np_max. intros [= <-].
  split.
  - destruct (fold_Qmax_In l a) as [-> | H]; simpl; auto.
  - destruct (fold_Qmax_ge l a) as [Ha Hl].
    intros x [<- | Hx]; auto.
Qed.

(** The test of line 108 on a series that has a price. *)
Lemma retains_high_spec (series : list Q) :
  series <> [] ->
  exists m last b,
    np_max series = Ok m /\ getitem series (-1) = Ok last /\
    retains_high series = Ok b /\
    (b = true <-> (m * GARBAGE_FILTER_THRESHOLD <= last)%Q).
Proof.
  intros Hne.
  destruct (getitem_last series Hne) as (last & Hlast & _ & Hin).
  destruct (np_max_ge series last Hin) as (m & Hm & _).
  exists m, last. eexists. split; [assumption |]. split; [assumption |].
  unfold retains_high. rewrite Hm, Hlast. simpl.
  split; [reflexivity |]. apply Qle_bool_iff.
Qed.

Lemma garbage_loop_spec (items : list (string * list Q))
    (res : gmap string (list Q)) :
  (forall k s, (k, s) ∈ items -> s <> []) ->
  NoDup items.*1 ->
  (forall k, k ∈ items.*1 -> res !! k = None) ->
  exists res',
    garbage_loop items res = Ok res' /\
    forall k s,
      res' !! k = Some s <->
      res !! k = Some s \/ ((k, s) ∈ items /\ retains_high s = Ok true).
Proof.
  revert res. induction items as [| [ticker series] items IH];
    intros res Hne Hnd Hfresh.
  - exists res. split; [reflexivity |]. intros k s. split; [auto |].
    intros [H | [H _]]; [assumption |]. inversion H.
  - simpl in Hnd. apply NoDup_cons in Hnd as [Hnotin Hnd].
    destruct (retains_high_spec series) as (m & last & b & _ & _ & Hb & _).
    { apply (Hne ticker). left. }
    simpl. rewrite Hb. simpl.
    set (res1 := if b then <[ticker := series]> res else res).
    destruct (IH res1) as (res' & Hres' & Hspec).
    { intros k s Hks. apply (Hne k). right. assumption. }
    { assumption. }
    { intros k Hk. unfold res1.
      assert (res !! k = None) by (apply Hfresh; simpl; right; assumption).
      destruct b; [| assumption].
      rewrite lookup_insert_ne; [assumption |]. intros ->. contradiction. }
    exists res'. split; [assumption |].
    assert (Hticker : res !! ticker = None) by (apply Hfresh; simpl; left).
    intros k s. rewrite Hspec. unfold res1. split.
    + intros [H | [Hin Hr]].
      * destruct b; [| auto].
        destruct (decide (ticker = k)) as [<- | Hk].
        -- rewrite lookup_insert_eq in H. injection H as <-.
           right. split; [left | assumption].
        -- rewrite lookup_insert_ne in H by assumption. auto.
      * right. split; [right; assumption | assumption].
    + intros [H | [Hin Hr]].
      * left. destruct b; [| assumption].
        rewrite lookup_insert_ne; [assumption |]. intros ->. congruence.
      * apply elem_of_cons in Hin as [[= -> ->] | Hin].
        -- left. rewrite Hr in Hb. injection Hb as <-.
           apply lookup_insert_eq.
        -- right. auto.
Qed.

(** The test of line 108 on a series of doubles that has a price. *)
Lemma retains_high_binary64 (series : list float) :
  series <> [] ->
  exists m last,
    Binary64.np_max series = Ok m /\ getitem series (-1) = Ok last /\
    In m series /\ In last series /\
    Binary64.retains_high series
    = Ok (m * Binary64.GARBAGE_FILTER_THRESHOLD <=? last)%float.
Proof.
  intros Hne.
  destruct (getitem_last series Hne) as (last & Hlast & _ & Hin).
  destruct (np_max_total_binary64 series Hne) as (m & Hm).
  exists m, last. split; [assumption |]. split; [assumption |].
  split; [apply np_max_In_binary64; assumption |]. split; [assumption |].
  unfold Binary64.retains_high. rewrite Hm, Hlast. reflexivity.
Qed.

Lemma garbage_loop_binary64 (items : list (string * list float))
    (res : gmap string (list float)) :
  (forall k s, (k, s) ∈ items -> s <> []) ->
  NoDup items.*1 ->
  (forall k, k ∈ items.*1 -> res !! k = None) ->
  exists res',
    Binary64.garbage_loop items res = Ok res' /\
    forall k s,
      res' !! k = Some s <->
      res !! k = Some s \/
      ((k, s) ∈ items /\ Binary64.retains_high s = Ok true).
Proof.
  revert res. induction items as [| [ticker series] items IH];
    intros res Hne Hnd Hfresh.
  - exists res. split; [reflexivity |]. intros k s. split; [auto |].
    intros [H | [H _]]; [assumption |]. inversion H.
  - simpl in Hnd. apply NoDup_cons in Hnd as [Hnotin Hnd].
    destruct (retains_high_binary64 series)
      as (m & last & _ & _ & _ & _ & Hb).
    { apply (Hne ticker). left. }
    set (b := (m * Binary64.GARBAGE_FILTER_THRESHOLD <=? last)%float) in Hb.
    simpl. rewrite Hb. simpl.
    set (res1 := if b then <[ticker := series]> res else res).
    destruct (IH res1) as (res' & Hres' & Hspec).
    { intros k s Hks. apply (Hne k). right. assumption. }
    { assumption. }
    { intros k Hk. unfold res1.
      assert (res !! k = None) by (apply Hfresh; simpl; right; assumption).
      destruct b; [| assumption].
      rewrite lookup_insert_ne; [assumption |]. intros ->. contradiction. }
    exists res'. split; [assumption |].
    assert (Hticker : res !! ticker = None) by (apply Hfresh; simpl; left).
    intros k s. rewrite Hspec. unfold res1. split.
    + intros [H | [Hin Hr]].
      * destruct b; [| auto].
        destruct (decide (ticker = k)) as [<- | Hk].
        -- rewrite lookup_insert_eq in H. injection H as <-.
           right. split; [left | assumption].
        -- rewrite lookup_insert_ne in H by assumption. auto.
      * right. split; [right; assumption | assumption].
    + intros [H | [Hin Hr]].
      * left. destruct b; [| assumption].
        rewrite lookup_insert_ne; [assumption |]. intros ->. congruence.
      * apply elem_of_cons in Hin as [[= -> ->] | Hin].
        -- left. rewrite Hr in Hb. injection Hb as <-.
           apply lookup_insert_eq.
        -- right. auto.
Qed.

(** The product of line 108 is not NaN unless the maximum is. *)
Lemma threshold_product_not_nan (m : float) :
  is_nan m = false ->
  is_nan (m * Binary64.GARBAGE_FILTER_THRESHOLD)%float = false.
Proof.
  apply (mul_not_nan m Binary64.GARBAGE_FILTER_THRESHOLD false
           6305039478318694 (-53)).
  vm_compute. reflexivity.
Qed.

(** C8. On doubles, when every series has a price,
    [filter_garbage_series] returns a dictionary that holds a ticker with a
    series exactly when the input holds the ticker with that same series
    and [max(series) * 0.7 <= series[-1]], the product being the rounded
    product with the double 0.7; a ticker whose series has no NaN is absent
    from it exactly when [max(series) * 0.7 > series[-1]]. *)
Theorem filter_garbage_series_keeps (all_series : gmap string (list float)) :
  (forall ticker series, all_series !! ticker = Some series -> series <> []) ->
  exists res,
    Binary64.filter_garbage_series all_series = Ok res /\
    (forall ticker series,
       res !! ticker = Some series <->
       all_series !! ticker = Some series /\
       exists m last,
         Binary64.np_max series = Ok m /\ getitem series (-1) = Ok last /\
         (m * Binary64.GARBAGE_FILTER_THRESHOLD <=? last)%float = true) /\
    (forall ticker series,
       all_series !! ticker = Some series -> Binary64.no_nan series ->
       exists m last,
         Binary64.np_max series = Ok m /\ getitem series (-1) = Ok last /\
         (res !! ticker = None <->
          (last <? m * Binary64.GARBAGE_FILTER_THRESHOLD)%float = true)).
Proof.
  intros Hne. unfold Binary64.filter_garbage_series.
  destruct (garbage_loop_binary64 (map_to_list all_series) ∅)
    as (res & Hres & Hspec).
  { intros k s Hks. apply elem_of_map_to_list in Hks. eauto. }
  { apply NoDup_fst_map_to_list. }
  { intros k _. apply lookup_empty. }
  assert (Hiff : forall ticker series,
    res !! ticker = Some series <->
    all_series !! ticker = Some series /\
    exists m last,
      Binary64.np_max series = Ok m /\ getitem series (-1) = Ok last /\
      (m * Binary64.GARBAGE_FILTER_THRESHOLD <=? last)%float = true).
  { intros ticker series. rewrite Hspec, lookup_empty, elem_of_map_to_list.
    split.
    - intros [H | [Hin Hr]]; [discriminate |]. split; [assumption |].
      destruct (retains_high_binary64 series (Hne _ _ Hin))
        as (m & last & Hm & Hlast & _ & _ & Hb).
      exists m, last. split; [assumption |]. split; [assumption |].
      congruence.
    - intros [Hin (m & last & Hm & Hlast & Hle)]. right.
      split; [assumption |].
      unfold Binary64.retains_high. rewrite Hm, Hlast. simpl. f_equal.
      assumption. }
  exists res. split; [assumption |]. split; [exact Hiff |].
  intros ticker series Hin Hnan.
  destruct (retains_high_binary64 series (Hne _ _ Hin))
    as (m & last & Hm & Hlast & Hmin & Hlastin & _).
  exists m, last. split; [assumption |]. split; [assumption |].
  unfold Binary64.no_nan in Hnan. rewrite List.Forall_forall in Hnan.
  pose proof (threshold_product_not_nan m (Hnan m Hmin)) as Hprod.
  pose proof (Hnan last Hlastin) as Hlastnan.
  split.
  - intros Hnone. apply leb_false_ltb; try assumption.
    apply not_true_is_false. intros Hle.
    assert (res !! ticker = Some series) by (apply Hiff; eauto 10).
    congruence.
  - intros Hlt. apply ltb_leb_false in Hlt.
    destruct (res !! ticker) as [s |] eqn:E; [| reflexivity].
    apply Hiff in E as [Hin' (m' & last' & Hm' & Hlast' & Hle)].
    assert (s = series) by congruence. subst s.
    assert (m' = m) by congruence. assert (last' = last) by congruence.
    subst. congruence.
Qed.

Lemma filter_garbage_series_keeps_witness :
  exists res,
    Binary64.filter_garbage_series
      {[ "LOW" := [100; 200; 130]%float; "HIGH" := [100; 200; 150]%float ]}
    = Ok res /\
    res !! "HIGH" = Some [100; 200; 150]%float /\ res !! "LOW" = None.
Proof.
  destruct (filter_garbage_series_keeps
              {[ "LOW" := [100; 200; 130]%float;
                 "HIGH" := [100; 200; 150]%float ]})
    as (res & Hres & Hkeep & Hdrop).
  - intros ticker series H.
    destruct (decide (ticker = "LOW")) as [-> | Hlow].
    + rewrite lookup_insert_eq in H. injection H as <-. discriminate.
    + rewrite lookup_insert_ne in H by congruence.
      apply lookup_singleton_Some in H as [_ <-]. discriminate.
  - exists res. split; [exact Hres |]. split.
    + apply Hkeep. split; [reflexivity |].
      exists 200%float, 150%float.
      split; [reflexivity |]. split; reflexivity.
    + destruct (Hdrop "LOW" [100; 200; 130]%float eq_refl)
        as (m & last & Hm & Hlast & Hiff).
      { repeat constructor. }
      apply Hiff. injection Hm as <-. injection Hlast as <-. reflexivity.
Defined.

(** The rule of line 108 at a boundary. A series whose high is 2.0 and whose
    last price is the double written 1.4 is kept: the product of 2.0 and the
    double 0.7 is that same double, although the double 1.4 is below
    2 * 7/10. A series with a NaN is dropped, while neither [<=] nor [>]
    holds of its product. *)
Lemma retains_high_rounded_boundary :
  Binary64.retains_high [2; 0x1.6666666666666p+0]%float = Ok true /\
  Binary64.retains_high [3; 0x1.0ccccccccccccp+1]%float = Ok true /\
  Binary64.retains_high [1; nan; 1]%float = Ok false /\
  (1 <? nan * Binary64.GARBAGE_FILTER_THRESHOLD)%float = false.
Proof. repeat split; vm_compute; reflexivity. Qed.

(** ** [filter_low_volume_series] *)

Section VolumeFacts.
Variable requests_get : string -> nat -> result response.
Variable volumes : gmap string Z.

(** A failure of [web_scraping] for a ticker that is not in the cache is
    a failure of the lookup of its volume. *)
Lemma web_scraping_failure (ticker : string) (e : exn) :
  volumes !! ticker = None ->
  web_scraping requests_get ("https://finance.yahoo.com/quote/" +:+ ticker)
    ["regularMarketVolume"] = Raise e ->
  volume_of requests_get volumes ticker = Raise e.
Proof. intros Hnone Hweb. unfold volume_of. rewrite Hnone, Hweb. reflexivity. Qed.

(** No [try] surrounds the lookup: the loop ends at the first ticker
    whose lookup raises. *)
Lemma volume_loop_raises (items : list (string * list Q))
    (res : gmap string (list Q)) (overwrite : bool)
    (ticker : string) (series : list Q) (e : exn) :
  (ticker, series) ∈ items ->
  volume_of requests_get volumes ticker = Raise e ->
  exists e', volume_loop requests_get volumes items res overwrite = Raise e'.
Proof.
  intros Hin Hraise. revert res overwrite.
  induction items as [| [k s] items IH]; intros res overwrite.
  - inversion Hin.
  - simpl. destruct (volume_of requests_get volumes k) as [v | e0] eqn:Hk.
    + simpl. apply IH.
      apply elem_of_cons in Hin as [[= -> ->] | Hin]; [congruence | assumption].
    + simpl. eauto.
Qed.

Lemma volume_loop_spec (items : list (string * list Q))
    (res : gmap string (list Q)) (overwrite : bool) :
  (forall k s, (k, s) ∈ items ->
     exists v, volume_of requests_get volumes k = Ok v) ->
  NoDup items.*1 ->
  (forall k, k ∈ items.*1 -> res !! k = None) ->
  exists res' overwrite',
    volume_loop requests_get volumes items res overwrite
    = Ok (res', overwrite') /\
    forall k s,
      res' !! k = Some s <->
      res !! k = Some s \/
      ((k, s) ∈ items /\
       exists v, volume_of requests_get volumes k = Ok v /\
                 VOLUME_FILTER_THRESHOLD <= fst v).
Proof.
  revert res overwrite. induction items as [| [ticker series] items IH];
    intros res overwrite Hok Hnd Hfresh.
  - exists res, overwrite. split; [reflexivity |]. intros k s.
    split; [auto |]. intros [H | [H _]]; [assumption |]. inversion H.
  - simpl in Hnd. apply NoDup_cons in Hnd as [Hnotin Hnd].
    destruct (Hok ticker series) as (v & Hv); [left |].
    simpl. rewrite Hv. simpl.
    set (res1 := if VOLUME_FILTER_THRESHOLD <=? fst v
                 then <[ticker := series]> res else res).
    destruct (IH res1 (overwrite || snd v)) as (res' & ow' & Hres' & Hspec).
    { intros k s Hks. apply (Hok k s). right. assumption. }
    { assumption. }
    { intros k Hk. unfold res1.
      assert (res !! k = None) by (apply Hfresh; simpl; right; assumption).
      destruct (_ <=? _); [| assumption].
      rewrite lookup_insert_ne; [assumption |]. intros ->. contradiction. }
    exists res', ow'. split; [assumption |].
    assert (Hticker : res !! ticker = None) by (apply Hfresh; simpl; left).
    intros k s. rewrite Hspec. unfold res1.
    destruct (Z.leb_spec VOLUME_FILTER_THRESHOLD (fst v)) as [Hge | Hlt].
    + split.
      * intros [H | [Hin Hr]].
        -- destruct (decide (ticker = k)) as [<- | Hk].
           ++ rewrite lookup_insert_eq in H. injection H as <-.
              right. split; [left | eauto].
           ++ rewrite lookup_insert_ne in H by assumption. auto.
        -- right. split; [right; assumption | assumption].
      * intros [H | [Hin Hr]].
        -- left. rewrite lookup_insert_ne; [assumption |].
           intros ->. congruence.
        -- apply elem_of_cons in Hin as [[= -> ->] | Hin].
           ++ left. apply lookup_insert_eq.
           ++ right. auto.
    + split.
      * intros [H | [Hin Hr]]; [auto |].
        right. split; [right; assumption | assumption].
      * intros [H | [Hin Hr]]; [auto |].
        apply elem_of_cons in Hin as [[= -> ->] | Hin]; [| auto].
        destruct Hr as (v' & Hv' & Hge). rewrite Hv in Hv'.
        injection Hv' as <-. lia.
Qed.

(** C9, as the code has it. A ticker whose volume lookup raises makes
    [filter_low_volume_series] raise: no dictionary is returned, for any
    ticker. When no lookup raises, the dictionary returned holds the
    tickers of volume at least [VOLUME_FILTER_THRESHOLD], each with its
    series. *)
Theorem lookup_failure_aborts_batch (all_series : gmap string (list Q)) :
  (forall ticker series e,
     all_series !! ticker = Some series ->
     volume_of requests_get volumes ticker = Raise e ->
     exists e',
       filter_low_volume_series requests_get volumes all_series = Raise e')
  /\
  ((forall ticker series,
      all_series !! ticker = Some series ->
      exists v, volume_of requests_get volumes ticker = Ok v) ->
   exists res written,
     filter_low_volume_series requests_get volumes all_series
     = Ok (res, written) /\
     forall ticker series,
       res !! ticker = Some series <->
       all_series !! ticker = Some series /\
       exists v, volume_of requests_get volumes ticker = Ok v /\
                 VOLUME_FILTER_THRESHOLD <= fst v).
Proof.
  split.
  - intros ticker series e Hin Hraise. unfold filter_low_volume_series.
    apply elem_of_map_to_list in Hin.
    destruct (volume_loop_raises _ ∅ false _ _ _ Hin Hraise) as (e' & ->).
    simpl. eauto.
  - intros Hok. unfold filter_low_volume_series.
    destruct (volume_loop_spec (map_to_list all_series) ∅ false)
      as (res & ow & Hloop & Hspec).
    { intros k s Hks. apply elem_of_map_to_list in Hks. eauto. }
    { apply NoDup_fst_map_to_list. }
    { intros k _. apply lookup_empty. }
    rewrite Hloop. simpl. do 2 eexists. split; [reflexivity |].
    intros ticker series.
    rewrite Hspec, lookup_empty, elem_of_map_to_list.
    split; [intros [H | H]; [discriminate | assumption] | auto].
Qed.
End VolumeFacts.

Lemma lookup_failure_aborts_batch_witness :
  (exists e',
     filter_low_volume_series service_down {[ "AAA" := 20000 ]}
       {[ "AAA" := qs [1; 2]; "ZZZ" := qs [3; 4] ]} = Raise e') /\
  exists res written,
    filter_low_volume_series service_down
      {[ "AAA" := 20000; "ZZZ" := 500 ]}
      {[ "AAA" := qs [1; 2]; "ZZZ" := qs [3; 4] ]} = Ok (res, written) /\
    res !! "AAA" = Some (qs [1; 2]).
Proof.
  split.
  - apply (proj1 (lookup_failure_aborts_batch service_down
                    {[ "AAA" := 20000 ]}
                    {[ "AAA" := qs [1; 2]; "ZZZ" := qs [3; 4] ]})
             "ZZZ" (qs [3; 4]) (Exception "symbol not found ")).
    + reflexivity.
    + reflexivity.
  - destruct (proj2 (lookup_failure_aborts_batch service_down
                       {[ "AAA" := 20000; "ZZZ" := 500 ]}
                       {[ "AAA" := qs [1; 2]; "ZZZ" := qs [3; 4] ]}))
      as (res & written & Hres & Hspec).
    + intros ticker series H.
      destruct (decide (ticker = "AAA")) as [-> | Ha].
      * eexists. reflexivity.
      * rewrite lookup_insert_ne in H by congruence.
        apply lookup_singleton_Some in H as [<- _].
        eexists. reflexivity.
    + exists res, written. split; [exact Hres |].
      apply Hspec. split; [reflexivity |].
      eexists. split; [reflexivity |]. unfold VOLUME_FILTER_THRESHOLD.
      simpl. lia.
Defined.

(** C9, as the claim states it, fails. The volume of [AAA] is in the cache
    and passes the rule; the lookup for [ZZZ] fails, on both requests. The
    call raises the exception of [web_scraping] and returns nothing, so
    [AAA] is in no result. *)
Lemma failure_containment_counterexample :
  volume_of service_down {[ "AAA" := 20000 ]} "AAA" = Ok (20000, false) /\
  web_scraping service_down "https://finance.yahoo.com/quote/ZZZ"
    ["regularMarketVolume"] = Raise (Exception "symbol not found ") /\
  filter_low_volume_series service_down {[ "AAA" := 20000 ]}
    {[ "AAA" := qs [1; 2]; "ZZZ" := qs [3; 4] ]}
  = Raise (Exception "symbol not found ") /\
  ~ exists res written,
      filter_low_volume_series service_down {[ "AAA" := 20000 ]}
        {[ "AAA" := qs [1; 2]; "ZZZ" := qs [3; 4] ]} = Ok (res, written) /\
      res !! "AAA" = Some (qs [1; 2]).
Proof.
  split; [reflexivity |]. split; [reflexivity |].
  split; [vm_compute; reflexivity |].
  intros (res & written & H & _).
  vm_compute in H. discriminate H.
Qed.

(** * Further properties *)

(** ** The dip events, in full *)

Lemma filterM_Ok_filter {A} (p : A -> result bool) (l l' : list A) :
  filterM p l = Ok l' ->
  l' = List.filter
         (fun x => match p x with Ok b => b | Raise _ => false end) l.
Proof.
  revert l'. induction l as [| x l IH]; simpl; intros l' H.
  - injection H as <-. reflexivity.
  - apply bind_Ok in H as (b & Hb & H).
    apply bind_Ok in H as (ys & Hys & H). injection H as <-.
    rewrite Hb, <- (IH ys Hys). reflexivity.
Qed.

Lemma StronglySorted_seq (start n : nat) :
  StronglySorted Nat.lt (seq start n).
Proof.
  revert start. induction n as [| n IH]; intros start; simpl; constructor.
  - apply IH.
  - apply List.Forall_forall. intros k Hk. apply in_seq in Hk. lia.
Qed.

Lemma StronglySorted_map {A B} (R : A -> A -> Prop) (S : B -> B -> Prop)
    (f : A -> B) (l : list A) :
  (forall a b, R a b -> S (f a) (f b)) ->
  StronglySorted R l -> StronglySorted S (map f l).
Proof.
  intros Hf. induction 1 as [| x l Hs IH Hall]; simpl; constructor.
  - exact IH.
  - rewrite List.Forall_forall in *. intros y Hy.
    apply in_map_iff in Hy as (a & <- & Ha). auto.
Qed.

Lemma StronglySorted_filter {A} (R : A -> A -> Prop) (p : A -> bool)
    (l : list A) :
  StronglySorted R l -> StronglySorted R (List.filter p l).
Proof.
  induction 1 as [| x l Hs IH Hall]; simpl; [constructor |].
  destruct (p x); [| exact IH]. constructor; [exact IH |].
  rewrite List.Forall_forall in *. intros y Hy.
  apply filter_In in Hy as [Hy _]. auto.
Qed.

Lemma StronglySorted_range (lo hi : Z) : StronglySorted Z.lt (range lo hi).
Proof.
  unfold range. apply (StronglySorted_map Nat.lt).
  - intros a b Hab. unfold Nat.lt in Hab. lia.
  - apply StronglySorted_seq.
Qed.

Lemma StronglySorted_lt_NoDup (l : list Z) :
  StronglySorted Z.lt l -> List.NoDup l.
Proof.
  induction 1 as [| x l Hs IH Hall]; constructor; [| exact IH].
  intros Hin. rewrite List.Forall_forall in Hall.
  specialize (Hall x Hin). lia.
Qed.

(** The list of line 39 holds the dip events, and nothing else. *)
Lemma down_t_In_iff (series : list Q) (dt : list Z) :
  down_t series = Ok dt -> forall t, In t dt <-> dip_event series t.
Proof.
  intros Hdt.
  destruct (down_t_spec series) as (dt' & Hdt' & Hev).
  assert (dt' = dt) as -> by congruence. clear Hdt'.
  unfold down_t in Hdt. apply bind_Ok in Hdt as (days & Hdays & Hdt).
  injection Hdt as <-.
  pose proof (filterM_Ok_filter _ _ _ Hdays) as Hfilter.
  intros t. split.
  - rewrite List.Forall_forall in Hev. apply Hev.
  - intros (Ht & a & b & Ha & Hb & Hba). unfold DATE_RANGE in *.
    apply in_map_iff. exists (t - 1). split; [lia |].
    rewrite Hfilter. apply filter_In. split.
    + apply In_range. lia.
    + rewrite Ha. simpl. replace (t - 1 + 1) with t by lia.
      rewrite Hb. simpl. apply Qle_bool_iff. exact Hba.
Qed.

(** The list of line 39 is in increasing order. *)
Lemma down_t_increasing (series : list Q) (dt : list Z) :
  down_t series = Ok dt -> StronglySorted Z.lt dt.
Proof.
  intros Hdt.
  unfold down_t in Hdt. apply bind_Ok in Hdt as (days & Hdays & Hdt).
  injection Hdt as <-.
  rewrite (filterM_Ok_filter _ _ _ Hdays).
  apply (StronglySorted_map Z.lt); [intros; lia |].
  apply StronglySorted_filter. apply StronglySorted_range.
Qed.

(** X1. Line 39 never raises. It returns, in increasing order, exactly the
    days from [DATE_RANGE] on whose price is not above the price of the day
    before. *)
Theorem down_t_events (series : list Q) :
  exists dt,
    down_t series = Ok dt /\
    (forall t, In t dt <-> dip_event series t) /\
    StronglySorted Z.lt dt.
Proof.
  destruct (down_t_spec series) as (dt & Hdt & _).
  exists dt. split; [exact Hdt |]. split.
  - apply down_t_In_iff. exact Hdt.
  - apply (down_t_increasing series). exact Hdt.
Qed.

(** ** When [get_picked_points] returns *)

Lemma length_range (lo hi : Z) : length (range lo hi) = Z.to_nat (hi - lo).
Proof. unfold range. rewrite length_map, length_seq. reflexivity. Qed.

Lemma pick_order_total (dp : list Q) :
  exists pick_ti, pick_order dp = Ok pick_ti.
Proof.
  unfold pick_order, sorted_key_reverse.
  destruct (mapM_total (fun i => getitem dp i) (range 0 (len dp)))
    as (keys & ->).
  { intros i Hi. apply In_range in Hi.
    destruct (getitem_in_range dp i Hi) as (x & Hx & _). eauto. }
  simpl. eauto.
Qed.

(** The ranking of line 41 holds every position of [down_percent] once. *)
Lemma pick_order_positions (dp : list Q) (pick_ti : list Z) :
  pick_order dp = Ok pick_ti ->
  (forall i, In i pick_ti <-> 0 <= i < len dp) /\
  length pick_ti = length dp /\ List.NoDup pick_ti.
Proof.
  intros H. destruct (pick_order_spec dp pick_ti H) as (_ & _ & Hperm & _).
  split; [| split].
  - intros i. rewrite <- In_range. split; apply Permutation_in;
      [symmetry |]; exact Hperm.
  - rewrite <- (Permutation_length Hperm), length_range. unfold len. lia.
  - eapply Permutation_NoDup; [exact Hperm |].
    apply StronglySorted_lt_NoDup. apply StronglySorted_range.
Qed.

Section ScanTotal.
Variables (series : list Q) (dt pick_ti : list Z).
Hypothesis Hevents : Forall (dip_event series) dt.
Hypothesis Hpositions : forall i, In i pick_ti -> 0 <= i < len dt.

Lemma picks_total (n : Z) :
  exists ts, mapM (getitem dt) (slice_to pick_ti n) = Ok ts /\
             Forall (dip_event series) ts.
Proof.
  destruct (mapM_total (getitem dt) (slice_to pick_ti n)) as (ts & Hts).
  { intros i Hi. apply In_slice in Hi.
    destruct (getitem_in_range dt i (Hpositions i Hi)) as (t & Ht & _).
    eauto. }
  exists ts. split; [exact Hts |].
  apply List.Forall_forall. intros t Ht.
  destruct (mapM_Ok_In _ _ _ _ Hts Ht) as (i & Hi & Hget).
  apply In_slice in Hi.
  apply getitem_Ok_nonneg in Hget as [Hnth _];
    [| apply (Hpositions i Hi)].
  rewrite List.Forall_forall in Hevents. apply Hevents.
  eapply nth_error_In; eassumption.
Qed.

Lemma gains_top_total (n : Z) :
  exists gains, gains_top series dt pick_ti n = Ok gains.
Proof.
  unfold gains_top. destruct (picks_total n) as (ts & -> & Hts). simpl.
  apply mapM_total. intros t Ht. apply filter_In in Ht as [Ht Hnext].
  apply Z.ltb_lt in Hnext.
  rewrite List.Forall_forall in Hts.
  destruct (Hts t Ht) as (Hrange & _). unfold DATE_RANGE in Hrange.
  unfold gain_at.
  destruct (getitem_in_range series (t + 1)) as (a & -> & _); [lia |].
  destruct (getitem_in_range series t) as (b & -> & _); [lia |].
  simpl. eauto.
Qed.

Lemma scan_total (n_points : list Z) (st : scan_state) :
  exists st', scan series dt pick_ti n_points st = Ok st'.
Proof.
  revert st. induction n_points as [| k ks IH]; intros st; simpl; [eauto |].
  destruct (gains_top_total k) as (gains & ->). simpl.
  destruct (0 <? len gains); [| apply IH].
  destruct (st_tol _ =? 0); [eauto | apply IH].
Qed.
End ScanTotal.

(** With a dip event no read, maximum or ranking of [get_picked_points] is
    out of range; without one, [pick_ti[n_pick - 1]] is. *)
Lemma get_picked_points_cases (series : list Q) :
  ((exists t, dip_event series t) /\
   exists c, get_picked_points series = Ok c) \/
  ((~ exists t, dip_event series t) /\
   get_picked_points series = Raise IndexError).
Proof.
  destruct (down_t_spec series) as (dt & Hdt & _).
  pose proof (down_t_In_iff series dt Hdt) as Hin.
  destruct dt as [| t0 dt0].
  { right. split; [| exact (no_event_IndexError series Hdt)].
    intros (t & Ht). apply Hin in Ht. destruct Ht. }
  remember (t0 :: dt0) as dt eqn:Edt.
  assert (Hev : Forall (dip_event series) dt).
  { apply List.Forall_forall. intros t. apply Hin. }
  destruct (mapM_total (depth_at series) dt) as (dp & Hdp).
  { intros t Ht. rewrite List.Forall_forall in Hev.
    destruct (depth_at_event series t (Hev t Ht)) as (m & b & _ & _ & _ & _ & Hd).
    eauto. }
  pose proof (mapM_Ok_length _ _ _ Hdp) as Hlen.
  destruct (pick_order_total dp) as (pick_ti & Hpo).
  destruct (pick_order_positions dp pick_ti Hpo) as (Hpos & Hplen & _).
  assert (Hpos' : forall i, In i pick_ti -> 0 <= i < len dt).
  { intros i Hi. apply Hpos in Hi. unfold len in *. lia. }
  destruct (scan_total series dt pick_ti Hev Hpos' (scan_range pick_ti) scan_init)
    as (st & Hscan).
  assert (Hne : pick_ti <> []).
  { intros ->. simpl in Hplen. rewrite Hlen, Edt in Hplen. discriminate. }
  assert (Hn : st_n_pick st = 0 \/ 1 <= st_n_pick st < len pick_ti).
  { destruct (scan_spec _ _ _ _ _ _ Hscan)
      as (visited & rest & Hsplit & _ & _ & _ & [[Hn _] | [Hk _]]).
    - left. exact Hn.
    - right. apply In_scan_range. rewrite Hsplit.
      apply in_or_app. left. exact Hk. }
  assert (Hi : exists i, getitem pick_ti (st_n_pick st - 1) = Ok i /\
                         In i pick_ti).
  { destruct Hn as [-> | Hn].
    - destruct (getitem_last pick_ti Hne) as (i & Hi & _ & Hini). eauto.
    - destruct (getitem_in_range pick_ti (st_n_pick st - 1)) as (i & Hi & Hnth);
        [lia |].
      exists i. split; [exact Hi |]. eapply nth_error_In; eassumption. }
  destruct Hi as (i & Hi & Hini).
  destruct (getitem_in_range dp i) as (thr & Hthr & _); [apply Hpos; exact Hini |].
  destruct (picks_total series dt pick_ti Hev Hpos' (st_n_pick st))
    as (picked & Hpicked & _).
  assert (Hok : exists c, get_picked_points series = Ok c).
  { unfold get_picked_points, down_percent.
    rewrite Hdt. cbn [bind]. rewrite Hdp. cbn [bind].
    rewrite Hpo. cbn [bind]. rewrite Hscan. cbn [bind].
    rewrite Hi. cbn [bind]. rewrite Hthr. cbn [bind].
    rewrite Hpicked. cbn [bind]. eauto. }
  left. split; [| exact Hok].
  exists t0. apply Hin. rewrite Edt. left. reflexivity.
Qed.

(** X2. [get_picked_points] returns a result exactly for the series that
    have a dip event, and raises nothing but [IndexError]: with a dip event
    no read, maximum or ranking of the function is out of range. *)
Theorem get_picked_points_returns_iff (series : list Q) :
  ((exists c, get_picked_points series = Ok c) <->
   (exists t, dip_event series t)) /\
  (forall e, get_picked_points series = Raise e -> e = IndexError).
Proof.
  destruct (get_picked_points_cases series)
    as [[Hev (c & Hc)] | [Hnone Hraise]].
  - split.
    + split; [intros _; exact Hev | intros _; exists c; exact Hc].
    + intros e He. congruence.
  - split.
    + split.
      * intros (c & Hc). congruence.
      * intros Hev. contradiction.
    + intros e He. congruence.
Qed.

(** The steps of [get_picked_points], read back from a result. *)
Lemma get_picked_points_Ok_inv (series : list Q) (c : calibration) :
  get_picked_points series = Ok c ->
  exists dt dp pick_ti st i,
    down_t series = Ok dt /\ down_percent series dt = Ok dp /\
    pick_order dp = Ok pick_ti /\
    scan series dt pick_ti (scan_range pick_ti) scan_init = Ok st /\
    getitem pick_ti (st_n_pick st - 1) = Ok i /\
    getitem dp i = Ok (threshold c) /\
    mapM (getitem dt) (slice_to pick_ti (st_n_pick st)) = Ok (pick_t c) /\
    max_avg_gain c = st_max_avg_gain st.
Proof.
  unfold get_picked_points. intros H.
  apply bind_Ok in H as (dt & Hdt & H).
  apply bind_Ok in H as (dp & Hdp & H).
  apply bind_Ok in H as (pick_ti & Hpo & H).
  apply bind_Ok in H as (st & Hscan & H).
  apply bind_Ok in H as (i & Hi & H).
  apply bind_Ok in H as (thr & Hthr & H).
  apply bind_Ok in H as (picked & Hpicked & H).
  injection H as <-. simpl.
  exists dt, dp, pick_ti, st, i. repeat (split; [assumption |]). reflexivity.
Qed.

Lemma NoDup_slice {A} (l : list A) (lo hi : Z) :
  List.NoDup l -> List.NoDup (slice l lo hi).
Proof.
  intros H. unfold slice.
  set (a := Z.to_nat (clamp l lo)). set (n := Z.to_nat (clamp l hi - clamp l lo)).
  rewrite <- (firstn_skipn a l) in H. apply NoDup_app_remove_l in H.
  rewrite <- (firstn_skipn n (skipn a l)) in H.
  apply NoDup_app_remove_r in H. exact H.
Qed.

Lemma mapM_getitem_NoDup {A} (l : list A) (idx : list Z) (xs : list A) :
  List.NoDup l -> List.NoDup idx -> (forall i, In i idx -> 0 <= i) ->
  mapM (getitem l) idx = Ok xs -> List.NoDup xs.
Proof.
  intros Hl. revert xs. induction idx as [| i idx IH]; simpl;
    intros xs Hidx Hpos H.
  - injection H as <-. constructor.
  - apply bind_Ok in H as (x & Hx & H).
    apply bind_Ok in H as (xs' & Hxs & H). injection H as <-.
    inversion Hidx as [| ? ? Hnotin Hidx']; subst.
    constructor; [| apply IH; auto].
    intros Hin. destruct (mapM_Ok_In _ _ _ _ Hxs Hin) as (j & Hj & Hget).
    apply getitem_Ok_nonneg in Hx as [Hx _]; [| apply Hpos; left; reflexivity].
    apply getitem_Ok_nonneg in Hget as [Hget _]; [| apply Hpos; right; exact Hj].
    rewrite NoDup_nth_error in Hl.
    assert (Z.to_nat i = Z.to_nat j).
    { apply Hl; [apply nth_error_Some; congruence | congruence]. }
    assert (i = j).
    { pose proof (Hpos i (or_introl eq_refl)).
      pose proof (Hpos j (or_intror Hj)). lia. }
    subst j. contradiction.
Qed.

(** X3. Every day [get_picked_points] picks is a dip event of the series,
    and no day is picked twice. *)
Theorem picked_days_are_events (series : list Q) (c : calibration) :
  get_picked_points series = Ok c ->
  Forall (dip_event series) (pick_t c) /\ List.NoDup (pick_t c).
Proof.
  intros H.
  destruct (get_picked_points_Ok_inv series c H)
    as (dt & dp & pick_ti & st & i & Hdt & Hdp & Hpo & _ & _ & _ & Hpicked & _).
  destruct (down_t_spec series) as (dt' & Hdt' & _).
  pose proof (down_t_In_iff series dt' Hdt') as Hin.
  pose proof (down_t_increasing series dt' Hdt') as Hsorted.
  rewrite Hdt in Hdt'. injection Hdt' as <-.
  assert (Hev : Forall (dip_event series) dt).
  { apply List.Forall_forall. intros t. apply Hin. }
  destruct (pick_order_positions dp pick_ti Hpo) as (Hpos & _ & Hnd).
  pose proof (mapM_Ok_length _ _ _ Hdp) as Hlen.
  assert (Hpos' : forall j, In j pick_ti -> 0 <= j < len dt).
  { intros j Hj. apply Hpos in Hj. unfold len in *. lia. }
  split.
  - destruct (picks_total series dt pick_ti Hev Hpos' (st_n_pick st))
      as (ts & Hts & Hall).
    unfold slice_to in *. rewrite Hpicked in Hts. injection Hts as <-.
    exact Hall.
  - eapply mapM_getitem_NoDup; [| | | exact Hpicked].
    + apply StronglySorted_lt_NoDup. exact Hsorted.
    + apply NoDup_slice. exact Hnd.
    + intros j Hj. apply In_slice in Hj. apply Hpos'. exact Hj.
Qed.

Lemma picked_days_are_events_witness :
  exists c,
    get_picked_points (qs [100; 100; 100; 100; 100; 90; 99; 100; 80; 81])
    = Ok c /\
    Forall (dip_event (qs [100; 100; 100; 100; 100; 90; 99; 100; 80; 81]))
      (pick_t c) /\
    List.NoDup (pick_t c).
Proof.
  eexists. split; [vm_compute; reflexivity |].
  apply (picked_days_are_events
           (qs [100; 100; 100; 100; 100; 90; 99; 100; 80; 81]) _ eq_refl).
Defined.

(** ** The early-stopping counter *)

Lemma scan_update_tol (st : scan_state) (n_point : Z) (gains : list Q) :
  st_tol st - 1 <= st_tol (scan_update st n_point gains) <= st_tol st.
Proof.
  unfold scan_update. destruct (Qlt_bool _ _); simpl; lia.
Qed.

Lemma scan_tol (series : list Q) (dt pick_ti n_points : list Z)
    (st st' : scan_state) :
  scan series dt pick_ti n_points st = Ok st' -> 0 < st_tol st ->
  0 <= st_tol st' <= st_tol st /\ st_tol st - len n_points <= st_tol st'.
Proof.
  revert st. induction n_points as [| k ks IH]; simpl; intros st H Hpos.
  - injection H as <-. unfold len. simpl. lia.
  - rewrite len_cons. pose proof (len_nonneg ks).
    apply bind_Ok in H as (gains & _ & H).
    destruct (0 <? len gains).
    + pose proof (scan_update_tol st k gains) as Hupd.
      destruct (Z.eqb_spec (st_tol (scan_update st k gains)) 0) as [E | E].
      * injection H as <-. lia.
      * specialize (IH _ H). lia.
    + specialize (IH _ H). lia.
Qed.

(** X5. The counter of the scan ends between 0 and 50, and above 0 when
    the series has at most 50 dip events: the scan then ends because it ran
    out of candidates, not because of the counter. *)
Theorem early_stop_needs_many_events (series : list Q) (dt pick_ti : list Z)
    (st : scan_state) :
  scan series dt pick_ti (scan_range pick_ti) scan_init = Ok st ->
  0 <= st_tol st <= 50 /\ (len pick_ti <= 50 -> 0 < st_tol st).
Proof.
  intros H. destruct (scan_tol _ _ _ _ _ _ H) as [Hb Hlow]; [simpl; lia |].
  simpl in Hb, Hlow. split; [lia |]. intros Hlen.
  unfold scan_range, len in Hlow. rewrite length_range in Hlow.
  unfold len in Hlen. lia.
Qed.

Lemma early_stop_needs_many_events_witness :
  exists st,
    scan (qs [100; 100; 100; 100; 100; 90; 99; 100; 80; 81]) [5; 8] [1; 0]
      (scan_range [1; 0]) scan_init = Ok st /\ 0 < st_tol st.
Proof.
  destruct (scan (qs [100; 100; 100; 100; 100; 90; 99; 100; 80; 81])
              [5; 8] [1; 0] (scan_range [1; 0]) scan_init) as [st | e] eqn:E.
  - exists st. split; [reflexivity |].
    apply (proj2 (early_stop_needs_many_events _ _ _ _ E)).
    unfold len. simpl. lia.
  - vm_compute in E. discriminate E.
Defined.

(** ** When [get_buy_signal] raises *)

(** X6. [get_buy_signal] raises in two cases only, each time with
    [IndexError]: the series has no price, or the price is below the last
    price of the series and the series has no dip event. *)
Theorem get_buy_signal_raises_iff (series : list Q) (price : Q) :
  ((exists e, get_buy_signal series price = Raise e) <->
   series = [] \/
   (exists last, getitem series (-1) = Ok last /\ ~ (last <= price)%Q /\
                 ~ exists t, dip_event series t)) /\
  (forall e, get_buy_signal series price = Raise e -> e = IndexError).
Proof.
  destruct series as [| p0 series0].
  { split.
    - split; [auto | intros _; exists IndexError; reflexivity].
    - intros e H. rewrite get_buy_signal_empty in H. congruence. }
  remember (p0 :: series0) as series eqn:Eseries.
  assert (Hne : series <> []) by (subst; discriminate).
  destruct (getitem_last series Hne) as (last & Hlast & _).
  destruct (trailing_max_exists series Hne) as (m & Hm).
  unfold get_buy_signal. rewrite Hlast. cbn [bind].
  destruct (Qle_bool last price) eqn:E.
  - apply Qle_bool_iff in E. split.
    + split; [intros (e & He); discriminate |].
      intros [Hnil | (last' & Hlast' & Hn & _)]; [contradiction |].
      injection Hlast' as <-. contradiction.
    + intros e He. discriminate.
  - assert (Hn : ~ (last <= price)%Q).
    { intros Hle. apply Qle_bool_iff in Hle. congruence. }
    unfold current_depth. rewrite Hm. cbn [bind].
    destruct (get_picked_points_cases series)
      as [[Hev (c & Hc)] | [Hnone Hraise]].
    + rewrite Hc. cbn [bind]. split.
      * split; [intros (e & He); discriminate |].
        intros [Hnil | (_ & _ & _ & Hnone)]; contradiction.
      * intros e He. discriminate.
    + rewrite Hraise. cbn [bind]. split.
      * split; [| eauto].
        intros _. right. exists last. split; [reflexivity |].
        split; [exact Hn | exact Hnone].
      * intros e He. injection He as <-. reflexivity.
Qed.


(** ** [get_buy_symbols] *)

Lemma buy_loop_Ok (cutoff : Z) (items : list (string * list Q))
    (acc l : list (Q * string)) :
  buy_loop cutoff items acc = Ok l ->
  l = acc ++ flat_map (buy_entry cutoff) items /\
  forall t s, In (t, s) items -> exists r, signal_at s cutoff = Ok r.
Proof.
  revert acc. induction items as [| [ticker series] items IH]; simpl;
    intros acc H.
  - injection H as <-. rewrite app_nil_r. split; [reflexivity |].
    intros t s [].
  - apply bind_Ok in H as ([avg is_buy] & Hsig & H).
    destruct (IH _ H) as [-> Hall]. split.
    + unfold buy_entry at 2. simpl. rewrite Hsig.
      destruct is_buy; simpl; [rewrite <- app_assoc |]; reflexivity.
    + intros t s [[= <- <-] | Hin]; eauto.
Qed.

Lemma buy_loop_total (cutoff : Z) (items : list (string * list Q))
    (acc : list (Q * string)) :
  (forall t s, In (t, s) items -> exists r, signal_at s cutoff = Ok r) ->
  exists l, buy_loop cutoff items acc = Ok l.
Proof.
  revert acc. induction items as [| [ticker series] items IH]; simpl;
    intros acc H; [eauto |].
  destruct (H ticker series) as (r & ->); [auto |]. simpl.
  apply IH. intros t s Hin. apply (H t s). auto.
Qed.

Lemma In_buy_entries (cutoff : Z) (items : list (string * list Q))
    (r : Q) (t : string) :
  In (r, t) (flat_map (buy_entry cutoff) items) <->
  exists s, In (t, s) items /\ signal_at s cutoff = Ok (r, true).
Proof.
  rewrite in_flat_map. split.
  - intros ([t' s] & Hin & He). unfold buy_entry in He. simpl in He.
    destruct (signal_at s cutoff) as [[avg [|]] | e] eqn:E;
      simpl in He; try contradiction.
    destruct He as [[= <- <-] | []]. eauto.
  - intros (s & Hin & Hsig). exists (t, s). split; [exact Hin |].
    unfold buy_entry. simpl. rewrite Hsig. left. reflexivity.
Qed.

Lemma buy_entries_tickers (cutoff : Z) (items : list (string * list Q)) :
  List.NoDup (map fst items) ->
  List.NoDup (map snd (flat_map (buy_entry cutoff) items)).
Proof.
  induction items as [| [t s] items IH]; simpl; intros Hnd; [constructor |].
  inversion Hnd as [| ? ? Hnotin Hnd']; subst.
  rewrite map_app. unfold buy_entry at 1. simpl.
  destruct (signal_at s cutoff) as [[avg [|]] | e]; simpl; auto.
  constructor; [| auto].
  intros Hin. apply in_map_iff in Hin as ([r t'] & Heq & Hin).
  simpl in Heq. subst t'. apply In_buy_entries in Hin as (s' & Hin & _).
  apply Hnotin. apply in_map_iff. exists (t, s'). auto.
Qed.

Lemma map_to_list_keys_NoDup (m : gmap string (list Q)) :
  List.NoDup (map fst (map_to_list m)).
Proof. apply NoDup_ListNoDup. apply (NoDup_fst_map_to_list m). Qed.

Lemma In_map_to_list (m : gmap string (list Q)) (t : string) (s : list Q) :
  In (t, s) (map_to_list m) <-> m !! t = Some s.
Proof. rewrite <- list_elem_of_In. apply elem_of_map_to_list. Qed.

(** X7. [get_buy_symbols] returns a list exactly when the signal of every
    series of the dictionary can be computed: one series whose price at
    [cutoff] or whose signal raises makes the whole call raise. The list
    then holds [(avg_return, ticker)] for the tickers whose signal is a buy,
    and no others, each ticker once. *)
Theorem get_buy_symbols_spec (all_series : gmap string (list Q))
    (cutoff : Z) :
  ((exists l, get_buy_symbols all_series cutoff = Ok l) <->
   (forall t s, all_series !! t = Some s ->
                exists r, signal_at s cutoff = Ok r)) /\
  (forall l, get_buy_symbols all_series cutoff = Ok l ->
     (forall r t,
        In (r, t) l <->
        exists s, all_series !! t = Some s /\
                  signal_at s cutoff = Ok (r, true)) /\
     List.NoDup (map snd l)).
Proof.
  unfold get_buy_symbols. split.
  - split.
    + intros (l & Hl) t s Hts. apply buy_loop_Ok in Hl as [_ Hall].
      apply (Hall t s). apply In_map_to_list. exact Hts.
    + intros Hall. apply buy_loop_total. intros t s Hin.
      apply (Hall t s). apply In_map_to_list. exact Hin.
  - intros l Hl. apply buy_loop_Ok in Hl as [-> _]. simpl. split.
    + intros r t. rewrite In_buy_entries. split.
      * intros (s & Hin & Hsig). exists s. split; [| exact Hsig].
        apply In_map_to_list. exact Hin.
      * intros (s & Hts & Hsig). exists s. split; [| exact Hsig].
        apply In_map_to_list. exact Hts.
    + apply buy_entries_tickers. apply map_to_list_keys_NoDup.
Qed.

Lemma get_buy_symbols_spec_witness :
  (exists l,
     get_buy_symbols
       {[ "DIP" := qs [100; 100; 100; 100; 100; 90; 99; 100; 80; 81; 70] ]}
       10 = Ok l /\ In ((1 # 80)%Q, "DIP") l) /\
  ~ exists l,
      get_buy_symbols
        {[ "DIP" := qs [100; 100; 100; 100; 100; 90; 99; 100; 80; 81; 70];
           "UP" := qs [1; 2; 3; 4; 5; 6; 7; 8; 9; 10; 9] ]} 10 = Ok l.
Proof.
  split.
  - destruct (proj2 (proj1 (get_buy_symbols_spec
                {[ "DIP" := qs [100; 100; 100; 100; 100; 90; 99; 100; 80; 81; 70] ]}
                10))) as (l & Hl).
    { intros t s H. apply lookup_singleton_Some in H as [_ <-].
      eexists. vm_compute. reflexivity. }
    exists l. split; [exact Hl |].
    apply (proj2 (get_buy_symbols_spec _ _) l Hl).
    eexists. split; [reflexivity |]. vm_compute. reflexivity.
  - intros Hex.
    pose proof (proj1 (proj1 (get_buy_symbols_spec
      {[ "DIP" := qs [100; 100; 100; 100; 100; 90; 99; 100; 80; 81; 70];
         "UP" := qs [1; 2; 3; 4; 5; 6; 7; 8; 9; 10; 9] ]} 10)) Hex) as Hall.
    destruct (Hall "UP" (qs [1; 2; 3; 4; 5; 6; 7; 8; 9; 10; 9]) eq_refl)
      as (r & Hr).
    vm_compute in Hr. discriminate Hr.
Defined.

(** The window and the price of line 150, by the value of [cutoff]. *)
Lemma getitem_out_of_range {A} (l : list A) (i : Z) :
  len l <= i \/ i < - len l -> getitem l i = Raise IndexError.
Proof.
  intros H. unfold getitem. pose proof (len_nonneg l).
  destruct (Z.ltb_spec i 0).
  - destruct (Z.ltb_spec (i + len l) 0); [reflexivity |]. lia.
  - destruct (Z.ltb_spec i 0); [lia |].
    destruct (nth_error l (Z.to_nat i)) eqn:E; [| reflexivity].
    assert (Z.to_nat i < length l)%nat by (apply nth_error_Some; congruence).
    unfold len in *. lia.
Qed.

(** X8. For a series of at least [LOOK_BACK_DAY] prices: a [cutoff] from
    [LOOK_BACK_DAY] up to the last position gives [get_buy_signal] the
    [LOOK_BACK_DAY] prices before [cutoff]; a [cutoff] from 0 up to
    [LOOK_BACK_DAY - 1] makes the lower bound of the slice negative, the
    window empty and the call raise [IndexError]; and a [cutoff] past the
    last position raises [IndexError]. *)
Theorem signal_at_window (series : list Q) (cutoff : Z) :
  LOOK_BACK_DAY <= len series ->
  (LOOK_BACK_DAY <= cutoff < len series ->
   exists price,
     getitem series cutoff = Ok price /\
     signal_at series cutoff =
       get_buy_signal
         (firstn (Z.to_nat LOOK_BACK_DAY)
            (skipn (Z.to_nat (cutoff - LOOK_BACK_DAY)) series))
         price /\
     len (firstn (Z.to_nat LOOK_BACK_DAY)
            (skipn (Z.to_nat (cutoff - LOOK_BACK_DAY)) series))
     = LOOK_BACK_DAY) /\
  (0 <= cutoff < LOOK_BACK_DAY ->
   slice series (cutoff - LOOK_BACK_DAY) cutoff = [] /\
   signal_at series cutoff = Raise IndexError) /\
  (len series <= cutoff -> signal_at series cutoff = Raise IndexError).
Proof.
  unfold LOOK_BACK_DAY. intros Hlen. split; [| split].
  - intros Hc.
    destruct (getitem_in_range series cutoff) as (price & Hp & _); [lia |].
    exists price. split; [exact Hp |].
    unfold signal_at, LOOK_BACK_DAY. rewrite Hp. cbn [bind].
    unfold slice, clamp.
    destruct (Z.ltb_spec (cutoff - 250) 0); [lia |].
    destruct (Z.ltb_spec cutoff 0); [lia |].
    rewrite !Z.min_l by lia.
    replace (cutoff - (cutoff - 250)) with 250 by lia.
    split; [reflexivity |].
    unfold len. rewrite length_firstn, length_skipn. unfold len in *. lia.
  - intros Hc.
    assert (Hw : slice series (cutoff - 250) cutoff = []).
    { unfold slice, clamp.
      destruct (Z.ltb_spec (cutoff - 250) 0); [| lia].
      destruct (Z.ltb_spec cutoff 0); [lia |].
      replace (Z.to_nat (Z.min cutoff (len series)
                         - Z.max (cutoff - 250 + len series) 0))
        with 0%nat by lia.
      reflexivity. }
    split; [exact Hw |].
    destruct (getitem_in_range series cutoff) as (price & Hp & _); [lia |].
    unfold signal_at, LOOK_BACK_DAY. rewrite Hp, Hw. reflexivity.
  - intros Hc. unfold signal_at.
    rewrite getitem_out_of_range by (left; exact Hc). reflexivity.
Qed.

Lemma signal_at_window_witness :
  signal_at (repeat (1 # 1)%Q 300) 100 = Raise IndexError /\
  signal_at (repeat (1 # 1)%Q 300) 300 = Raise IndexError /\
  exists price, getitem (repeat (1 # 1)%Q 300) 260 = Ok price.
Proof.
  destruct (signal_at_window (repeat (1 # 1)%Q 300) 100) as (_ & H1 & _).
  { vm_compute. discriminate. }
  destruct (signal_at_window (repeat (1 # 1)%Q 300) 300) as (_ & _ & H2).
  { vm_compute. discriminate. }
  destruct (signal_at_window (repeat (1 # 1)%Q 300) 260) as (H3 & _ & _).
  { vm_compute. discriminate. }
  split; [| split].
  - apply H1. split; [lia | reflexivity].
  - apply H2. vm_compute. discriminate.
  - destruct H3 as (price & Hp & _).
    + split; [vm_compute; discriminate | reflexivity].
    + exists price. exact Hp.
Defined.

(** ** [get_trading_list], again *)

Section SortedInput.
Context {A : Type} (lt : A -> A -> bool).
Hypothesis lt_asym : forall a b, lt a b = true -> lt b a = false.

Lemma sort_asc_of_sorted (l : list A) :
  Sorted (asc lt) l -> sort_asc lt l = l.
Proof.
  induction 1 as [| x l Hs IH Hhd]; simpl; [reflexivity |].
  rewrite IH. destruct Hhd as [| y l' Hxy]; simpl; [reflexivity |].
  unfold asc in Hxy. rewrite Hxy. reflexivity.
Qed.

(** Sorting what is sorted changes nothing. *)
Lemma sort_reverse_idempotent (l : list A) :
  sort_reverse lt (sort_reverse lt l) = sort_reverse lt l.
Proof.
  unfold sort_reverse. rewrite rev_involutive.
  rewrite sort_asc_of_sorted; [reflexivity |].
  apply sort_asc_sorted. exact lt_asym.
Qed.
End SortedInput.

(** X9. [get_trading_list] is idempotent: called on the list a first call
    left behind, it leaves the list as it is and returns the same trading
    list. *)
Theorem get_trading_list_idempotent (buy_symbols : list (Q * string)) :
  get_trading_list (fst (get_trading_list buy_symbols))
  = get_trading_list buy_symbols.
Proof.
  unfold get_trading_list. simpl.
  rewrite (sort_reverse_idempotent tuple_lt tuple_lt_asym). reflexivity.
Qed.

(** Two sorted lists of the same elements are the same list, when the
    order tells the elements of the list apart. *)
Lemma sorted_perm_unique {A} (R : A -> A -> Prop) (l1 l2 : list A) :
  StronglySorted R l1 -> StronglySorted R l2 -> Permutation l1 l2 ->
  (forall a b, In a l1 -> In b l1 -> R a b -> R b a -> a = b) ->
  l1 = l2.
Proof.
  intros H1. revert l2. induction H1 as [| x l1 Hs1 IH Hall1];
    intros l2 H2 Hperm Hanti.
  - apply Permutation_nil in Hperm. congruence.
  - destruct H2 as [| y l2 Hs2 Hall2].
    { symmetry in Hperm. apply Permutation_nil in Hperm. discriminate. }
    rewrite List.Forall_forall in Hall1, Hall2.
    assert (Hxy : x = y).
    { assert (Hx : In x (y :: l2)).
      { eapply Permutation_in; [exact Hperm | left; reflexivity]. }
      assert (Hy : In y (x :: l1)).
      { eapply Permutation_in; [symmetry; exact Hperm | left; reflexivity]. }
      destruct Hx as [-> | Hx]; [reflexivity |].
      destruct Hy as [-> | Hy]; [reflexivity |].
      apply Hanti; [left; reflexivity | right; exact Hy | auto | auto]. }
    subst y. f_equal. apply IH.
    + exact Hs2.
    + eapply Permutation_cons_inv. exact Hperm.
    + intros a b Ha Hb. apply Hanti; right; assumption.
Qed.

Lemma tuple_desc_antisym (a b : Q * string) :
  desc tuple_lt a b -> desc tuple_lt b a -> snd a = snd b.
Proof.
  unfold desc, tuple_lt.
  destruct (Qeq_bool (fst a) (fst b)) eqn:E.
  - apply Qeq_bool_iff in E.
    assert (E' : Qeq_bool (fst b) (fst a) = true)
      by (apply Qeq_bool_iff; lra).
    rewrite E'. rewrite !string_ltb_false_iff. intros H1 H2.
    apply String.compare_eq_iff.
    rewrite (String.compare_antisym (snd b) (snd a)) in H1.
    destruct (String.compare (snd a) (snd b)); simpl in *; congruence.
  - apply Qeq_bool_neq in E.
    destruct (Qeq_bool (fst b) (fst a)) eqn:E'.
    { apply Qeq_bool_iff in E'. exfalso. apply E. lra. }
    rewrite !Qlt_bool_false. intros H1 H2. exfalso. apply E. lra.
Qed.

Lemma NoDup_map_snd_eq {A B} (l : list (A * B)) (a b : A * B) :
  List.NoDup (map snd l) -> In a l -> In b l -> snd a = snd b -> a = b.
Proof.
  induction l as [| x l IH]; simpl; intros Hnd Ha Hb Heq; [destruct Ha |].
  inversion Hnd as [| ? ? Hnotin Hnd']; subst.
  destruct Ha as [-> | Ha]; destruct Hb as [-> | Hb]; auto.
  - exfalso. apply Hnotin. rewrite Heq. apply in_map. exact Hb.
  - exfalso. apply Hnotin. rewrite <- Heq. apply in_map. exact Ha.
Qed.

(** X10. With tickers all different, what [get_trading_list] leaves in the
    list and what it returns do not depend on the order of the list it is
    given. *)
Theorem get_trading_list_order_independent
    (buy_symbols buy_symbols' : list (Q * string)) :
  Permutation buy_symbols buy_symbols' ->
  List.NoDup (map snd buy_symbols) ->
  get_trading_list buy_symbols = get_trading_list buy_symbols'.
Proof.
  intros Hperm Hnd. unfold get_trading_list. simpl.
  assert (Heq : sort_reverse tuple_lt buy_symbols
                = sort_reverse tuple_lt buy_symbols').
  { apply (sorted_perm_unique (desc tuple_lt)).
    - apply Sorted_StronglySorted; [exact tuple_desc_trans |].
      apply sort_reverse_sorted. exact tuple_lt_asym.
    - apply Sorted_StronglySorted; [exact tuple_desc_trans |].
      apply sort_reverse_sorted. exact tuple_lt_asym.
    - rewrite <- !sort_reverse_perm. exact Hperm.
    - intros a b Ha Hb Hab Hba.
      apply (NoDup_map_snd_eq (sort_reverse tuple_lt buy_symbols));
        [| exact Ha | exact Hb | apply tuple_desc_antisym; assumption].
      eapply Permutation_NoDup; [| exact Hnd].
      apply Permutation_map. apply sort_reverse_perm. }
  rewrite Heq. reflexivity.
Qed.

Lemma get_trading_list_order_independent_witness :
  get_trading_list [(2 # 100, "A"); (5 # 100, "B"); (3 # 100, "C")]%Q
  = get_trading_list [(3 # 100, "C"); (2 # 100, "A"); (5 # 100, "B")]%Q.
Proof.
  apply get_trading_list_order_independent.
  - apply Permutation_cons_app with (l1 := [(3 # 100, "C")]%Q)
                                     (l2 := [(5 # 100, "B")]%Q).
    apply perm_swap.
  - simpl. repeat constructor; simpl; intuition discriminate.
Defined.

Lemma StronglySorted_firstn {A} (R : A -> A -> Prop) (n : nat) (l : list A) :
  StronglySorted R l -> StronglySorted R (firstn n l).
Proof.
  intros H. revert n. induction H as [| x l Hs IH Hall]; intros [| n];
    simpl; try constructor.
  - apply IH.
  - rewrite List.Forall_forall in *. intros y Hy. apply Hall.
    rewrite <- (firstn_skipn n l). apply in_or_app. left. exact Hy.
Qed.

Lemma In_firstn {A} (n : nat) (l : list A) (x : A) :
  In x (firstn n l) -> In x l.
Proof.
  intros H. rewrite <- (firstn_skipn n l). apply in_or_app. left. exact H.
Qed.

(** X11. The list [get_trading_list] returns has at most [MAX_STOCK_PICK]
    entries, its tickers are tickers of the list it was given, in the order
    of the sorted list, and its proportions never increase from one entry
    to the next. *)
Theorem trading_list_shape (buy_symbols : list (Q * string))
    (trading_list : list (string * Q)) :
  snd (get_trading_list buy_symbols) = Ok trading_list ->
  len trading_list <= MAX_STOCK_PICK /\
  (length trading_list <= length buy_symbols)%nat /\
  map fst trading_list =
    map snd (firstn (length trading_list) (fst (get_trading_list buy_symbols)))
  /\
  (forall t, In t (map fst trading_list) -> In t (map snd buy_symbols)) /\
  StronglySorted (fun a b => snd b <= snd a)%Q trading_list.
Proof.
  simpl. set (sorted_symbols := sort_reverse tuple_lt buy_symbols).
  destruct (trading_list_of_spec sorted_symbols)
    as (n & _ & Hmax & Hlen & Hacc & _ & Htl).
  rewrite Htl. intros [= <-].
  remember (firstn n sorted_symbols) as accepted eqn:Eacc.
  assert (Hn : length accepted = n).
  { subst accepted. rewrite length_firstn. lia. }
  assert (Hperm : Permutation buy_symbols sorted_symbols)
    by apply sort_reverse_perm.
  rewrite length_map, Hn, <- Eacc. unfold len. rewrite length_map, Hn.
  split; [exact Hmax |].
  split; [rewrite (Permutation_length Hperm); exact Hlen |].
  split; [rewrite map_map; reflexivity |].
  split.
  - intros t Ht. rewrite map_map in Ht. simpl in Ht.
    apply in_map_iff in Ht as (e & <- & He). apply in_map.
    eapply Permutation_in; [symmetry; exact Hperm |].
    subst accepted. eapply In_firstn. exact He.
  - destruct accepted as [| e0 es] eqn:Eacc'; [constructor |].
    rewrite <- Eacc' in *.
    set (total := Qsum (map fst accepted)).
    assert (Htot : (0 < total)%Q).
    { apply Qsum_pos.
      - rewrite Eacc'. discriminate.
      - clear -Hacc. induction Hacc; simpl; constructor; [lra | assumption]. }
    assert (Hs : StronglySorted (fun a b => fst b <= fst a)%Q accepted).
    { rewrite Eacc. apply StronglySorted_firstn.
      apply sorted_returns_descend. }
    apply (StronglySorted_map (fun a b : Q * string => fst b <= fst a)%Q);
      [| exact Hs].
    intros a b Hab. simpl. unfold proportion, Qdiv.
    pose proof (Qinv_lt_0_compat total Htot) as Hinv.
    fold total. nra.
Qed.

Lemma trading_list_shape_witness :
  exists trading_list,
    snd (get_trading_list
           [(2 # 100, "A"); (5 # 100, "B"); (4 # 100, "C"); (3 # 100, "D")]%Q)
    = Ok trading_list /\
    map fst trading_list = ["B"; "C"; "D"] /\
    StronglySorted (fun a b => snd b <= snd a)%Q trading_list.
Proof.
  eexists. split; [vm_compute; reflexivity |].
  destruct (trading_list_shape
              [(2 # 100, "A"); (5 # 100, "B"); (4 # 100, "C"); (3 # 100, "D")]%Q
              _ eq_refl) as (_ & _ & Hmap & _ & Hs).
  split; [exact Hmap | exact Hs].
Defined.

Lemma Qsum_constant (r : Q) (l : list Q) :
  Forall (fun x => x == r)%Q l -> (Qsum l == inject_Z (len l) * r)%Q.
Proof.
  induction 1 as [| x l Hx Hl IH].
  - unfold Qsum, len. simpl. ring.
  - rewrite Qsum_cons, IH, len_cons, inject_Z_plus, Hx. ring.
Qed.

(** X12. In exact arithmetic, when the accepted symbols all have the same
    return, each of the [n] accepted symbols gets the proportion [1 / n]. *)
Theorem equal_returns_equal_shares (buy_symbols : list (Q * string))
    (trading_list : list (string * Q)) (r : Q) :
  snd (get_trading_list buy_symbols) = Ok trading_list ->
  Forall (fun e => fst e == r)%Q
    (firstn (length trading_list) (fst (get_trading_list buy_symbols))) ->
  Forall (fun p => snd p == 1 / inject_Z (len trading_list))%Q trading_list.
Proof.
  simpl. set (sorted_symbols := sort_reverse tuple_lt buy_symbols).
  destruct (trading_list_of_spec sorted_symbols)
    as (n & _ & _ & Hlen & Hacc & _ & Htl).
  rewrite Htl. intros [= <-].
  remember (firstn n sorted_symbols) as accepted eqn:Eacc.
  assert (Hn : length accepted = n).
  { subst accepted. rewrite length_firstn. lia. }
  rewrite length_map, Hn, <- Eacc. unfold len. rewrite length_map, Hn.
  intros Heq.
  destruct accepted as [| e0 es] eqn:Eacc'; [constructor |].
  rewrite <- Eacc' in *.
  assert (Hn0 : (1 <= inject_Z (Z.of_nat n))%Q).
  { rewrite <- Hn, Eacc'. unfold Qle. simpl. lia. }
  assert (Hr : (1 # 100 <= r)%Q).
  { rewrite Eacc' in Hacc, Heq.
    inversion Hacc; subst. inversion Heq; subst. lra. }
  assert (Htot : (Qsum (map fst accepted) == inject_Z (Z.of_nat n) * r)%Q).
  { rewrite (Qsum_constant r).
    - unfold len. rewrite length_map, Hn. reflexivity.
    - clear -Heq. induction Heq; simpl; constructor; assumption. }
  apply List.Forall_forall. intros p Hp.
  apply in_map_iff in Hp as (e & <- & He). simpl.
  rewrite List.Forall_forall in Heq. specialize (Heq e He).
  unfold proportion. rewrite Htot, Heq. field. split; lra.
Qed.

Lemma equal_returns_equal_shares_witness :
  exists trading_list,
    snd (get_trading_list [(5 # 100, "A"); (5 # 100, "B"); (5 # 100, "C")]%Q)
    = Ok trading_list /\
    Forall (fun p => snd p == 1 / inject_Z (len trading_list))%Q trading_list.
Proof.
  eexists. split; [vm_compute; reflexivity |].
  apply (equal_returns_equal_shares
           [(5 # 100, "A"); (5 # 100, "B"); (5 # 100, "C")]%Q _ (5 # 100)%Q).
  - vm_compute. reflexivity.
  - simpl. repeat constructor.
Defined.

(** ** [filter_garbage_series], again *)

Lemma retains_high_Ok_nonempty (series : list Q) (b : bool) :
  retains_high series = Ok b -> series <> [].
Proof. intros H ->. discriminate H. Qed.

Lemma retains_high_Raise (series : list Q) (e : exn) :
  retains_high series = Raise e -> series = [] /\ e = ValueError.
Proof.
  destruct series as [| p series].
  - intros [= <-]. auto.
  - intros H.
    destruct (retains_high_spec (p :: series))
      as (m & last & b & _ & _ & Hb & _); [discriminate | congruence].
Qed.

Lemma garbage_loop_Ok_nonempty (items : list (string * list Q))
    (res res' : gmap string (list Q)) :
  garbage_loop items res = Ok res' ->
  forall k s, (k, s) ∈ items -> s <> [].
Proof.
  revert res. induction items as [| [ticker series] items IH]; simpl;
    intros res H k s Hin.
  - inversion Hin.
  - apply bind_Ok in H as (b & Hb & H).
    apply elem_of_cons in Hin as [[= -> ->] | Hin].
    + eapply retains_high_Ok_nonempty. exact Hb.
    + eapply IH; eassumption.
Qed.

Lemma garbage_loop_Raise (items : list (string * list Q))
    (res : gmap string (list Q)) (e : exn) :
  garbage_loop items res = Raise e ->
  e = ValueError /\ exists k, (k, []) ∈ items.
Proof.
  revert res. induction items as [| [ticker series] items IH]; simpl;
    intros res H; [discriminate |].
  destruct (retains_high series) as [b | e0] eqn:Hb; simpl in H.
  - destruct (IH _ H) as (-> & k & Hk). split; [reflexivity |].
    exists k. right. exact Hk.
  - injection H as <-. apply retains_high_Raise in Hb as [-> ->].
    split; [reflexivity |]. exists ticker. left.
Qed.

(** X13. [filter_garbage_series] raises exactly when the dictionary holds a
    series without a price, and what it raises is the [ValueError] of
    [np.max]. *)
Theorem filter_garbage_series_raises_iff (all_series : gmap string (list Q)) :
  ((exists e, filter_garbage_series all_series = Raise e) <->
   (exists ticker, all_series !! ticker = Some [])) /\
  (forall e, filter_garbage_series all_series = Raise e -> e = ValueError).
Proof.
  unfold filter_garbage_series. split.
  - split.
    + intros (e & He). apply garbage_loop_Raise in He as (_ & k & Hk).
      exists k. apply elem_of_map_to_list. exact Hk.
    + intros (k & Hk).
      destruct (garbage_loop (map_to_list all_series) ∅) as [res | e] eqn:E;
        [| eauto].
      exfalso. eapply (garbage_loop_Ok_nonempty _ _ _ E k []);
        [apply elem_of_map_to_list; exact Hk | reflexivity].
  - intros e He. apply garbage_loop_Raise in He as [-> _]. reflexivity.
Qed.

(** What [filter_garbage_series] returns, whenever it returns. *)
Lemma filter_garbage_series_Ok (all_series res : gmap string (list Q)) :
  filter_garbage_series all_series = Ok res ->
  forall k s, res !! k = Some s <->
              all_series !! k = Some s /\ retains_high s = Ok true.
Proof.
  unfold filter_garbage_series. intros H.
  destruct (garbage_loop_spec (map_to_list all_series) ∅)
    as (res' & Hres' & Hspec).
  { eapply garbage_loop_Ok_nonempty. exact H. }
  { apply NoDup_fst_map_to_list. }
  { intros k _. apply lookup_empty. }
  rewrite H in Hres'. injection Hres' as <-.
  intros k s. rewrite Hspec, lookup_empty, elem_of_map_to_list.
  split; [intros [Hn | Hs]; [discriminate | exact Hs] | auto].
Qed.

Lemma filter_garbage_series_total (all_series : gmap string (list Q)) :
  (forall k s, all_series !! k = Some s -> s <> []) ->
  exists res, filter_garbage_series all_series = Ok res.
Proof.
  intros Hne. unfold filter_garbage_series.
  destruct (garbage_loop_spec (map_to_list all_series) ∅)
    as (res & Hres & _).
  { intros k s Hks. apply elem_of_map_to_list in Hks. eauto. }
  { apply NoDup_fst_map_to_list. }
  { intros k _. apply lookup_empty. }
  eauto.
Qed.

(** X14. [filter_garbage_series] is idempotent: filtering what it returned
    returns the same dictionary. *)
Theorem filter_garbage_series_idempotent
    (all_series res : gmap string (list Q)) :
  filter_garbage_series all_series = Ok res ->
  filter_garbage_series res = Ok res.
Proof.
  intros H. pose proof (filter_garbage_series_Ok _ _ H) as Hspec.
  destruct (filter_garbage_series_total res) as (res2 & H2).
  { intros k s Hks. apply Hspec in Hks as [_ Hr].
    eapply retains_high_Ok_nonempty. exact Hr. }
  rewrite H2. f_equal.
  pose proof (filter_garbage_series_Ok _ _ H2) as Hspec2.
  apply map_eq. intros k. apply option_eq. intros s.
  rewrite Hspec2. split; [intros [Hs _]; exact Hs |].
  intros Hs. split; [exact Hs |]. apply Hspec in Hs as [_ Hr]. exact Hr.
Qed.

Lemma filter_garbage_series_idempotent_witness :
  exists res,
    filter_garbage_series
      {[ "LOW" := qs [100; 200; 130]; "HIGH" := qs [100; 200; 150] ]}
    = Ok res /\ filter_garbage_series res = Ok res.
Proof.
  destruct (filter_garbage_series
              {[ "LOW" := qs [100; 200; 130]; "HIGH" := qs [100; 200; 150] ]})
    as [res | e] eqn:E.
  - exists res. split; [reflexivity |].
    apply (filter_garbage_series_idempotent _ _ E).
  - vm_compute in E. discriminate E.
Defined.

(** ** [filter_low_volume_series], again *)

Section VolumeMore.
Variable requests_get : string -> nat -> result response.
Variable volumes : gmap string Z.

(** The flag of line 127 tells a fetched volume from a cached one. *)
Lemma volume_of_fetched (ticker : string) (v : Z * bool) :
  volume_of requests_get volumes ticker = Ok v ->
  (snd v = true <-> volumes !! ticker = None) /\
  (snd v = false -> volumes !! ticker = Some (fst v)).
Proof.
  unfold volume_of. destruct (volumes !! ticker) as [vol |] eqn:E.
  - intros [= <-]. simpl. split; [split; discriminate | auto].
  - intros H. apply bind_Ok in H as (s & _ & H).
    apply bind_Ok in H as (vol & _ & H). injection H as <-. simpl.
    split; [split; auto | discriminate].
Qed.

Lemma volume_loop_Ok_inv (items : list (string * list Q))
    (res res' : gmap string (list Q)) (ow ow' : bool) :
  volume_loop requests_get volumes items res ow = Ok (res', ow') ->
  (forall k s, (k, s) ∈ items ->
     exists v, volume_of requests_get volumes k = Ok v) /\
  (ow' = true <->
   ow = true \/ exists k s, (k, s) ∈ items /\ volumes !! k = None).
Proof.
  revert res ow. induction items as [| [ticker series] items IH]; simpl;
    intros res ow H.
  - injection H as <- <-. split.
    + intros k s Hin. inversion Hin.
    + split; [auto |]. intros [Hw | (k & s & Hin & _)]; [exact Hw |].
      inversion Hin.
  - apply bind_Ok in H as (v & Hv & H).
    destruct (IH _ _ H) as [Hall Hflag].
    destruct (volume_of_fetched ticker v Hv) as [Hfetched _]. split.
    + intros k s Hin. apply elem_of_cons in Hin as [[= -> ->] | Hin]; eauto.
    + rewrite Hflag, orb_true_iff, Hfetched. split.
      * intros [[Hw | Hnone] | (k & s & Hin & Hk)]; auto.
        -- right. exists ticker, series. split; [left | exact Hnone].
        -- right. exists k, s. split; [right; exact Hin | exact Hk].
      * intros [Hw | (k & s & Hin & Hk)]; auto.
        apply elem_of_cons in Hin as [[= -> ->] | Hin]; [auto |].
        right. eauto.
Qed.

(** What [filter_low_volume_series] returns, whenever it returns. *)
Lemma filter_low_volume_series_Ok (all_series res : gmap string (list Q))
    (written : option (gmap string Z)) :
  filter_low_volume_series requests_get volumes all_series
  = Ok (res, written) ->
  (forall k s, all_series !! k = Some s ->
     exists v, volume_of requests_get volumes k = Ok v) /\
  (forall k s,
     res !! k = Some s <->
     all_series !! k = Some s /\
     exists v, volume_of requests_get volumes k = Ok v /\
               VOLUME_FILTER_THRESHOLD <= fst v) /\
  (written = Some volumes <->
   exists k s, all_series !! k = Some s /\ volumes !! k = None) /\
  (written = None <->
   forall k s, all_series !! k = Some s -> is_Some (volumes !! k)).
Proof.
  unfold filter_low_volume_series. intros H.
  apply bind_Ok in H as ([res0 ow] & Hloop & H). simpl in H.
  injection H as <- <-.
  destruct (volume_loop_Ok_inv _ _ _ _ _ Hloop) as [Hall Hflag].
  assert (Hall' : forall k s, all_series !! k = Some s ->
                    exists v, volume_of requests_get volumes k = Ok v).
  { intros k s Hks. apply (Hall k s). apply elem_of_map_to_list. exact Hks. }
  assert (Hmiss : ow = true <->
                  exists k s, all_series !! k = Some s /\ volumes !! k = None).
  { rewrite Hflag. split.
    - intros [Hf | (k & s & Hin & Hk)]; [discriminate |].
      exists k, s. split; [apply elem_of_map_to_list; exact Hin | exact Hk].
    - intros (k & s & Hks & Hk). right. exists k, s.
      split; [apply elem_of_map_to_list; exact Hks | exact Hk]. }
  split; [exact Hall' |]. split; [| split].
  - destruct (volume_loop_spec requests_get volumes
                (map_to_list all_series) ∅ false)
      as (res' & ow' & Hloop' & Hspec).
    { exact Hall. }
    { apply NoDup_fst_map_to_list. }
    { intros k _. apply lookup_empty. }
    rewrite Hloop in Hloop'. injection Hloop' as <- <-.
    intros k s. rewrite Hspec, lookup_empty, elem_of_map_to_list.
    split; [intros [Hn | Hs]; [discriminate | exact Hs] | auto].
  - rewrite <- Hmiss. destruct ow; split; congruence.
  - split.
    + intros Hw k s Hks.
      destruct (volumes !! k) as [v |] eqn:E; [eauto |].
      assert (ow = true) by (apply Hmiss; eauto).
      subst ow. discriminate.
    + intros Hcached. destruct ow; [| reflexivity].
      destruct (proj1 Hmiss eq_refl) as (k & s & Hks & Hk).
      destruct (Hcached k s Hks) as (v & Hv). congruence.
Qed.
End VolumeMore.

(** X15. When [filter_low_volume_series] returns, the cache file is
    rewritten exactly when some ticker of the dictionary is missing from
    the cache, and left alone exactly when every ticker is in it; what is
    written is the content that was read, without the volumes fetched. *)
Theorem volume_cache_rewritten_iff
    (requests_get : string -> nat -> result response)
    (volumes : gmap string Z) (all_series res : gmap string (list Q))
    (written : option (gmap string Z)) :
  filter_low_volume_series requests_get volumes all_series
  = Ok (res, written) ->
  (written = Some volumes <->
   exists k s, all_series !! k = Some s /\ volumes !! k = None) /\
  (written = None <->
   forall k s, all_series !! k = Some s -> is_Some (volumes !! k)).
Proof.
  intros H.
  destruct (filter_low_volume_series_Ok _ _ _ _ _ H) as (_ & _ & Hw & Hn).
  split; assumption.
Qed.

Lemma volume_cache_rewritten_iff_witness :
  exists res,
    filter_low_volume_series service_quote {[ "AAA" := 20000 ]}
      {[ "AAA" := qs [1; 2]; "ZZZ" := qs [3; 4] ]}
    = Ok (res, Some {[ "AAA" := 20000 ]}).
Proof.
  destruct (filter_low_volume_series service_quote {[ "AAA" := 20000 ]}
              {[ "AAA" := qs [1; 2]; "ZZZ" := qs [3; 4] ]})
    as [[res written] | e] eqn:E.
  - destruct (volume_cache_rewritten_iff _ _ _ _ _ E) as [Hw _].
    exists res. f_equal. f_equal. apply Hw.
    exists "ZZZ", (qs [3; 4]). split; reflexivity.
  - vm_compute in E. discriminate E.
Defined.

Section VolumeCompose.
Variable volumes : gmap string Z.

Lemma filter_low_volume_series_total
    (requests_get : string -> nat -> result response)
    (all_series : gmap string (list Q)) :
  (forall k s, all_series !! k = Some s ->
     exists v, volume_of requests_get volumes k = Ok v) ->
  exists res written,
    filter_low_volume_series requests_get volumes all_series
    = Ok (res, written).
Proof.
  intros Hall. unfold filter_low_volume_series.
  destruct (volume_loop_spec requests_get volumes
              (map_to_list all_series) ∅ false)
    as (res & ow & Hloop & _).
  { intros k s Hks. apply elem_of_map_to_list in Hks. eauto. }
  { apply NoDup_fst_map_to_list. }
  { intros k _. apply lookup_empty. }
  rewrite Hloop. simpl. eauto.
Qed.

Lemma volume_of_cached (requests_get : string -> nat -> result response)
    (ticker : string) (v : Z) :
  volumes !! ticker = Some v ->
  volume_of requests_get volumes ticker = Ok (v, false).
Proof. intros H. unfold volume_of. rewrite H. reflexivity. Qed.

(** X16. When the cache holds every ticker of the dictionary,
    [filter_low_volume_series] asks the service nothing: whatever the
    service would answer, it returns the tickers whose cached volume is at
    least [VOLUME_FILTER_THRESHOLD], each with its series, and leaves the
    cache file alone. *)
Theorem cached_volumes_need_no_request (all_series : gmap string (list Q)) :
  (forall k s, all_series !! k = Some s -> is_Some (volumes !! k)) ->
  exists res,
    (forall requests_get,
       filter_low_volume_series requests_get volumes all_series
       = Ok (res, None)) /\
    (forall k s,
       res !! k = Some s <->
       all_series !! k = Some s /\
       exists v, volumes !! k = Some v /\ VOLUME_FILTER_THRESHOLD <= v).
Proof.
  intros Hcached.
  assert (Hany : forall requests_get,
    exists res,
      filter_low_volume_series requests_get volumes all_series
      = Ok (res, None) /\
      forall k s,
        res !! k = Some s <->
        all_series !! k = Some s /\
        exists v, volumes !! k = Some v /\ VOLUME_FILTER_THRESHOLD <= v).
  { intros requests_get.
    destruct (filter_low_volume_series_total requests_get all_series)
      as (res & written & H).
    { intros k s Hks. destruct (Hcached k s Hks) as (v & Hv).
      exists (v, false). apply volume_of_cached. exact Hv. }
    destruct (filter_low_volume_series_Ok _ _ _ _ _ H)
      as (_ & Hspec & _ & Hnone).
    assert (written = None) as -> by (apply Hnone; exact Hcached).
    exists res. split; [exact H |].
    intros k s. rewrite Hspec. split.
    - intros (Hks & v & Hv & Hge). split; [exact Hks |].
      destruct (Hcached k s Hks) as (vol & Hvol).
      rewrite (volume_of_cached requests_get k vol Hvol) in Hv.
      injection Hv as <-. eauto.
    - intros (Hks & v & Hv & Hge). split; [exact Hks |].
      exists (v, false). split; [apply volume_of_cached; exact Hv | exact Hge]. }
  destruct (Hany (fun _ _ => Raise RequestException)) as (res & _ & Hspec).
  exists res. split; [| exact Hspec].
  intros requests_get. destruct (Hany requests_get) as (res' & H' & Hspec').
  rewrite H'. do 2 f_equal.
  apply map_eq. intros k. apply option_eq. intros s.
  rewrite Hspec, Hspec'. reflexivity.
Qed.
End VolumeCompose.

Lemma cached_volumes_need_no_request_witness :
  exists res,
    (forall requests_get,
       filter_low_volume_series requests_get
         {[ "AAA" := 20000; "ZZZ" := 500 ]}
         {[ "AAA" := qs [1; 2]; "ZZZ" := qs [3; 4] ]}
       = Ok (res, None)) /\
    res !! "AAA" = Some (qs [1; 2]) /\ res !! "ZZZ" = None.
Proof.
  destruct (cached_volumes_need_no_request
              {[ "AAA" := 20000; "ZZZ" := 500 ]}
              {[ "AAA" := qs [1; 2]; "ZZZ" := qs [3; 4] ]})
    as (res & Hall & Hspec).
  - intros k s H. destruct (decide (k = "AAA")) as [-> | Ha].
    + eexists. reflexivity.
    + rewrite lookup_insert_ne in H by congruence.
      apply lookup_singleton_Some in H as [<- _]. eexists. reflexivity.
  - exists res. split; [exact Hall |]. split.
    + apply Hspec. split; [reflexivity |]. exists 20000.
      split; [reflexivity |]. unfold VOLUME_FILTER_THRESHOLD. lia.
    + destruct (res !! "ZZZ") as [s |] eqn:E; [| reflexivity].
      apply Hspec in E as (_ & v & Hv & Hge).
      vm_compute in Hv. injection Hv as <-.
      unfold VOLUME_FILTER_THRESHOLD in Hge. lia.
Defined.

(** X17. The two filters commute: when each of them returns on the whole
    dictionary, each returns on what the other kept, and both orders keep
    the same tickers with the same series. *)
Theorem universe_filters_commute
    (requests_get : string -> nat -> result response)
    (volumes : gmap string Z)
    (all_series kept_g kept_v : gmap string (list Q))
    (written : option (gmap string Z)) :
  filter_garbage_series all_series = Ok kept_g ->
  filter_low_volume_series requests_get volumes all_series
  = Ok (kept_v, written) ->
  exists kept written',
    filter_low_volume_series requests_get volumes kept_g
    = Ok (kept, written') /\
    filter_garbage_series kept_v = Ok kept.
Proof.
  intros Hg Hv.
  pose proof (filter_garbage_series_Ok _ _ Hg) as Hgspec.
  destruct (filter_low_volume_series_Ok _ _ _ _ _ Hv) as (Hall & Hvspec & _).
  destruct (filter_low_volume_series_total volumes requests_get kept_g)
    as (kept & written' & Hgv).
  { intros k s Hks. apply Hgspec in Hks as [Hks _]. eauto. }
  destruct (filter_garbage_series_total kept_v) as (kept' & Hvg).
  { intros k s Hks. apply Hvspec in Hks as [Hks _].
    unfold filter_garbage_series in Hg.
    eapply (garbage_loop_Ok_nonempty _ _ _ Hg k).
    apply elem_of_map_to_list. exact Hks. }
  exists kept, written'. split; [exact Hgv |].
  rewrite Hvg. f_equal.
  destruct (filter_low_volume_series_Ok _ _ _ _ _ Hgv) as (_ & Hgvspec & _).
  pose proof (filter_garbage_series_Ok _ _ Hvg) as Hvgspec.
  apply map_eq. intros k. apply option_eq. intros s.
  rewrite Hvgspec, Hgvspec, Hvspec, Hgspec. tauto.
Qed.

Lemma universe_filters_commute_witness :
  exists kept_g kept_v written kept written',
    filter_garbage_series
      {[ "LOW" := qs [100; 200; 130]; "HIGH" := qs [100; 200; 150];
         "THIN" := qs [100; 200; 190] ]} = Ok kept_g /\
    filter_low_volume_series service_down
      {[ "LOW" := 20000; "HIGH" := 30000; "THIN" := 500 ]}
      {[ "LOW" := qs [100; 200; 130]; "HIGH" := qs [100; 200; 150];
         "THIN" := qs [100; 200; 190] ]} = Ok (kept_v, written) /\
    filter_low_volume_series service_down
      {[ "LOW" := 20000; "HIGH" := 30000; "THIN" := 500 ]} kept_g
    = Ok (kept, written') /\
    filter_garbage_series kept_v = Ok kept.
Proof.
  destruct (filter_garbage_series
              {[ "LOW" := qs [100; 200; 130]; "HIGH" := qs [100; 200; 150];
                 "THIN" := qs [100; 200; 190] ]}) as [kept_g | e] eqn:Eg.
  2: { vm_compute in Eg. discriminate Eg. }
  destruct (filter_low_volume_series service_down
              {[ "LOW" := 20000; "HIGH" := 30000; "THIN" := 500 ]}
              {[ "LOW" := qs [100; 200; 130]; "HIGH" := qs [100; 200; 150];
                 "THIN" := qs [100; 200; 190] ]})
    as [[kept_v written] | e] eqn:Ev.
  2: { vm_compute in Ev. discriminate Ev. }
  destruct (universe_filters_commute _ _ _ _ _ _ Eg Ev)
    as (kept & written' & H1 & H2).
  exists kept_g, kept_v, written, kept, written'. auto.
Defined.

(** ** [get_header] *)

Lemma string_length_app (a b : string) :
  String.length (a +:+ b) = (String.length a + String.length b)%nat.
Proof.
  induction a as [| ch a IH]; [reflexivity |].
  change (S (String.length (a +:+ b))
          = (S (String.length a) + String.length b)%nat).
  rewrite IH. reflexivity.
Qed.

Lemma str_mul_spec (n : Z) :
  String.length (str_mul "=" n) = Z.to_nat n /\
  Forall (fun ch => ch = "="%char) (list_ascii_of_string (str_mul "=" n)).
Proof.
  unfold str_mul. induction (Z.to_nat n) as [| k [IHlen IHall]].
  - split; [reflexivity | constructor].
  - change (str_copies "=" (S k)) with (String "=" (str_copies "=" k)).
    simpl. split; [lia |]. constructor; [reflexivity | exact IHall].
Qed.

(** X18. The header holds the title between ["== [ "] and [" ] "], followed
    by nothing but [=] signs, as many as it takes to reach 80 characters;
    a title of more than 72 characters gets no [=] sign and a header longer
    than 80. *)
Theorem get_header_width (title : string) :
  exists pad,
    get_header title = ("== [ " +:+ title +:+ " ] ") +:+ pad /\
    Forall (fun ch => ch = "="%char) (list_ascii_of_string pad) /\
    str_len pad = Z.max 0 (72 - str_len title) /\
    str_len (get_header title) = Z.max 80 (str_len title + 8).
Proof.
  unfold get_header.
  set (n := 80 - str_len ("== [ " +:+ title +:+ " ] ")).
  destruct (str_mul_spec n) as [Hlen Hall].
  assert (Hn : n = 72 - str_len title).
  { unfold n, str_len. rewrite !string_length_app. simpl. lia. }
  exists (str_mul "=" n). split; [reflexivity |]. split; [exact Hall |].
  unfold str_len in *. rewrite !string_length_app, Hlen. simpl. lia.
Qed.

(** ** [get_all_series] *)

Section LoadingFacts.
Variable get_all_symbols : result (list string).
Variable get_series : string -> string -> result (list Q).
Variable time : string.

Lemma load_loop_spec (series_length : Z) (tickers : list string)
    (acc res : gmap string (list Q)) :
  load_loop get_series time series_length tickers acc = Ok res ->
  (forall k s, acc !! k = Some s ->
     get_series k time = Ok s /\ len s = series_length) ->
  (forall t, In t tickers -> exists s, get_series t time = Ok s) /\
  (forall k s,
     res !! k = Some s <->
     (acc !! k = Some s \/ In k tickers) /\
     get_series k time = Ok s /\ len s = series_length).
Proof.
  revert acc. induction tickers as [| ticker rest IH]; simpl; intros acc H Hacc.
  - injection H as <-. split; [intros t [] |].
    intros k s. split.
    + intros Hk. split; [left; exact Hk | apply Hacc; exact Hk].
    + intros [[Hk | []] _]. exact Hk.
  - apply bind_Ok in H as (s0 & Hs0 & H).
    set (acc1 := if negb (len s0 =? series_length) then acc
                 else <[ticker := s0]> acc) in *.
    assert (Hacc1 : forall k s, acc1 !! k = Some s ->
                      get_series k time = Ok s /\ len s = series_length).
    { intros k s. unfold acc1.
      destruct (Z.eqb_spec (len s0) series_length) as [Heq | Hne]; simpl;
        [| apply Hacc].
      destruct (decide (ticker = k)) as [<- | Hk].
      - rewrite lookup_insert_eq. intros [= <-]. auto.
      - rewrite lookup_insert_ne by exact Hk. apply Hacc. }
    destruct (IH _ H Hacc1) as [Hall Hspec]. split.
    + intros t [<- | Ht]; eauto.
    + intros k s. rewrite Hspec. split.
      * intros [[Hk | Hk] HG]; (split; [| exact HG]); [| auto].
        unfold acc1 in Hk.
        destruct (negb (len s0 =? series_length)); [auto |].
        destruct (decide (ticker = k)) as [<- | Hne]; [auto |].
        rewrite lookup_insert_ne in Hk by exact Hne. auto.
      * intros [Hk [Hget Hlen]]. split; [| auto].
        destruct (decide (ticker = k)) as [<- | Hne].
        -- left. unfold acc1. rewrite Hs0 in Hget. injection Hget as <-.
           apply Z.eqb_eq in Hlen. rewrite Hlen. simpl.
           apply lookup_insert_eq.
        -- destruct Hk as [Hk | [Hk | Hk]]; [| contradiction | auto].
           left. unfold acc1. destruct (negb _); [exact Hk |].
           rewrite lookup_insert_ne by exact Hne. exact Hk.
Qed.

Lemma load_loop_total (series_length : Z) (tickers : list string)
    (acc : gmap string (list Q)) :
  (forall t, In t tickers -> exists s, get_series t time = Ok s) ->
  exists res, load_loop get_series time series_length tickers acc = Ok res.
Proof.
  revert acc. induction tickers as [| ticker rest IH]; simpl; intros acc H;
    [eauto |].
  destruct (H ticker) as (s & ->); [auto |]. simpl. apply IH. auto.
Qed.

(** What [get_all_series] returns, whenever it returns. *)
Lemma get_all_series_Ok (res : gmap string (list Q)) :
  get_all_series get_all_symbols get_series time = Ok res ->
  exists tickers reference,
    get_all_symbols = Ok tickers /\
    get_series REFERENCE_SYMBOL time = Ok reference /\
    (forall t, In t tickers -> exists s, get_series t time = Ok s) /\
    (forall k s,
       res !! k = Some s <->
       In k tickers /\ get_series k time = Ok s /\ len s = len reference).
Proof.
  unfold get_all_series, get_series_length. intros H.
  apply bind_Ok in H as (tickers & Htickers & H).
  apply bind_Ok in H as (n & Hn & H).
  apply bind_Ok in Hn as (reference & Href & Hn). injection Hn as <-.
  destruct (load_loop_spec _ _ _ _ H) as [Hall Hspec].
  { intros k s Hk. rewrite lookup_empty in Hk. discriminate. }
  exists tickers, reference. repeat (split; [assumption |]).
  intros k s. rewrite Hspec, lookup_empty.
  split; [intros [[Hn | Hk] HG]; [discriminate | auto] | intros [Hk HG]; auto].
Qed.

(** X19. Whenever [get_all_series] returns, every series it returns has the
    length of the series of [REFERENCE_SYMBOL]: a ticker of
    [get_all_symbols] is in the result, with its series, exactly when its
    series has that length. *)
Theorem get_all_series_same_length (res : gmap string (list Q)) :
  get_all_series get_all_symbols get_series time = Ok res ->
  exists tickers reference,
    get_all_symbols = Ok tickers /\
    get_series REFERENCE_SYMBOL time = Ok reference /\
    (forall k s,
       res !! k = Some s <->
       In k tickers /\ get_series k time = Ok s /\ len s = len reference) /\
    (forall k k' s s',
       res !! k = Some s -> res !! k' = Some s' -> len s = len s').
Proof.
  intros H. destruct (get_all_series_Ok res H)
    as (tickers & reference & Ht & Hr & _ & Hspec).
  exists tickers, reference. repeat (split; [assumption |]).
  intros k k' s s' Hk Hk'.
  apply Hspec in Hk as (_ & _ & ->). apply Hspec in Hk' as (_ & _ & ->).
  reflexivity.
Qed.

(** X20. [get_all_series] returns exactly when the list of symbols, the
    series of [REFERENCE_SYMBOL] and the series of every symbol can be
    read: a series of another length is skipped, but one symbol whose
    series cannot be read makes the whole call raise. *)
Theorem get_all_series_returns_iff :
  (exists res, get_all_series get_all_symbols get_series time = Ok res) <->
  (exists tickers reference,
     get_all_symbols = Ok tickers /\
     get_series REFERENCE_SYMBOL time = Ok reference /\
     forall t, In t tickers -> exists s, get_series t time = Ok s).
Proof.
  split.
  - intros (res & H). destruct (get_all_series_Ok res H)
      as (tickers & reference & Ht & Hr & Hall & _). eauto.
  - intros (tickers & reference & Ht & Hr & Hall).
    unfold get_all_series, get_series_length. rewrite Ht, Hr. simpl.
    apply load_loop_total. exact Hall.
Qed.

(** X21. When the series of [REFERENCE_SYMBOL] has a price,
    [filter_garbage_series] does not raise on what [get_all_series]
    returned. *)
Theorem loaded_series_pass_garbage_filter (res : gmap string (list Q))
    (reference : list Q) :
  get_all_series get_all_symbols get_series time = Ok res ->
  get_series REFERENCE_SYMBOL time = Ok reference -> reference <> [] ->
  exists kept, filter_garbage_series res = Ok kept.
Proof.
  intros H Href Hne. destruct (get_all_series_Ok res H)
    as (tickers & reference' & _ & Hr & _ & Hspec).
  rewrite Href in Hr. injection Hr as <-.
  apply filter_garbage_series_total. intros k s Hk.
  apply Hspec in Hk as (_ & _ & Hlen). intros ->.
  destruct reference; [congruence | discriminate Hlen].
Qed.
End LoadingFacts.

Lemma get_all_series_same_length_witness :
  exists res,
    get_all_series (Ok ["MSFT"; "NEW"; "AAPL"]) sample_series "1y" = Ok res /\
    res !! "MSFT" = Some (qs [4; 5; 6]) /\ res !! "NEW" = None.
Proof.
  destruct (get_all_series (Ok ["MSFT"; "NEW"; "AAPL"]) sample_series "1y")
    as [res | e] eqn:E.
  2: { vm_compute in E. discriminate E. }
  destruct (get_all_series_same_length _ _ _ _ E)
    as (tickers & reference & Ht & Hr & Hspec & _).
  injection Ht as <-. injection Hr as <-.
  exists res. split; [reflexivity |]. split.
  - apply Hspec. split; [left; reflexivity |]. split; reflexivity.
  - destruct (res !! "NEW") as [s |] eqn:En; [| reflexivity].
    apply Hspec in En as (_ & Hs & Hlen).
    injection Hs as <-. discriminate Hlen.
Defined.

Lemma loaded_series_pass_garbage_filter_witness :
  exists res kept,
    get_all_series (Ok ["MSFT"; "NEW"; "AAPL"]) sample_series "1y" = Ok res /\
    filter_garbage_series res = Ok kept.
Proof.
  destruct (get_all_series (Ok ["MSFT"; "NEW"; "AAPL"]) sample_series "1y")
    as [res | e] eqn:E.
  2: { vm_compute in E. discriminate E. }
  destruct (loaded_series_pass_garbage_filter _ _ _ res (qs [1; 2; 3]) E)
    as (kept & Hkept); [reflexivity | discriminate |].
  exists res, kept. split; [reflexivity | exact Hkept].
Defined.

(** ** [web_scraping] *)

Lemma skipn_nth_error {A} (l : list A) (n : nat) (x : A) :
  nth_error l n = Some x -> skipn n l = x :: skipn (S n) l.
Proof.
  revert l. induction n as [| n IH]; intros [| y l] H; try discriminate.
  - injection H as <-. reflexivity.
  - simpl in H. apply IH in H. exact H.
Qed.

Lemma skipn_getitem {A} (c : list A) (pos : Z) (ch : A) :
  0 <= pos -> getitem c pos = Ok ch ->
  skipn (Z.to_nat pos) c = ch :: skipn (Z.to_nat (pos + 1)) c.
Proof.
  intros Hpos H. apply getitem_Ok_nonneg in H as [H _]; [| exact Hpos].
  replace (Z.to_nat (pos + 1)) with (S (Z.to_nat pos)) by lia.
  apply skipn_nth_error. exact H.
Qed.

Lemma getitem_Raise_skipn {A} (c : list A) (pos : Z) (e : exn) :
  0 <= pos -> getitem c pos = Raise e ->
  e = IndexError /\ skipn (Z.to_nat pos) c = [].
Proof.
  intros Hpos. rewrite getitem_nonneg by exact Hpos.
  destruct (nth_error c (Z.to_nat pos)) eqn:E; [discriminate |].
  intros [= <-]. split; [reflexivity |].
  apply skipn_all2. apply nth_error_None. exact E.
Qed.

(** The loop of line 185 stops on the first digit from [pos] on, and
    raises [IndexError] when there is none. *)
Lemma skip_to_digit_spec (c : list ascii) (pos : Z) :
  0 <= pos ->
  match skip_to_digit c pos with
  | Ok p =>
      exists junk d rest,
        skipn (Z.to_nat pos) c = junk ++ d :: rest /\
        Forall (fun ch => before_number ch = true) junk /\
        before_number d = false /\
        0 <= p /\ skipn (Z.to_nat p) c = d :: rest
  | Raise e =>
      e = IndexError /\
      Forall (fun ch => before_number ch = true) (skipn (Z.to_nat pos) c)
  end.
Proof.
  funelim (skip_to_digit c pos); intros Hpos.
  - destruct (getitem_Raise_skipn _ _ _ Hpos e1) as [-> Hnil].
    rewrite Hnil. split; [reflexivity | constructor].
  - specialize (H ltac:(lia)).
    rewrite (skipn_getitem _ _ _ Hpos Hget).
    destruct (skip_to_digit c (pos + 1)) as [p | e].
    + destruct H as (junk & d & rest & Hsplit & Hjunk & Hd & Hp & Hrest).
      exists (ch :: junk), d, rest. rewrite Hsplit.
      split; [reflexivity |]. split; [constructor; assumption |]. auto.
    + destruct H as [-> Hall]. split; [reflexivity |].
      constructor; assumption.
  - pose proof (skipn_getitem _ _ _ Hpos Hget) as Hsplit.
    exists [], ch, (skipn (Z.to_nat (pos + 1)) c).
    split; [exact Hsplit |]. split; [constructor |]. auto.
Qed.

Lemma string_app_nil_r (a : string) : a +:+ EmptyString = a.
Proof.
  induction a as [| ch a IH]; [reflexivity |].
  change (String ch (a +:+ EmptyString) = String ch a).
  rewrite IH. reflexivity.
Qed.

Lemma string_app_assoc (a b c : string) :
  (a +:+ b) +:+ c = a +:+ (b +:+ c).
Proof.
  induction a as [| ch a IH]; [reflexivity |].
  change (String ch ((a +:+ b) +:+ c) = String ch (a +:+ (b +:+ c))).
  rewrite IH. reflexivity.
Qed.

(** The loop of lines 187-189 collects the digits and dots from [pos] up
    to a character that is neither, and raises [IndexError] when they run
    to the end. *)
Lemma read_number_spec (c : list ascii) (pos : Z) (s0 : string) :
  0 <= pos ->
  match read_number c pos s0 with
  | Ok s =>
      exists run ch rest,
        skipn (Z.to_nat pos) c = run ++ ch :: rest /\
        Forall (fun ch => in_number ch = true) run /\
        in_number ch = false /\
        s = s0 +:+ string_of_list_ascii run
  | Raise e =>
      e = IndexError /\
      Forall (fun ch => in_number ch = true) (skipn (Z.to_nat pos) c)
  end.
Proof.
  funelim (read_number c pos s0); intros Hpos.
  - destruct (getitem_Raise_skipn _ _ _ Hpos e1) as [-> Hnil].
    rewrite Hnil. split; [reflexivity | constructor].
  - specialize (H ltac:(lia)).
    rewrite (skipn_getitem _ _ _ Hpos Hget).
    destruct (read_number c (pos + 1) (s +:+ String ch EmptyString))
      as [s' | e].
    + destruct H as (run & ch' & rest & Hsplit & Hrun & Hch & Hs).
      exists (ch :: run), ch', rest. rewrite Hsplit.
      split; [reflexivity |]. split; [constructor; assumption |].
      split; [assumption |]. rewrite Hs, string_app_assoc. reflexivity.
    + destruct H as [-> Hall]. split; [reflexivity |].
      constructor; assumption.
  - pose proof (skipn_getitem _ _ _ Hpos Hget) as Hsplit.
    exists [], ch, (skipn (Z.to_nat (pos + 1)) c).
    split; [exact Hsplit |]. split; [constructor |].
    split; [assumption |]. symmetry. apply string_app_nil_r.
Qed.

Lemma string_app_cons (a : ascii) (s t : string) :
  String a s +:+ t = String a (s +:+ t).
Proof. reflexivity. Qed.

Lemma prefix_true_iff (p c : string) :
  String.prefix p c = true <-> exists after, c = p +:+ after.
Proof.
  revert c. induction p as [| a p IH]; intros c.
  - split; [intros _; exists c; reflexivity | destruct c; reflexivity].
  - destruct c as [| b c]; simpl.
    + split; [discriminate | intros (after & H); discriminate H].
    + destruct (ascii_dec a b) as [-> | Hne].
      * rewrite IH. split.
        -- intros (after & ->). exists after. reflexivity.
        -- intros (after & H). rewrite string_app_cons in H.
           injection H as ->. eauto.
      * split; [discriminate |]. intros (after & H).
        rewrite string_app_cons in H. injection H as -> _. contradiction.
Qed.

Lemma occurs_cons (p : string) (a : ascii) (c : string) :
  occurs p (String a c) <-> String.prefix p (String a c) = true \/ occurs p c.
Proof.
  split.
  - intros (before & after & H). destruct before as [| b before].
    + left. apply prefix_true_iff. exists after. exact H.
    + right. rewrite string_app_cons in H. injection H as _ ->.
      exists before, after. reflexivity.
  - intros [H | (before & after & ->)].
    + apply prefix_true_iff in H as (after & ->).
      exists EmptyString, after. reflexivity.
    + exists (String a before), after. reflexivity.
Qed.

Lemma occurs_empty (p : string) :
  occurs p EmptyString <-> String.prefix p EmptyString = true.
Proof.
  split.
  - intros (before & after & H). destruct before; [| discriminate H].
    apply prefix_true_iff. exists after. exact H.
  - intros H. apply prefix_true_iff in H as (after & H).
    exists EmptyString, after. exact H.
Qed.

(** [c.find(prefix)] is [-1] when [prefix] does not occur in [c], and a
    position otherwise. *)
Lemma find_from_spec (c p : string) (k : Z) :
  0 <= k ->
  (find_from c p k = -1 /\ ~ occurs p c) \/
  (k <= find_from c p k /\ occurs p c).
Proof.
  revert k. induction c as [| a c IH]; intros k Hk; cbn [find_from].
  - destruct (String.prefix p EmptyString) eqn:E.
    + right. split; [lia |]. apply occurs_empty. exact E.
    + left. split; [reflexivity |]. rewrite occurs_empty. congruence.
  - destruct (String.prefix p (String a c)) eqn:E.
    + right. split; [lia |]. apply occurs_cons. left. exact E.
    + destruct (IH (k + 1)) as [[Hf Hno] | [Hf Hocc]]; [lia | |].
      * left. split; [exact Hf |]. rewrite occurs_cons.
        intros [H | H]; [congruence | contradiction].
      * right. split; [lia |]. apply occurs_cons. right. exact Hocc.
Qed.

Lemma find_first_spec (c : string) (prefixes : list string) :
  (find_first c prefixes (-1) = -1 /\
   forall p, In p prefixes -> ~ occurs p c) \/
  (0 <= find_first c prefixes (-1) /\ exists p, In p prefixes /\ occurs p c).
Proof.
  induction prefixes as [| p prefixes IH]; simpl.
  - left. split; [reflexivity | intros p []].
  - unfold find. destruct (find_from_spec c p 0) as [[Hf Hno] | [Hf Hocc]];
      [lia | |].
    + rewrite Hf. simpl.
      destruct IH as [[Hr Hall] | [Hr (q & Hq & Hocc)]].
      * left. split; [exact Hr |]. intros q [<- | Hq]; auto.
      * right. split; [exact Hr |]. exists q. auto.
    + destruct (Z.leb_spec 0 (find_from c p 0)); [| lia].
      right. split; [assumption |]. exists p. auto.
Qed.

Lemma before_number_false (d : ascii) :
  before_number d = false <-> is_digit d = true.
Proof.
  unfold before_number, is_digit, char_lt, char_le.
  rewrite orb_false_iff, andb_true_iff, !N.ltb_ge, !N.leb_le. tauto.
Qed.

Lemma is_digit_in_number (d : ascii) : is_digit d = true -> in_number d = true.
Proof.
  unfold is_digit, in_number. intros H. apply andb_true_iff in H as [H1 H2].
  rewrite H1, H2. reflexivity.
Qed.

Lemma in_number_cases (ch : ascii) :
  in_number ch = true -> is_digit ch = true \/ ch = "."%char.
Proof.
  unfold in_number, is_digit. intros H.
  apply orb_true_iff in H as [H | H].
  - left. apply andb_true_iff in H as [H1 H2]. rewrite H1, H2. reflexivity.
  - right. apply Ascii.eqb_eq. exact H.
Qed.

Lemma forallb_dot (cs : list ascii) :
  In "."%char cs -> forallb is_digit cs = false.
Proof.
  induction cs as [| c cs IH]; simpl; [intros [] |].
  intros [-> | H]; [reflexivity |].
  rewrite (IH H). apply andb_false_r.
Qed.

Lemma forallb_no_dot (cs : list ascii) :
  Forall (fun ch => in_number ch = true) cs ->
  ~ In "."%char cs -> forallb is_digit cs = true.
Proof.
  induction 1 as [| c cs Hc _ IH]; simpl; [reflexivity |].
  intros Hno. destruct (in_number_cases c Hc) as [-> | ->].
  - apply IH. tauto.
  - exfalso. apply Hno. left. reflexivity.
Qed.

Lemma fold_digits_nonneg (cs : list ascii) (acc : Z) :
  0 <= acc ->
  (forall ch, In ch cs -> is_digit ch = true) ->
  0 <= fold_left (fun acc ch => 10 * acc + digit_value ch) cs acc.
Proof.
  revert acc. induction cs as [| c cs IH]; intros acc Hacc Hall; simpl.
  - exact Hacc.
  - apply IH; [| intros ch Hch; apply Hall; right; exact Hch].
    assert (Hc : is_digit c = true) by (apply Hall; left; reflexivity).
    unfold is_digit, char_le in Hc. apply andb_true_iff in Hc as [Hc _].
    apply N.leb_le in Hc. unfold digit_value.
    change (N_of_ascii "0") with 48%N in Hc. lia.
Qed.

Section WebFacts.
Variable requests_get : string -> nat -> result response.
Variables (url : string) (prefixes : list string).

(** The request part of [web_scraping]. *)
Lemma web_scraping_page :
  match web_scraping requests_get url prefixes with
  | Ok _ => exists r, page_used requests_get url r
  | Raise e =>
      requests_get url 0%nat = Raise e \/
      (exists r0, requests_get url 0%nat = Ok r0 /\ ok r0 = false /\
                  requests_get url 1%nat = Raise e) \/
      exists r, page_used requests_get url r
  end.
Proof.
  unfold web_scraping, page_used.
  destruct (requests_get url 0%nat) as [r0 | e0] eqn:E0; simpl; [| auto].
  destruct (ok r0) eqn:Eok; simpl.
  - destruct (if _ <=? _ then _ else _); [eauto | eauto 10].
  - destruct (requests_get url 1%nat) as [r1 | e1] eqn:E1; simpl.
    + destruct (if _ <=? _ then _ else _); eauto 10.
    + right. left. eauto.
Qed.

(** The scan part of [web_scraping], on the page it ends up with. *)
Lemma web_scraping_on_page (r : response) :
  page_used requests_get url r ->
  web_scraping requests_get url prefixes =
    let c := content r in
    let pos := find_first c prefixes (-1) in
    if 0 <=? pos then
      pos <- skip_to_digit (list_ascii_of_string c) pos ;;
      read_number (list_ascii_of_string c) pos EmptyString
    else Raise (Exception "symbol not found ").
Proof.
  unfold web_scraping. intros [[H0 Hok] | (r0 & H0 & Hok & H1)].
  - rewrite H0. simpl. rewrite Hok. reflexivity.
  - rewrite H0. simpl. rewrite Hok. simpl. rewrite H1. reflexivity.
Qed.

(** The two loops of lines 185-189, one after the other. *)
Lemma number_scan_spec (c : list ascii) (pos p : Z) (s : string) :
  0 <= pos ->
  skip_to_digit c pos = Ok p -> read_number c p EmptyString = Ok s ->
  exists junk d run ch rest,
    skipn (Z.to_nat pos) c = junk ++ d :: run ++ ch :: rest /\
    Forall (fun ch => before_number ch = true) junk /\
    is_digit d = true /\
    Forall (fun ch => in_number ch = true) run /\
    in_number ch = false /\
    s = string_of_list_ascii (d :: run).
Proof.
  intros Hpos Hskip Hread.
  pose proof (skip_to_digit_spec c pos Hpos) as Hs. rewrite Hskip in Hs.
  destruct Hs as (junk & d & rest & Hsplit & Hjunk & Hd & Hp & Hrest).
  pose proof (read_number_spec c p EmptyString Hp) as Hn.
  rewrite Hread in Hn.
  destruct Hn as (run & ch & rest' & Hsplit' & Hrun & Hch & Hs).
  apply before_number_false in Hd.
  rewrite Hrest in Hsplit'.
  destruct run as [| d' run].
  { simpl in Hsplit'. injection Hsplit' as -> _.
    apply is_digit_in_number in Hd. congruence. }
  simpl in Hsplit'. injection Hsplit' as <- ->.
  inversion Hrun; subst.
  exists junk, d, run, ch, rest'.
  repeat (split; [assumption |]). reflexivity.
Qed.

(** A returned number comes from the two loops, run on the page from the
    place of a prefix. *)
Lemma web_scraping_Ok_scan (s : string) :
  web_scraping requests_get url prefixes = Ok s ->
  exists r p,
    page_used requests_get url r /\
    0 <= find_first (content r) prefixes (-1) /\
    skip_to_digit (list_ascii_of_string (content r))
      (find_first (content r) prefixes (-1)) = Ok p /\
    read_number (list_ascii_of_string (content r)) p EmptyString = Ok s.
Proof.
  intros H. pose proof web_scraping_page as Hpage. rewrite H in Hpage.
  destruct Hpage as (r & Hr). rewrite (web_scraping_on_page r Hr) in H.
  cbv zeta in H.
  destruct (Z.leb_spec 0 (find_first (content r) prefixes (-1)))
    as [Hpos | Hneg]; [| discriminate].
  apply bind_Ok in H as (p & Hskip & Hread).
  exists r, p. auto.
Qed.

(** X22. What [web_scraping] returns is read off the page it ends up with:
    from the first place where a prefix occurs, it skips what is not a
    digit, and returns the digits and dots from the first digit up to the
    next character that is neither. *)
Theorem web_scraping_number (s : string) :
  web_scraping requests_get url prefixes = Ok s ->
  exists r junk d run ch rest,
    page_used requests_get url r /\
    0 <= find_first (content r) prefixes (-1) /\
    skipn (Z.to_nat (find_first (content r) prefixes (-1)))
      (list_ascii_of_string (content r))
    = junk ++ d :: run ++ ch :: rest /\
    Forall (fun ch => before_number ch = true) junk /\
    is_digit d = true /\
    Forall (fun ch => in_number ch = true) run /\
    in_number ch = false /\
    s = string_of_list_ascii (d :: run).
Proof.
  intros H.
  destruct (web_scraping_Ok_scan s H) as (r & p & Hr & Hpos & Hskip & Hread).
  destruct (number_scan_spec _ _ _ _ Hpos Hskip Hread)
    as (junk & d & run & ch & rest & Hsplit & Hjunk & Hd & Hrun & Hch & Hs).
  exists r, junk, d, run, ch, rest. auto 10.
Qed.

(** X23. [int] of what [web_scraping] returns raises [ValueError] when the
    number holds a dot or has more than [INT_MAX_STR_DIGITS] digits, and is
    a natural number otherwise. *)
Theorem scraped_number_int (s : string) :
  web_scraping requests_get url prefixes = Ok s ->
  (In "."%char (list_ascii_of_string s) -> py_int s = Raise ValueError) /\
  (INT_MAX_STR_DIGITS < len (list_ascii_of_string s) ->
   py_int s = Raise ValueError) /\
  (~ In "."%char (list_ascii_of_string s) ->
   len (list_ascii_of_string s) <= INT_MAX_STR_DIGITS ->
   exists volume, py_int s = Ok volume /\ 0 <= volume).
Proof.
  intros H.
  destruct (web_scraping_Ok_scan s H) as (r & p & _ & Hpos & Hskip & Hread).
  destruct (number_scan_spec _ _ _ _ Hpos Hskip Hread)
    as (_ & d & run & _ & _ & _ & _ & Hd & Hrun & _ & ->).
  rewrite list_ascii_of_string_of_list_ascii.
  unfold py_int. rewrite list_ascii_of_string_of_list_ascii.
  assert (Hall : Forall (fun ch => in_number ch = true) (d :: run)).
  { constructor; [apply is_digit_in_number; exact Hd | exact Hrun]. }
  assert (Hlen : (0 =? len (d :: run)) = false).
  { apply Z.eqb_neq. unfold len. simpl length. lia. }
  rewrite Hlen, andb_true_r. split; [| split].
  - intros Hdot. rewrite (forallb_dot _ Hdot). reflexivity.
  - intros Hlong. apply Z.leb_gt in Hlong. rewrite Hlong, andb_false_r.
    reflexivity.
  - intros Hno Hshort. apply Z.leb_le in Hshort.
    rewrite (forallb_no_dot _ Hall Hno), Hshort.
    eexists. split; [reflexivity |].
    apply fold_digits_nonneg; [lia |].
    apply forallb_forall. apply (forallb_no_dot _ Hall Hno).
Qed.

(** X24. On the page it ends up with, [web_scraping] raises
    [Exception('symbol not found ')] exactly when none of the prefixes
    occurs in the page; when one occurs, the only exception it can raise
    is [IndexError]. *)
Theorem symbol_not_found_iff (r : response) :
  page_used requests_get url r ->
  (web_scraping requests_get url prefixes
   = Raise (Exception "symbol not found ") <->
   forall p, In p prefixes -> ~ occurs p (content r)) /\
  (forall e, web_scraping requests_get url prefixes = Raise e ->
             e = Exception "symbol not found " \/ e = IndexError).
Proof.
  intros Hr. rewrite (web_scraping_on_page r Hr). cbv zeta.
  set (c := list_ascii_of_string (content r)).
  destruct (find_first_spec (content r) prefixes)
    as [[Hf Hno] | [Hf (p & Hp & Hocc)]].
  - rewrite Hf. simpl. split; [split; auto |].
    intros e He. injection He as <-. left. reflexivity.
  - destruct (Z.leb_spec 0 (find_first (content r) prefixes (-1))); [| lia].
    assert (Hidx : forall e,
      (pos <- skip_to_digit c (find_first (content r) prefixes (-1)) ;;
       read_number c pos EmptyString) = Raise e -> e = IndexError).
    { intros e He.
      pose proof (skip_to_digit_spec c _ Hf) as Hs.
      destruct (skip_to_digit c _) as [q | e0]; simpl in He.
      - destruct Hs as (_ & _ & _ & _ & _ & _ & Hq & _).
        pose proof (read_number_spec c q EmptyString Hq) as Hn.
        rewrite He in Hn. apply Hn.
      - injection He as <-. apply Hs. }
    split.
    + split.
      * intros He. apply Hidx in He. discriminate.
      * intros Hno. exfalso. apply (Hno p Hp Hocc).
    + intros e He. right. apply Hidx. exact He.
Qed.
End WebFacts.

Lemma web_scraping_number_witness :
  exists r junk d run ch rest,
    page_used service_quote "https://finance.yahoo.com/quote/ZZZ" r /\
    skipn (Z.to_nat (find_first (content r) ["regularMarketVolume"] (-1)))
      (list_ascii_of_string (content r))
    = junk ++ d :: run ++ ch :: rest /\
    "25000" = string_of_list_ascii (d :: run).
Proof.
  destruct (web_scraping_number service_quote
              "https://finance.yahoo.com/quote/ZZZ" ["regularMarketVolume"]
              "25000" eq_refl)
    as (r & junk & d & run & ch & rest & Hr & _ & Hsplit & _ & _ & _ & _ & Hs).
  exists r, junk, d, run, ch, rest. auto.
Defined.

Lemma symbol_not_found_iff_witness :
  page_used service_down "https://finance.yahoo.com/quote/ZZZ"
    {| ok := false; content := "b'Service Unavailable'" |} /\
  (web_scraping service_down "https://finance.yahoo.com/quote/ZZZ"
     ["regularMarketVolume"] = Raise (Exception "symbol not found ") <->
   forall p, In p ["regularMarketVolume"] ->
     ~ occurs p "b'Service Unavailable'").
Proof.
  assert (Hpage : page_used service_down "https://finance.yahoo.com/quote/ZZZ"
                    {| ok := false; content := "b'Service Unavailable'" |}).
  { right. eexists. repeat split. }
  split; [exact Hpage |].
  exact (proj1 (symbol_not_found_iff service_down _ ["regularMarketVolume"]
                  _ Hpage)).
Defined.

Lemma scraped_number_int_witness :
  exists volume, py_int "25000" = Ok volume /\ 0 <= volume.
Proof.
  apply (scraped_number_int service_quote
           "https://finance.yahoo.com/quote/ZZZ" ["regularMarketVolume"]
           "25000" eq_refl).
  - intros H. simpl in H. repeat destruct H as [H | H]; try discriminate H.
    exact H.
  - discriminate.
Defined.

(** ** The calibration on doubles *)

(** A price is a finite double above zero. *)
Lemma is_price_finite (p : float) :
  Binary64.is_price p = true ->
  exists m e, Prim2SF p = S754_finite false m e.
Proof.
  unfold Binary64.is_price. rewrite andb_true_iff, !ltb_spec.
  change (Prim2SF 0) with (S754_zero false).
  change (Prim2SF infinity) with (S754_infinity false).
  unfold SFltb. intros [H0 Hinf].
  destruct (Prim2SF p) as [s | s | | s m e]; simpl in *; try discriminate.
  - destruct s; discriminate.
  - destruct s; [discriminate | eauto].
Qed.

Lemma binary_round_not_nan (prec emax : Z) (sx : bool) (mx : positive)
    (ex : Z) :
  binary_round prec emax sx mx ex <> S754_nan.
Proof.
  unfold binary_round. destruct (shl_align _ _ _) as [mz ez].
  apply binary_round_aux_not_nan. lia.
Qed.

(** The difference of two finite doubles is not NaN. *)
Lemma sub_finite_not_nan (x y : float) (sx sy : bool) (mx my : positive)
    (ex ey : Z) :
  Prim2SF x = S754_finite sx mx ex -> Prim2SF y = S754_finite sy my ey ->
  is_nan (x - y)%float = false.
Proof.
  intros Hx Hy. apply not_nan_spec. rewrite sub_spec, Hx, Hy.
  unfold SF64sub, SFsub, binary_normalize.
  destruct (_ - _)%Z; [discriminate | |]; apply binary_round_not_nan.
Qed.

(** A quotient by a finite double that is not zero is NaN only when the
    dividend is. *)
Lemma div_finite_not_nan (a b : float) (s : bool) (m : positive) (e : Z) :
  is_nan a = false -> Prim2SF b = S754_finite s m e ->
  is_nan (a / b)%float = false.
Proof.
  intros Ha Hb. apply not_nan_spec in Ha. apply not_nan_spec.
  rewrite div_spec, Hb. unfold SF64div, SFdiv.
  destruct (Prim2SF a) as [sa | sa | | sa ma ea]; try discriminate;
    try congruence.
  destruct (SFdiv_core_binary _ _ _ _ _ _) as [[mz ez] lz] eqn:E.
  apply binary_round_aux_not_nan.
  unfold SFdiv_core_binary in E.
  match type of E with
  | (let '(q, r) := Z.div_eucl ?a ?b in _) = _ =>
      assert (Hq : 0 <= fst (Z.div_eucl a b));
      [change (fst (Z.div_eucl a b)) with (a / b);
       apply Z.div_pos; [| lia] |
       destruct (Z.div_eucl a b) as [q r]; injection E as <- _ _; exact Hq]
  end.
  destruct (_ - _ - _)%Z; try lia. apply Z.shiftl_nonneg. lia.
Qed.

(** On prices, no depth of line 40 is NaN. *)
Lemma depth_not_nan (series : list float) (dt : list Z) (dp : list float) :
  Forall (fun p => Binary64.is_price p = true) series ->
  Binary64.down_percent series dt = Ok dp -> Binary64.no_nan dp.
Proof.
  intros Hprices Hdp. rewrite List.Forall_forall in Hprices.
  apply List.Forall_forall. intros d Hd.
  destruct (mapM_Ok_In _ _ _ _ Hdp Hd) as (t & _ & Ht).
  unfold Binary64.depth_at in Ht.
  apply bind_Ok in Ht as (m & Hm & Ht).
  apply bind_Ok in Ht as (x & Hx & Ht).
  rewrite Hm in Ht. cbn [bind] in Ht. injection Ht as <-.
  assert (Hmin : In m series).
  { eapply In_slice. apply np_max_In_binary64. exact Hm. }
  assert (Hxin : In x series).
  { unfold getitem in Hx. destruct (_ <? 0); [discriminate |].
    destruct (nth_error series _) eqn:E; [| discriminate].
    injection Hx as <-. eapply nth_error_In; exact E. }
  destruct (is_price_finite m (Hprices m Hmin)) as (mm & em & Em).
  destruct (is_price_finite x (Hprices x Hxin)) as (mx & ex & Ex).
  eapply div_finite_not_nan; [| exact Em].
  eapply sub_finite_not_nan; eassumption.
Qed.

Section CalibrationFacts.
Variable np_average : list float -> float.

Lemma scan_update_binary64 (st : Binary64.scan_state) (n_point : Z)
    (gains : list float) :
  let st' := Binary64.scan_update np_average st n_point gains in
  (Binary64.st_max_avg_gain st' <? np_average gains)%float = false /\
  ((Binary64.st_n_pick st' = Binary64.st_n_pick st /\
    Binary64.st_max_avg_gain st' = Binary64.st_max_avg_gain st) \/
   (Binary64.st_n_pick st' = n_point /\
    Binary64.st_max_avg_gain st' = np_average gains /\
    (Binary64.st_max_avg_gain st <? np_average gains)%float = true)).
Proof.
  unfold Binary64.scan_update.
  destruct (Binary64.st_max_avg_gain st <? np_average gains)%float eqn:E;
    simpl.
  - split; [apply ltb_irrefl | right; auto].
  - split; [exact E | left; auto].
Qed.

(** The loop of lines 45-56 on doubles. It evaluates a first part
    [visited] of its candidates: all of them, unless the counter reached
    zero. No candidate of [visited] that has a gain has an average above the
    average the loop ends with, which is the average of the candidate it
    ends with unless no candidate beat the initial average. *)
Lemma scan_binary64 (series : list float) (dt pick_ti : list Z)
    (n_points : list Z) (st st' : Binary64.scan_state) :
  Binary64.scan np_average series dt pick_ti n_points st = Ok st' ->
  exists visited rest,
    n_points = visited ++ rest /\
    (rest = [] \/ Binary64.st_tol st' = 0) /\
    Binary64.scan np_average series dt pick_ti visited st = Ok st' /\
    (forall k gains,
       In k visited -> Binary64.gains_top series dt pick_ti k = Ok gains ->
       0 < len gains ->
       (Binary64.st_max_avg_gain st' <? np_average gains)%float = false) /\
    (Binary64.st_max_avg_gain st' = Binary64.st_max_avg_gain st \/
     (Binary64.st_max_avg_gain st <? Binary64.st_max_avg_gain st')%float
     = true) /\
    ((Binary64.st_n_pick st' = Binary64.st_n_pick st /\
      Binary64.st_max_avg_gain st' = Binary64.st_max_avg_gain st) \/
     (In (Binary64.st_n_pick st') visited /\
      exists gains,
        Binary64.gains_top series dt pick_ti (Binary64.st_n_pick st')
        = Ok gains /\
        0 < len gains /\
        Binary64.st_max_avg_gain st' = np_average gains)).
Proof.
  revert st. induction n_points as [| k ks IH]; simpl; intros st H.
  - injection H as <-. exists [], []. split; [reflexivity |].
    split; [left; reflexivity |]. split; [reflexivity |].
    split; [intros k gains [] |]. split; [left; reflexivity | left; auto].
  - apply bind_Ok in H as (gains & Hg & H).
    destruct (Z.ltb_spec 0 (len gains)) as [Hpos | Hempty].
    + destruct (scan_update_binary64 st k gains) as (Hb & Hcase).
      set (st1 := Binary64.scan_update np_average st k gains) in *.
      assert (Hmono1 :
        Binary64.st_max_avg_gain st1 = Binary64.st_max_avg_gain st \/
        (Binary64.st_max_avg_gain st <? Binary64.st_max_avg_gain st1)%float
        = true).
      { destruct Hcase as [[_ Hm] | (_ & Hm & Hlt)]; [left; exact Hm |].
        right. rewrite Hm. exact Hlt. }
      assert (Hpick1 :
        (Binary64.st_n_pick st1 = Binary64.st_n_pick st /\
         Binary64.st_max_avg_gain st1 = Binary64.st_max_avg_gain st) \/
        (Binary64.st_n_pick st1 = k /\
         Binary64.st_max_avg_gain st1 = np_average gains)).
      { destruct Hcase as [Hs | (Hn & Hm & _)]; auto. }
      destruct (Binary64.st_tol st1 =? 0) eqn:Etol.
      * injection H as <-. exists [k], ks. split; [reflexivity |].
        split; [right; apply Z.eqb_eq; exact Etol |].
        split.
        { simpl. rewrite Hg. cbn [bind].
          destruct (Z.ltb_spec 0 (len gains)); [| lia].
          fold st1. rewrite Etol. reflexivity. }
        split.
        { intros k' gains' [<- | []] Hg' _.
          rewrite Hg in Hg'. injection Hg' as <-. exact Hb. }
        split; [exact Hmono1 |].
        destruct Hpick1 as [Hs | [Hn Hm]]; [left; exact Hs |].
        right. split; [rewrite Hn; left; reflexivity |].
        exists gains. rewrite Hn. auto.
      * destruct (IH st1 H)
          as (visited & rest & -> & Hrest & Hvis & Hbound & Hmono & Hcase2).
        exists (k :: visited), rest. split; [reflexivity |].
        split; [exact Hrest |].
        split.
        { simpl. rewrite Hg. cbn [bind].
          destruct (Z.ltb_spec 0 (len gains)); [| lia].
          fold st1. rewrite Etol. exact Hvis. }
        split.
        { intros k' gains' [<- | Hin] Hg' Hpos'.
          - rewrite Hg in Hg'. injection Hg' as <-.
            destruct Hmono as [-> | Hlt]; [exact Hb |].
            eapply ltb_false_raise; eassumption.
          - eapply Hbound; eassumption. }
        split.
        { destruct Hmono as [-> | Hlt]; [exact Hmono1 |].
          destruct Hmono1 as [<- | Hlt1]; [right; exact Hlt |].
          right. eapply ltb_trans; eassumption. }
        destruct Hcase2 as [[Hn2 Hm2] | (Hin & Hr)].
        -- destruct Hpick1 as [[Hn1 Hm1] | [Hn1 Hm1]].
           ++ left. split; congruence.
           ++ right. split; [rewrite Hn2, Hn1; left; reflexivity |].
              exists gains. rewrite Hn2, Hn1, Hm2, Hm1. auto.
        -- right. split; [right; assumption | exact Hr].
    + destruct (IH st H)
        as (visited & rest & -> & Hrest & Hvis & Hbound & Hmono & Hcase2).
      exists (k :: visited), rest. split; [reflexivity |].
      split; [exact Hrest |].
      split.
      { simpl. rewrite Hg. cbn [bind].
        destruct (Z.ltb_spec 0 (len gains)); [lia |]. exact Hvis. }
      split.
      { intros k' gains' [<- | Hin] Hg' Hpos'.
        - rewrite Hg in Hg'. injection Hg' as <-. lia.
        - eapply Hbound; eassumption. }
      split; [assumption |].
      destruct Hcase2 as [Hsame | (Hin & Hr)]; [left; assumption |].
      right. split; [right; assumption | exact Hr].
Qed.
End CalibrationFacts.

Lemma Sorted_with_Forall {A} (R : A -> A -> Prop) (P : A -> Prop)
    (l : list A) :
  Sorted R l -> Forall P l -> Sorted (fun a b => P a /\ P b /\ R a b) l.
Proof.
  induction 1 as [| a l Hs IH Hhd]; intros Hall; constructor.
  - apply IH. inversion Hall; assumption.
  - inversion Hall as [| ? ? Ha Hl]; subst.
    destruct Hhd as [| b l Hab]; constructor.
    inversion Hl; subst. auto.
Qed.

(** Line 41 on depths without NaN ranks the positions by depth, deepest
    first. *)
Lemma pick_order_binary64 (dp : list float) (pick_ti : list Z) :
  Binary64.no_nan dp ->
  Binary64.pick_order dp = Ok pick_ti ->
  exists keyed : list (float * Z),
    pick_ti = map snd keyed /\
    Permutation (range 0 (len dp)) pick_ti /\
    (forall d i, In (d, i) keyed -> getitem dp i = Ok d) /\
    StronglySorted (fun a b => (fst a <? fst b)%float = false) keyed.
Proof.
  unfold Binary64.pick_order, sorted_key_reverse. intros Hnan H.
  apply bind_Ok in H as (keys & Hkeys & H). injection H as <-.
  set (ltk := fun a b : float * Z => (fst a <? fst b)%float).
  exists (sort_reverse ltk (combine keys (range 0 (len dp)))).
  split; [reflexivity |].
  pose proof (sort_reverse_perm ltk (combine keys (range 0 (len dp)))) as Hperm.
  split.
  { rewrite <- (mapM_combine_snd _ _ _ Hkeys) at 1.
    apply Permutation_map. exact Hperm. }
  assert (Hkey : forall d i,
    In (d, i) (sort_reverse ltk (combine keys (range 0 (len dp)))) ->
    getitem dp i = Ok d).
  { intros d i Hin. eapply mapM_combine; [exact Hkeys |].
    eapply Permutation_in; [symmetry; exact Hperm | exact Hin]. }
  split; [exact Hkey |].
  assert (Hasym : forall a b, ltk a b = true -> ltk b a = false).
  { intros a b. unfold ltk. apply ltb_asym. }
  set (P := fun a : float * Z => is_nan (fst a) = false).
  assert (HP : Forall P (sort_reverse ltk (combine keys (range 0 (len dp))))).
  { apply List.Forall_forall. intros [d i] Hin. unfold P. simpl.
    specialize (Hkey d i Hin). unfold Binary64.no_nan in Hnan.
    rewrite List.Forall_forall in Hnan. apply Hnan.
    unfold getitem in Hkey. destruct (_ <? 0); [discriminate |].
    destruct (nth_error dp _) eqn:E; [| discriminate].
    injection Hkey as <-. eapply nth_error_In; exact E. }
  pose proof (Sorted_with_Forall _ P _
                (sort_reverse_sorted ltk Hasym
                   (combine keys (range 0 (len dp)))) HP) as Hs.
  apply Sorted_StronglySorted in Hs.
  - clear -Hs. induction Hs as [| a l Hs IH Hall]; constructor;
      [assumption |].
    eapply List.Forall_impl; [| exact Hall].
    intros b (_ & _ & Hab). exact Hab.
  - intros a b c' (Ha & Hb & Hab) (_ & Hc & Hbc).
    split; [exact Ha |]. split; [exact Hc |].
    unfold desc, ltk, P in *.
    apply (ltb_false_trans (fst a) (fst b) (fst c')); assumption.
Qed.

(** The depth at rank [k] is the least depth of the [k] first ranks. *)
Lemma rank_depth_least_binary64 (dp : list float) (pick_ti : list Z)
    (k : nat) (i : Z) (thr : float) :
  Binary64.no_nan dp ->
  Binary64.pick_order dp = Ok pick_ti ->
  nth_error pick_ti k = Some i -> getitem dp i = Ok thr ->
  forall j, In j (firstn (S k) pick_ti) ->
            exists d, getitem dp j = Ok d /\ (d <? thr)%float = false.
Proof.
  intros Hnan Hpo Hi Hthr j Hj.
  destruct (pick_order_binary64 dp pick_ti Hnan Hpo)
    as (keyed & -> & _ & Hkey & Hs).
  apply In_nth_error in Hj as (p & Hp).
  rewrite nth_error_firstn in Hp.
  destruct (Nat.ltb_spec p (S k)) as [Hpk | _]; [| discriminate].
  rewrite nth_error_map in Hi, Hp.
  destruct (nth_error keyed k) as [[di i'] |] eqn:Ek; [| discriminate].
  destruct (nth_error keyed p) as [[dj j'] |] eqn:Ep; [| discriminate].
  simpl in Hi, Hp. injection Hi as ->. injection Hp as ->.
  assert (Hdi : getitem dp i = Ok di).
  { apply Hkey. eapply nth_error_In; eassumption. }
  assert (Hdj : getitem dp j = Ok dj).
  { apply Hkey. eapply nth_error_In; eassumption. }
  assert (di = thr) by congruence. subst di.
  exists dj. split; [assumption |].
  destruct (Nat.eq_dec p k) as [-> | Hne].
  - rewrite Ek in Ep. injection Ep as <- _. apply ltb_irrefl.
  - apply (StronglySorted_nth_error _ _ p k (dj, j) (thr, i) Hs);
      [lia | assumption | assumption].
Qed.

Section PickedCalibration.
Variable np_average : list float -> float.

(** X4. On doubles, for a series of prices: when [get_picked_points] picks
    an event, the loop of line 45 evaluated the candidates [visited], all
    of them unless the counter reached zero, and ended on a candidate [k]
    of at least one gain; the picked events are those of the [k] first
    ranks; the threshold is the depth at rank [k], and no depth among them
    is below it; and the average is [np.average] of the gains of [k], above
    which the average of no candidate of [visited] lies. *)
Theorem picked_calibration (series : list float) (c : Binary64.calibration) :
  Forall (fun p => Binary64.is_price p = true) series ->
  Binary64.get_picked_points np_average series = Ok c ->
  Binary64.pick_t c <> [] ->
  exists dt dp pick_ti st visited rest k gains i,
    Binary64.down_t series = Ok dt /\
    Binary64.down_percent series dt = Ok dp /\
    Binary64.pick_order dp = Ok pick_ti /\
    Binary64.scan np_average series dt pick_ti (scan_range pick_ti)
      Binary64.scan_init = Ok st /\
    scan_range pick_ti = visited ++ rest /\
    (rest = [] \/ Binary64.st_tol st = 0) /\
    Binary64.scan np_average series dt pick_ti visited Binary64.scan_init
    = Ok st /\
    k = Binary64.st_n_pick st /\ In k visited /\
    mapM (getitem dt) (firstn (Z.to_nat k) pick_ti)
    = Ok (Binary64.pick_t c) /\
    nth_error pick_ti (Z.to_nat (k - 1)) = Some i /\
    getitem dp i = Ok (Binary64.threshold c) /\
    (forall j, In j (firstn (Z.to_nat k) pick_ti) ->
               exists d, getitem dp j = Ok d /\
                         (d <? Binary64.threshold c)%float = false) /\
    Binary64.gains_top series dt pick_ti k = Ok gains /\ 0 < len gains /\
    Binary64.max_avg_gain c = np_average gains /\
    (forall k' gains',
       In k' visited ->
       Binary64.gains_top series dt pick_ti k' = Ok gains' ->
       0 < len gains' ->
       (Binary64.max_avg_gain c <? np_average gains')%float = false).
Proof.
  unfold Binary64.get_picked_points. intros Hprices H Hne.
  apply bind_Ok in H as (dt & Hdt & H).
  apply bind_Ok in H as (dp & Hdp & H).
  apply bind_Ok in H as (pick_ti & Hpo & H).
  apply bind_Ok in H as (st & Hscan & H).
  apply bind_Ok in H as (i & Hi & H).
  apply bind_Ok in H as (thr & Hthr & H).
  apply bind_Ok in H as (picked & Hpicked & H).
  injection H as <-. simpl in *.
  destruct (scan_binary64 np_average _ _ _ _ _ _ Hscan)
    as (visited & rest & Hsplit & Hrest & Hvis & Hbound & _ & Hcase).
  destruct Hcase as [[Hn _] | (Hin & gains & Hg & Hpos & Hm)].
  { simpl in Hn. rewrite Hn in Hpicked.
    rewrite slice_to_firstn in Hpicked
      by (pose proof (len_nonneg pick_ti); lia).
    simpl in Hpicked. injection Hpicked as <-.
    contradiction Hne. reflexivity. }
  assert (Hk : 1 <= Binary64.st_n_pick st < len pick_ti).
  { apply In_scan_range. rewrite Hsplit. apply in_or_app. left. assumption. }
  rewrite slice_to_firstn in Hpicked by lia.
  apply getitem_Ok_nonneg in Hi as [Hi _]; [| lia].
  exists dt, dp, pick_ti, st, visited, rest, (Binary64.st_n_pick st), gains, i.
  repeat (split; [assumption || reflexivity |]).
  split.
  { replace (Z.to_nat (Binary64.st_n_pick st))
      with (S (Z.to_nat (Binary64.st_n_pick st - 1))) by lia.
    eapply rank_depth_least_binary64; try eassumption.
    eapply depth_not_nan; eassumption. }
  repeat (split; [assumption |]). assumption.
Qed.
End PickedCalibration.

Lemma picked_calibration_witness :
  exists c dt dp pick_ti st visited rest k gains i,
    Binary64.get_picked_points Binary64.mean_in_order
      [100; 100; 100; 100; 100; 90; 99; 100; 80; 81]%float = Ok c /\
    Binary64.down_t [100; 100; 100; 100; 100; 90; 99; 100; 80; 81]%float
    = Ok dt /\
    Binary64.down_percent
      [100; 100; 100; 100; 100; 90; 99; 100; 80; 81]%float dt = Ok dp /\
    Binary64.pick_order dp = Ok pick_ti /\
    Binary64.scan Binary64.mean_in_order
      [100; 100; 100; 100; 100; 90; 99; 100; 80; 81]%float dt pick_ti visited
      Binary64.scan_init = Ok st /\
    scan_range pick_ti = visited ++ rest /\
    k = Binary64.st_n_pick st /\ In k visited /\
    nth_error pick_ti (Z.to_nat (k - 1)) = Some i /\
    getitem dp i = Ok (Binary64.threshold c) /\
    Binary64.gains_top [100; 100; 100; 100; 100; 90; 99; 100; 80; 81]%float
      dt pick_ti k = Ok gains /\
    Binary64.max_avg_gain c = Binary64.mean_in_order gains.
Proof.
  eexists.
  destruct (picked_calibration Binary64.mean_in_order
              [100; 100; 100; 100; 100; 90; 99; 100; 80; 81]%float _
              ltac:(repeat constructor) eq_refl)
    as (dt & dp & pick_ti & st & visited & rest & k & gains & i &
        Hdt & Hdp & Hpo & _ & Hsplit & _ & Hvis & Hk & Hin & _ & Hi & Hthr &
        _ & Hg & _ & Hm & _).
  { discriminate. }
  exists dt, dp, pick_ti, st, visited, rest, k, gains, i.
  split; [reflexivity |]. repeat (split; [assumption |]). assumption.
Defined.
